(** * hebo-eval: the transcript parser, the loader and the evaluation executor

    A shallow embedding of the class [EvaluationExecutor] and of the
    tokenizer, the parser and the loader of transcripts that it is fed by,
    which the tests of the parser components exercise, and of the class
    [RoleMapper].

    Conventions.
    - A JavaScript string is a [string]; the character numbered [n] stands for
      the code unit [n], so the strings of this file range over the code units
      below 256.
    - An integral JavaScript number (an index, a length, a count, a clock
      reading) is a [Z]; a similarity score, a threshold and a rate are
      rationals ([Q]).
    - A value thrown, or the reason of a rejected promise, is a [Thrown]; a
      computation that awaits its collaborators is a [Prog], the tree of the
      calls it makes. *)

From Stdlib Require Import String Ascii ZArith QArith Lia.
From stdpp Require Import base list strings pretty.

(** ** JavaScript built-ins used by the code *)

(** [WhiteSpace] and [LineTerminator] code units below 256: TAB, LF, VT, FF,
    CR, SP and NBSP. *)
Definition is_white_space (c : ascii) : bool :=
  let n := nat_of_ascii c in
  (Nat.leb 9 n && Nat.leb n 13) || Nat.eqb n 32 || Nat.eqb n 160.

Fixpoint trimStart (s : string) : string :=
  match s with
  | EmptyString => EmptyString
  | String c s' => if is_white_space c then trimStart s' else s
  end.

Fixpoint trimEnd (s : string) : string :=
  match s with
  | EmptyString => EmptyString
  | String c s' =>
      match trimEnd s' with
      | EmptyString => if is_white_space c then EmptyString else String c EmptyString
      | t => String c t
      end
  end.

(** [String.prototype.trim] *)
Definition trim (s : string) : string := trimEnd (trimStart s).

(** The relative index of [Array.prototype.slice]: a negative argument counts
    from the end, and the result is clamped to [0 .. len]. *)
Definition relative_index (len i : Z) : Z :=
  if (i <? 0)%Z then Z.max (len + i) 0 else Z.min i len.

(** [Array.prototype.slice(start, end)] *)
Definition slice {A} (l : list A) (start final : Z) : list A :=
  let len := Z.of_nat (length l) in
  let k := relative_index len start in
  take (Z.to_nat (relative_index len final - k)) (drop (Z.to_nat k) l).

(** [array[i]]: [None] is [undefined]. *)
Definition at_index {A} (l : list A) (i : Z) : option A :=
  if (i <? 0)%Z then None else l !! Z.to_nat i.

(** [Array.prototype.join] *)
Fixpoint join (sep : string) (l : list string) : string :=
  match l with
  | [] => EmptyString
  | [s] => s
  | s :: rest => s +:+ sep +:+ join sep rest
  end.

(** ** Data model (core/types/message.types, agents/types, evaluation/types) *)

Inductive MessageRole : Type :=
  USER | ASSISTANT | HUMAN_AGENT | DEVELOPER | SYSTEM | TOOL | FUNCTION.

Record ToolUsage : Type := { tool_name : string; tool_args : string }.

Record ToolResponse : Type := { tool_content : string }.

Record MessageBlock : Type := {
  role : MessageRole;
  content : string;
  toolUsages : list ToolUsage;
  toolResponses : list ToolResponse
}.

Record TestCase : Type := {
  tc_id : string;
  tc_name : string;
  messageBlocks : list MessageBlock
}.

Record Message : Type := { msg_role : MessageRole; msg_content : string }.

Record AgentInput : Type := { messages : list Message }.

Record AgentResponse : Type := { agent_response : string }.

(** A clock reading of [performance.now()] or [new Date()]. *)
Definition Time : Type := Z.
Bind Scope Z_scope with Time.

Record TestCaseEvaluation : Type := {
  testCaseId : string;
  success : bool;
  error : option string;
  score : Q;
  executionTime : Time;
  response : string;
  testCase : TestCase
}.

Record EvaluationConfig : Type := {
  config_threshold : option Q;
  config_maxConcurrency : option Z
}.

(** ** Exceptions and awaited calls *)

(** What a [catch] clause receives: an [Error] object, with the name of its
    class and its message, or any other value. *)
Inductive Thrown : Type :=
| ErrorObject (class message : string)
| OtherValue.

(** [error instanceof Error ? error.message : 'Unknown error'] *)
Definition message_of (e : Thrown) : string :=
  match e with
  | ErrorObject _ m => m
  | OtherValue => "Unknown error"
  end.

(** A computation of the executor: it returns, throws, reads the clock, or
    awaits one of its two collaborators, the agent and the scoring service.
    The continuation of an awaited call receives the settled promise: a
    rejection on the left, the value on the right. *)
Inductive Prog (A : Type) : Type :=
| Ret (a : A)
| Throw (e : Thrown)
| PerformanceNow (k : Time → Prog A)
| SendInput (input : AgentInput) (k : Thrown + AgentResponse → Prog A)
| ScoreStrings (actual expected : string) (k : Thrown + Q → Prog A).

Arguments Ret {A} a.
Arguments Throw {A} e.
Arguments PerformanceNow {A} k.
Arguments SendInput {A} input k.
Arguments ScoreStrings {A} actual expected k.

Fixpoint bind {A B} (p : Prog A) (f : A → Prog B) : Prog B :=
  match p with
  | Ret a => f a
  | Throw e => Throw e
  | PerformanceNow k => PerformanceNow (λ t, bind (k t) f)
  | SendInput input k => SendInput input (λ r, bind (k r) f)
  | ScoreStrings a b k => ScoreStrings a b (λ r, bind (k r) f)
  end.

#[global] Instance Prog_ret : MRet Prog := @Ret.
#[global] Instance Prog_bind : MBind Prog := λ A B f p, bind p f.

(** [try { p } catch (error) { handler error }] *)
Fixpoint try_catch {A} (p : Prog A) (handler : Thrown → Prog A) : Prog A :=
  match p with
  | Ret a => Ret a
  | Throw e => handler e
  | PerformanceNow k => PerformanceNow (λ t, try_catch (k t) handler)
  | SendInput input k => SendInput input (λ r, try_catch (k r) handler)
  | ScoreStrings a b k => ScoreStrings a b (λ r, try_catch (k r) handler)
  end.

(** [await promise] once the promise has settled. *)
Definition await {A} (settled : Thrown + A) : Prog A :=
  match settled with
  | inl e => Throw e
  | inr a => Ret a
  end.

Definition performance_now : Prog Time := PerformanceNow Ret.

Definition agent_sendInput (input : AgentInput) : Prog AgentResponse :=
  SendInput input await.

Definition scoringService_scoreStrings (actual expected : string) : Prog Q :=
  ScoreStrings actual expected await.

(** ** Running a computation against its collaborators

    The collaborators act on a world [W] of their own: the clock, the agent
    (which may keep state between calls) and the scoring service. *)

Record Collaborators (W : Type) : Type := {
  clock_now : W → Time * W;
  agent_answer : AgentInput → W → (Thrown + AgentResponse) * W;
  scoring_answer : string → string → W → (Thrown + Q) * W
}.

Arguments clock_now {W} _ _.
Arguments agent_answer {W} _ _ _.
Arguments scoring_answer {W} _ _ _ _.

Fixpoint run {W A} (env : Collaborators W) (p : Prog A) (w : W) : (Thrown + A) * W :=
  match p with
  | Ret a => (inr a, w)
  | Throw e => (inl e, w)
  | PerformanceNow k =>
      let '(t, w') := clock_now env w in run env (k t) w'
  | SendInput input k =>
      let '(r, w') := agent_answer env input w in run env (k r) w'
  | ScoreStrings a b k =>
      let '(r, w') := scoring_answer env a b w in run env (k r) w'
  end.

(** ** Transcript tokenizer (parser/tokenizer.ts) *)

(** The tokens, as the tokenizer tests show them: [{ type: 'role', value }],
    [{ type: 'content', value }], [{ type: 'tool_use', value }] and
    [{ type: 'tool_response', value }]. *)
Inductive TokenType : Type := role_token | content_token | tool_use | tool_response.

Record Token : Type := { type : TokenType; value : string }.

Definition LF : ascii := "010"%char.
Definition CR : ascii := "013"%char.
Definition TAB : ascii := "009"%char.

(** Modelled from the spec: the source of [tokenize] is missing. The input is
    split on any newline variant: LF, CR LF, or a lone CR. *)
Fixpoint split_lines (text : string) : list string :=
  match text with
  | EmptyString => [EmptyString]
  | String c rest =>
      if Ascii.eqb c LF then EmptyString :: split_lines rest
      else if Ascii.eqb c CR then
        match rest with
        | String c' rest' =>
            if Ascii.eqb c' LF then EmptyString :: split_lines rest'
            else EmptyString :: split_lines rest
        | EmptyString => EmptyString :: split_lines rest
        end
      else
        match split_lines rest with
        | line :: lines => String c line :: lines
        | [] => [String c EmptyString]
        end
  end.

(** Modelled from the spec: the tokenizer looks at the text before the first
    colon of a line. [split_colon s] is that text and the text after the
    colon. *)
Fixpoint split_colon (s : string) : option (string * string) :=
  match s with
  | EmptyString => None
  | String c rest =>
      if Ascii.eqb c ":" then Some (EmptyString, rest)
      else match split_colon rest with
           | Some (before, after) => Some (String c before, after)
           | None => None
           end
  end.

(** Modelled from the spec: the closed set of role labels of the transcript
    grammar, [user|assistant|system|developer|human agent|tool]. *)
Definition role_labels : list (string * MessageRole) :=
  [("user", USER); ("assistant", ASSISTANT); ("system", SYSTEM);
   ("developer", DEVELOPER); ("human agent", HUMAN_AGENT); ("tool", TOOL)].

(** Modelled from the spec: a label is matched as a whole, by exact
    comparison with the labels of the table. *)
Fixpoint lookup_label (label : string) (table : list (string * MessageRole))
  : option MessageRole :=
  match table with
  | [] => None
  | (l, r) :: table' => if String.eqb label l then Some r else lookup_label label table'
  end.

(** Modelled from the spec: the role that a label names. *)
Definition role_of_label (label : string) : option MessageRole :=
  lookup_label label role_labels.

(** Modelled from the spec: the [\s?] of the transcript grammar, at most one
    white space after the colon of a tool marker is dropped. *)
Definition drop_one_space (s : string) : string :=
  match s with
  | String c rest => if is_white_space c then rest else s
  | EmptyString => EmptyString
  end.

(** Modelled from the spec: what a line of the transcript is. The label of a
    line is its text before the first colon, leading white space trimmed; a
    line without a colon, or that starts with its colon, carries text. *)
Inductive Line : Type :=
| RoleLine (label rest : string)
| ToolUseLine (text : string)
| ToolResponseLine (text : string)
| InvalidRoleLine (label : string)
| TextLine (text : string).

(** Modelled from the spec: the label of a line, when it has one. *)
Definition line_label (line : string) : option string :=
  match split_colon (trimStart line) with
  | Some (String c l, _) => Some (String c l)
  | _ => None
  end.

(** Modelled from the spec: a line is a tool line when its label is one of
    the two tool markers, a role line when its label is a role label, and an
    error when it has any other label. *)
Definition classify (line : string) : Line :=
  match split_colon (trimStart line) with
  | Some (String c l, rest) =>
      let label := String c l in
      if String.eqb label "tool use" then ToolUseLine (drop_one_space rest)
      else if String.eqb label "tool response" then ToolResponseLine (drop_one_space rest)
      else match role_of_label label with
           | Some _ => RoleLine label rest
           | None => InvalidRoleLine label
           end
  | _ => TextLine line
  end.

Section Transcripts.

(** Modelled from the spec: the message of a [TokenizeError] lists the valid
    roles as [user, assistant, human agent[, ...]]. [more_roles] is the text
    that follows [human agent] in the message; the spec leaves it open, and
    the tokenizer test looks for the message up to [human agent] only. *)
Variable more_roles : string.

(** Modelled from the spec: the message of a [TokenizeError], with the label
    as it is written in the line. *)
Definition invalid_role (label : string) : string :=
  "Invalid role: " +:+ label
  +:+ ". Valid roles are: user, assistant, human agent" +:+ more_roles.

(** Modelled from the spec: the state of the scan, which is the tokens of the
    blocks already closed and, once a role line was met, the content gathered
    under it and the tool tokens that follow it. *)
Record Scan : Type := {
  closed : list Token;
  opened : option (string * list Token)
}.

(** Modelled from the spec: the tokens of a scan; the content token of the
    open block comes right after its role token, its text trimmed (the
    tokenizer tests expect no blank line and no space around a content). *)
Definition flush (st : Scan) : list Token :=
  match opened st with
  | Some (text, tools) =>
      closed st ++ {| type := content_token; value := trim text |} :: tools
  | None => closed st
  end.

(** Modelled from the spec: a tool token stands alone, after the content of
    the block it follows. *)
Definition add_tool (tok : Token) (st : Scan) : Scan :=
  match opened st with
  | Some (text, tools) => {| closed := closed st; opened := Some (text, tools ++ [tok]) |}
  | None => {| closed := closed st ++ [tok]; opened := None |}
  end.

(** Modelled from the spec: one line of the scan. A role line closes the
    block before it and opens a content token with its trailing text; a tool
    line is a token of its own; any other line extends the content of the
    open block with a line break (and is skipped when no block is open, a
    case the spec does not describe); a label that is neither a role nor a
    tool marker is a [TokenizeError]. *)
Definition scan_line (st : Scan) (line : string) : Thrown + Scan :=
  match classify line with
  | RoleLine label rest =>
      inr {| closed := flush st ++ [{| type := role_token; value := label |}];
             opened := Some (rest, []) |}
  | ToolUseLine text => inr (add_tool {| type := tool_use; value := text |} st)
  | ToolResponseLine text => inr (add_tool {| type := tool_response; value := text |} st)
  | InvalidRoleLine label => inl (ErrorObject "TokenizeError" (invalid_role label))
  | TextLine text =>
      match opened st with
      | Some (content, tools) =>
          inr {| closed := closed st;
                 opened := Some (content +:+ String LF text, tools) |}
      | None => inr st
      end
  end.

(** Modelled from the spec: the lines are scanned in order, up to the first
    error. *)
Fixpoint scan_lines (st : Scan) (lines : list string) : Thrown + Scan :=
  match lines with
  | [] => inr st
  | line :: lines' =>
      match scan_line st line with
      | inr st' => scan_lines st' lines'
      | inl e => inl e
      end
  end.

(** Modelled from the spec: [tokenize(text)], whose source is missing. *)
Definition tokenize (text : string) : Thrown + list Token :=
  match scan_lines {| closed := []; opened := None |} (split_lines text) with
  | inr st => inr (flush st)
  | inl e => inl e
  end.

(** ** JSON text, as [JSON.parse] accepts it

    A pushdown recogniser of the JSON grammar (ECMA-404): the state says what
    may come next, the stack holds the arrays and objects that are open. *)

Inductive JsonContext : Type := InArray | InObject.

Inductive JsonState : Type :=
| JValue            (* a value must come *)
| JValueOrClose     (* after an opening bracket: a value or the closing bracket *)
| JKeyOrClose       (* after an opening brace: a key or the closing brace *)
| JKey              (* after a comma in an object: a key *)
| JColon            (* after a key: the colon *)
| JAfter            (* after a value *)
| JString (key : bool)
| JEscape (key : bool)
| JHex (key : bool) (remaining : nat)
| JMinus | JZero | JInt | JDot | JFrac | JExp | JExpSign | JExpDigits
| JLiteral (rest : string).

Definition DQUOTE : ascii := "034"%char.
Definition BACKSLASH : ascii := "092"%char.

Definition is_json_space (c : ascii) : bool :=
  let n := nat_of_ascii c in
  Nat.eqb n 32 || Nat.eqb n 9 || Nat.eqb n 10 || Nat.eqb n 13.

Definition is_digit (c : ascii) : bool :=
  let n := nat_of_ascii c in Nat.leb 48 n && Nat.leb n 57.

Definition is_digit19 (c : ascii) : bool :=
  let n := nat_of_ascii c in Nat.leb 49 n && Nat.leb n 57.

Definition is_hex (c : ascii) : bool :=
  let n := nat_of_ascii c in
  is_digit c || (Nat.leb 65 n && Nat.leb n 70) || (Nat.leb 97 n && Nat.leb n 102).

Definition is_exponent_mark (c : ascii) : bool :=
  Ascii.eqb c "e" || Ascii.eqb c "E".

Definition json_start_value (c : ascii) (stack : list JsonContext)
  : option (JsonState * list JsonContext) :=
  if Ascii.eqb c "{" then Some (JKeyOrClose, InObject :: stack)
  else if Ascii.eqb c "[" then Some (JValueOrClose, InArray :: stack)
  else if Ascii.eqb c DQUOTE then Some (JString false, stack)
  else if Ascii.eqb c "-" then Some (JMinus, stack)
  else if Ascii.eqb c "0" then Some (JZero, stack)
  else if is_digit19 c then Some (JInt, stack)
  else if Ascii.eqb c "t" then Some (JLiteral "rue", stack)
  else if Ascii.eqb c "f" then Some (JLiteral "alse", stack)
  else if Ascii.eqb c "n" then Some (JLiteral "ull", stack)
  else None.

Definition json_after_value (c : ascii) (stack : list JsonContext)
  : option (JsonState * list JsonContext) :=
  if is_json_space c then Some (JAfter, stack)
  else if Ascii.eqb c "," then
    match stack with
    | InArray :: _ => Some (JValue, stack)
    | InObject :: _ => Some (JKey, stack)
    | [] => None
    end
  else if Ascii.eqb c "]" then
    match stack with
    | InArray :: stack' => Some (JAfter, stack')
    | _ => None
    end
  else if Ascii.eqb c "}" then
    match stack with
    | InObject :: stack' => Some (JAfter, stack')
    | _ => None
    end
  else None.

Definition json_step (st : JsonState) (stack : list JsonContext) (c : ascii)
  : option (JsonState * list JsonContext) :=
  match st with
  | JValue =>
      if is_json_space c then Some (JValue, stack) else json_start_value c stack
  | JValueOrClose =>
      if is_json_space c then Some (JValueOrClose, stack)
      else if Ascii.eqb c "]" then Some (JAfter, tail stack)
      else json_start_value c stack
  | JKeyOrClose =>
      if is_json_space c then Some (JKeyOrClose, stack)
      else if Ascii.eqb c "}" then Some (JAfter, tail stack)
      else if Ascii.eqb c DQUOTE then Some (JString true, stack)
      else None
  | JKey =>
      if is_json_space c then Some (JKey, stack)
      else if Ascii.eqb c DQUOTE then Some (JString true, stack)
      else None
  | JColon =>
      if is_json_space c then Some (JColon, stack)
      else if Ascii.eqb c ":" then Some (JValue, stack)
      else None
  | JAfter => json_after_value c stack
  | JString key =>
      if Ascii.eqb c DQUOTE then Some (if key then JColon else JAfter, stack)
      else if Ascii.eqb c BACKSLASH then Some (JEscape key, stack)
      else if Nat.ltb (nat_of_ascii c) 32 then None
      else Some (JString key, stack)
  | JEscape key =>
      if Ascii.eqb c DQUOTE || Ascii.eqb c BACKSLASH || Ascii.eqb c "/"
         || Ascii.eqb c "b" || Ascii.eqb c "f" || Ascii.eqb c "n"
         || Ascii.eqb c "r" || Ascii.eqb c "t"
      then Some (JString key, stack)
      else if Ascii.eqb c "u" then Some (JHex key 4, stack)
      else None
  | JHex key remaining =>
      if is_hex c
      then Some (match remaining with
                 | S (S n) => JHex key (S n)
                 | _ => JString key
                 end, stack)
      else None
  | JMinus =>
      if Ascii.eqb c "0" then Some (JZero, stack)
      else if is_digit19 c then Some (JInt, stack)
      else None
  | JZero =>
      if Ascii.eqb c "." then Some (JDot, stack)
      else if is_exponent_mark c then Some (JExp, stack)
      else json_after_value c stack
  | JInt =>
      if is_digit c then Some (JInt, stack)
      else if Ascii.eqb c "." then Some (JDot, stack)
      else if is_exponent_mark c then Some (JExp, stack)
      else json_after_value c stack
  | JDot => if is_digit c then Some (JFrac, stack) else None
  | JFrac =>
      if is_digit c then Some (JFrac, stack)
      else if is_exponent_mark c then Some (JExp, stack)
      else json_after_value c stack
  | JExp =>
      if Ascii.eqb c "+" || Ascii.eqb c "-" then Some (JExpSign, stack)
      else if is_digit c then Some (JExpDigits, stack)
      else None
  | JExpSign => if is_digit c then Some (JExpDigits, stack) else None
  | JExpDigits =>
      if is_digit c then Some (JExpDigits, stack) else json_after_value c stack
  | JLiteral rest =>
      match rest with
      | String x EmptyString => if Ascii.eqb c x then Some (JAfter, stack) else None
      | String x rest' => if Ascii.eqb c x then Some (JLiteral rest', stack) else None
      | EmptyString => None
      end
  end.

Definition json_complete (st : JsonState) (stack : list JsonContext) : bool :=
  match st, stack with
  | (JAfter | JZero | JInt | JFrac | JExpDigits), [] => true
  | _, _ => false
  end.

Fixpoint json_run (st : JsonState) (stack : list JsonContext) (s : string) : bool :=
  match s with
  | EmptyString => json_complete st stack
  | String c rest =>
      match json_step st stack c with
      | Some (st', stack') => json_run st' stack' rest
      | None => false
      end
  end.

(** [JSON.parse(s)] does not throw. *)
Definition is_valid_json (s : string) : bool := json_run JValue [] s.

(** ** Transcript parser (parser/parser.ts) *)

(** [s] without its prefix [prefix], when it starts with it. *)
Fixpoint strip_prefix (prefix s : string) : option string :=
  match prefix, s with
  | EmptyString, _ => Some s
  | String a prefix', String b s' =>
      if Ascii.eqb a b then strip_prefix prefix' s' else None
  | String _ _, EmptyString => None
  end.

(** Modelled from the spec: a tool use text is split at the first literal
    occurrence of a marker. [split_marker marker s] is the text before the
    first occurrence of [marker] in [s] and the text after it. *)
Fixpoint split_marker (marker s : string) : option (string * string) :=
  match strip_prefix marker s with
  | Some after => Some (EmptyString, after)
  | None =>
      match s with
      | EmptyString => None
      | String c rest =>
          match split_marker marker rest with
          | Some (before, after) => Some (String c before, after)
          | None => None
          end
      end
  end.

(** The message that the parser test on invalid tool arguments expects. *)
Definition invalid_tool_args : string := "Tool args must be valid JSON".

(** Modelled from the spec: the text of a tool use line, split at its first
    [args:] marker. Without a marker the line has no arguments, and the empty
    text is no JSON. *)
Definition tool_use_parts (text : string) : string * string :=
  match split_marker "args:" text with
  | Some (name, args) => (name, args)
  | None => (text, EmptyString)
  end.

(** Modelled from the spec: a [tool_use] token is read as [name args: json].
    The name is trimmed; the remainder, the text after the marker, is checked
    to be JSON and is kept as it is written. The white space that separates
    it from the marker in [args: json] is not part of it: the parser test
    expects the arguments without the space that follows the marker. *)
Definition parse_tool_use (text : string) : Thrown + ToolUsage :=
  let '(name, args) := tool_use_parts text in
  if is_valid_json args
  then inr {| tool_name := trim name; tool_args := drop_one_space args |}
  else inl (ErrorObject "ParseError" invalid_tool_args).

(** Modelled from the spec: what [parse] returns, the name it was given and
    the message blocks; the [id] of the test case is given by the loader. *)
Record ParsedTestCase : Type := {
  parsed_name : string;
  parsed_blocks : list MessageBlock
}.

(** Modelled from the spec: the state of the walk over the tokens, the blocks
    already closed and the block that is open, if any. *)
Record Assembly : Type := {
  blocks : list MessageBlock;
  current : option MessageBlock
}.

(** Modelled from the spec: the open block is pushed after the others, its
    content trimmed. *)
Definition finalize (st : Assembly) : list MessageBlock :=
  match current st with
  | Some b =>
      blocks st ++ [{| role := role b; content := trim (content b);
                       toolUsages := toolUsages b; toolResponses := toolResponses b |}]
  | None => blocks st
  end.

(** Modelled from the spec: one token of the walk. A tool token met before
    any role token has no block to go to and is dropped once checked (the
    spec names no error for it). *)
Definition assemble_token (st : Assembly) (tok : Token) : Thrown + Assembly :=
  match type tok with
  | role_token =>
      inr {| blocks := finalize st;
             current := Some {| role := default USER (role_of_label (value tok));
                                content := EmptyString;
                                toolUsages := []; toolResponses := [] |} |}
  | content_token =>
      inr {| blocks := blocks st;
             current := (λ b, {| role := role b; content := value tok;
                                 toolUsages := toolUsages b;
                                 toolResponses := toolResponses b |}) <$> current st |}
  | tool_use =>
      match parse_tool_use (value tok) with
      | inr usage =>
          inr {| blocks := blocks st;
                 current := (λ b, {| role := role b; content := content b;
                                     toolUsages := toolUsages b ++ [usage];
                                     toolResponses := toolResponses b |}) <$> current st |}
      | inl e => inl e
      end
  | tool_response =>
      inr {| blocks := blocks st;
             current := (λ b, {| role := role b; content := content b;
                                 toolUsages := toolUsages b;
                                 toolResponses := toolResponses b
                                                  ++ [{| tool_content := value tok |}] |})
                        <$> current st |}
  end.

(** Modelled from the spec: the tokens are walked in order, up to the first
    error. *)
Fixpoint assemble (st : Assembly) (tokens : list Token) : Thrown + Assembly :=
  match tokens with
  | [] => inr st
  | tok :: tokens' =>
      match assemble_token st tok with
      | inr st' => assemble st' tokens'
      | inl e => inl e
      end
  end.

(** Modelled from the spec: [parse(text, name)], whose source is missing; a
    [TokenizeError] surfaces as a [ParseError] with the same message. *)
Definition parse (text name : string) : Thrown + ParsedTestCase :=
  match tokenize text with
  | inl e => inl (ErrorObject "ParseError" (message_of e))
  | inr tokens =>
      match assemble {| blocks := []; current := None |} tokens with
      | inl e => inl e
      | inr st => inr {| parsed_name := name; parsed_blocks := finalize st |}
      end
  end.

(** ** Test case loader (parser/loader.ts) *)

(** Modelled from the spec: the entries of [LoadResult.errors],
    [{ filePath, message }]; the loader tests read their [filePath]. *)
Record LoadError : Type := { filePath : string; load_message : string }.

(** Modelled from the spec: [LoadResult], the test cases that were parsed and
    the errors, one for each file that failed. *)
Record LoadResult : Type := {
  testCases : list TestCase;
  errors : list LoadError
}.

(** A file of a directory: its name and what reading it gives. *)
Record DirEntry : Type := { entry_name : string; entry_text : Thrown + string }.

(** What listing a directory gives, in the order of enumeration. *)
Definition FileSystem : Type := string → Thrown + list DirEntry.

(** [path.join(dir, file)] for a directory and a file name. *)
Definition path_join (dir file : string) : string := dir +:+ "/" +:+ file.

Fixpoint has_dot (s : string) : bool :=
  match s with
  | EmptyString => false
  | String c rest => Ascii.eqb c "." || has_dot rest
  end.

Fixpoint cut_extension (s : string) : string :=
  match s with
  | EmptyString => EmptyString
  | String c rest =>
      if Ascii.eqb c "." && negb (has_dot rest) then EmptyString
      else String c (cut_extension rest)
  end.

(** Modelled from the spec: the name of a test case is the base name of its
    file without the extension; a leading dot starts no extension. *)
Definition base_name (file : string) : string :=
  match file with
  | EmptyString => EmptyString
  | String c rest => String c (cut_extension rest)
  end.

(** Modelled from the spec: the source of the loader is missing. A file is
    read and parsed; its test case takes the base name of the file as [name]
    and as [id]; a file that cannot be read or parsed gives an error entry
    with the path of the file. *)
Definition load_file (dir : string) (entry : DirEntry) : LoadError + TestCase :=
  let file := path_join dir (entry_name entry) in
  match entry_text entry with
  | inl e => inl {| filePath := file; load_message := message_of e |}
  | inr text =>
      match parse text (base_name (entry_name entry)) with
      | inl e => inl {| filePath := file; load_message := message_of e |}
      | inr parsed =>
          inr {| tc_id := parsed_name parsed;
                 tc_name := parsed_name parsed;
                 messageBlocks := parsed_blocks parsed |}
      end
  end.

(** Modelled from the spec: the files are processed in the order of
    enumeration; with [stopOnError] the first error ends the loop, and the
    test cases loaded before it are kept. *)
Fixpoint load_files (stopOnError : bool) (dir : string) (entries : list DirEntry)
    (loaded : LoadResult) : LoadResult :=
  match entries with
  | [] => loaded
  | entry :: entries' =>
      match load_file dir entry with
      | inr tc =>
          load_files stopOnError dir entries'
            {| testCases := testCases loaded ++ [tc]; errors := errors loaded |}
      | inl err =>
          let loaded' :=
            {| testCases := testCases loaded; errors := errors loaded ++ [err] |} in
          if stopOnError then loaded' else load_files stopOnError dir entries' loaded'
      end
  end.

(** Modelled from the spec: [loadFromDirectory(path, stopOnError = true)].
    [accepted] tells the file names with an accepted extension, which the
    spec does not list. A directory that cannot be listed gives one error
    entry with the path of the directory. *)
Definition loadFromDirectory (accepted : string → bool) (fs : FileSystem)
    (directoryPath : string) (stopOnError : bool) : LoadResult :=
  match fs directoryPath with
  | inl e =>
      {| testCases := [];
         errors := [{| filePath := directoryPath; load_message := message_of e |}] |}
  | inr entries =>
      load_files stopOnError directoryPath
        (List.filter (λ entry, accepted (entry_name entry)) entries)
        {| testCases := []; errors := [] |}
  end.

End Transcripts.

(** ** EvaluationExecutor *)

Record EvaluationExecutor : Type := {
  threshold : Q;
  maxConcurrency : Z
}.

(** [constructor(scoringService, config)]: [config.threshold ?? 0.7] and
    [config.maxConcurrency ?? 5]. *)
Definition constructor (config : EvaluationConfig) : EvaluationExecutor :=
  {| threshold := default (7 # 10)%Q (config_threshold config);
     maxConcurrency := default 5%Z (config_maxConcurrency config) |}.

Definition too_few_blocks : string :=
  "Test case must have at least 2 message blocks: input and expected output".

(** Reading [.content] of [undefined] is a [TypeError]. *)
Definition content_of_undefined : Thrown :=
  ErrorObject "TypeError" "Cannot read properties of undefined (reading 'content')".

(** [executeTestCase(agent, testCase)]; the agent is the collaborator that
    answers [SendInput]. *)
Definition executeTestCase (this : EvaluationExecutor) (testCase : TestCase)
  : Prog TestCaseEvaluation :=
  startTime ← performance_now;
  try_catch
    (_ ← (if (Z.of_nat (length (messageBlocks testCase)) <? 2)%Z
          then Throw (ErrorObject "Error" too_few_blocks)
          else Ret ());
     let input :=
       {| messages :=
            map (λ block, {| msg_role := role block; msg_content := content block |})
                (slice (messageBlocks testCase) 0 (-1)) |} in
     let expectedResponse :=
       at_index (messageBlocks testCase)
                (Z.of_nat (length (messageBlocks testCase)) - 1) in
     response ← agent_sendInput input;
     now ← performance_now;
     let executionTime := (now - startTime)%Z in
     expected ← match expectedResponse with
                | Some block => Ret (content block)
                | None => Throw content_of_undefined
                end;
     score ← scoringService_scoreStrings (trim (agent_response response))
                                         (trim expected);
     let isMatch := Qle_bool (threshold this) score in
     Ret {| testCaseId := tc_id testCase;
            success := isMatch;
            error := if isMatch then None else Some "Response mismatch";
            score := score;
            executionTime := executionTime;
            response := agent_response response;
            testCase := testCase |})
    (λ error,
       now ← performance_now;
       let executionTime := (now - startTime)%Z in
       Ret {| testCaseId := tc_id testCase;
              success := false;
              error := Some (message_of error);
              score := 0%Q;
              executionTime := executionTime;
              response := EmptyString;
              testCase := testCase |}).

(** The async arrow function that [executeTestCasesInParallel] maps over a
    chunk: [try { return await this.executeTestCase(agent, testCase) }
    catch (error) { return { ..., success: false, executionTime: 0 } }]. *)
Definition chunk_task (this : EvaluationExecutor) (testCase : TestCase)
  : Prog TestCaseEvaluation :=
  try_catch (executeTestCase this testCase)
    (λ error,
       Ret {| testCaseId := tc_id testCase;
              success := false;
              error := Some (message_of error);
              score := 0%Q;
              executionTime := 0%Z;
              response := EmptyString;
              testCase := testCase |}).

(** *** The batch as a transition system

    [executeTestCasesInParallel] runs concurrently with the calls it awaits.
    Its control points are the phases below; an event is either a step of the
    orchestrating function itself or the settling of what one promise of the
    current chunk waits for. The order of the events is the completion order
    of the underlying calls and is not chosen by the code.

    A promise of the chunk is the computation it still has to run. Reading
    the clock is an event of its own here, so the interleavings of this
    system include those of the event loop, where a task runs without
    interruption up to its next [await]. *)

Inductive Phase : Type :=
| Chunking (i : Z) (chunks : list (list TestCase))
    (* at the test of [for (let i = 0; i < testCases.length; i += maxConcurrency)] *)
| NextChunk (pending : list (list TestCase)) (results : list TestCaseEvaluation)
    (* at the head of [for (const chunk of chunks)] *)
| AwaitAll (chunkPromises : list (Prog TestCaseEvaluation))
    (pending : list (list TestCase)) (results : list TestCaseEvaluation)
    (* at [await Promise.all(chunkPromises)] *)
| Returned (results : list TestCaseEvaluation)
| Rejected (e : Thrown).

Inductive Settled : Type :=
| ClockRead (t : Time)
| AgentSettled (r : Thrown + AgentResponse)
| ScoreSettled (r : Thrown + Q).

Inductive Event : Type :=
| Advance                          (* the orchestrating function runs on *)
| Resume (j : nat) (s : Settled)   (* promise [j] of the chunk gets its answer *)
| Reject (j : nat).                (* [Promise.all] sees promise [j] rejected *)

Definition resume {A} (p : Prog A) (s : Settled) : option (Prog A) :=
  match p, s with
  | PerformanceNow k, ClockRead t => Some (k t)
  | SendInput _ k, AgentSettled r => Some (k r)
  | ScoreStrings _ _ k, ScoreSettled r => Some (k r)
  | _, _ => None
  end.

Definition fulfilled {A} (p : Prog A) : option A :=
  match p with
  | Ret a => Some a
  | _ => None
  end.

Definition step (this : EvaluationExecutor) (testCases : list TestCase)
    (maxConcurrency : Z) (ev : Event) (ph : Phase) : option Phase :=
  match ph, ev with
  | Chunking i chunks, Advance =>
      if (i <? Z.of_nat (length testCases))%Z
      then Some (Chunking (i + maxConcurrency)
                   (chunks ++ [slice testCases i (i + maxConcurrency)]))
      else Some (NextChunk chunks [])
  | NextChunk [] results, Advance => Some (Returned results)
  | NextChunk (chunk :: pending) results, Advance =>
      Some (AwaitAll (map (chunk_task this) chunk) pending results)
  | AwaitAll chunkPromises pending results, Resume j s =>
      p ← chunkPromises !! j;
      p' ← resume p s;
      Some (AwaitAll (<[j := p']> chunkPromises) pending results)
  | AwaitAll chunkPromises pending results, Advance =>
      chunkResults ← mapM fulfilled chunkPromises;
      Some (NextChunk pending (results ++ chunkResults))
  | AwaitAll chunkPromises pending results, Reject j =>
      match chunkPromises !! j with
      | Some (Throw e) => Some (Rejected e)
      | _ => None
      end
  | _, _ => None
  end.

Fixpoint steps (this : EvaluationExecutor) (testCases : list TestCase)
    (maxConcurrency : Z) (events : list Event) (ph : Phase) : option Phase :=
  match events with
  | [] => Some ph
  | ev :: events' =>
      ph' ← step this testCases maxConcurrency ev ph;
      steps this testCases maxConcurrency events' ph'
  end.

(** [executeTestCasesInParallel(agent, testCases, maxConcurrency)] under a
    sequence of events: the phase reached, or [None] when an event of the
    sequence cannot happen where it stands. *)
Definition executeTestCasesInParallel (this : EvaluationExecutor)
    (testCases : list TestCase) (maxConcurrency : Z) (events : list Event)
  : option Phase :=
  steps this testCases maxConcurrency events (Chunking 0 []).

Definition awaits_agent {A} (p : Prog A) : bool :=
  match p with
  | SendInput _ _ => true
  | _ => false
  end.

(** The agent invocations that have been issued and have not settled. *)
Definition in_flight (ph : Phase) : nat :=
  match ph with
  | AwaitAll chunkPromises _ _ => length (filter awaits_agent chunkPromises)
  | _ => 0
  end.

(** *** The report of [evaluateFromDirectory] *)

Record ReportedTestCase : Type := {
  reported_id : string;
  reported_input : string;
  reported_expected : string
}.

Record EvaluationResult : Type := {
  result_testCase : ReportedTestCase;
  result_score : Q;
  passed : bool;
  result_error : option string;
  result_timestamp : Time;
  result_response : string
}.

Record EvaluationReport : Type := {
  totalTests : Z;
  passedTests : Z;
  failedTests : Z;
  passRate : Q;
  results : list EvaluationResult;
  timestamp : Time;
  duration : Q
}.

(** The body of [results.map((result) => ({ testCase: {...}, ... }))]; the
    last block of a test case without blocks is [undefined]. *)
Definition report_result (date : Time) (result : TestCaseEvaluation)
  : Thrown + EvaluationResult :=
  let blocks := messageBlocks (testCase result) in
  match at_index blocks (Z.of_nat (length blocks) - 1) with
  | None => inl content_of_undefined
  | Some expected =>
      inr {| result_testCase :=
               {| reported_id := testCaseId result;
                  reported_input := join (String LF EmptyString)
                                         (map content (slice blocks 0 (-1)));
                  reported_expected := content expected |};
             result_score := score result;
             passed := success result;
             result_error := error result;
             result_timestamp := date;
             result_response := response result |}
  end.

Fixpoint report_results (date : Time) (results : list TestCaseEvaluation)
  : Thrown + list EvaluationResult :=
  match results with
  | [] => inr []
  | result :: results' =>
      match report_result date result with
      | inl e => inl e
      | inr r =>
          match report_results date results' with
          | inl e => inl e
          | inr rs => inr (r :: rs)
          end
      end
  end.

(** The part of [evaluateFromDirectory] that follows the batch. *)
Definition make_report (startTime endTime date : Time)
    (results : list TestCaseEvaluation) : Thrown + EvaluationReport :=
  let duration := (inject_Z (endTime - startTime) / 1000)%Q in
  let passedTests := Z.of_nat (length (List.filter success results)) in
  let totalTests := Z.of_nat (length results) in
  let failedTests := (totalTests - passedTests)%Z in
  let passRate :=
    if (0 <? totalTests)%Z
    then (inject_Z passedTests / inject_Z totalTests)%Q
    else 0%Q in
  match report_results date results with
  | inl e => inl e
  | inr reported =>
      inr {| totalTests := totalTests;
             passedTests := passedTests;
             failedTests := failedTests;
             passRate := passRate;
             results := reported;
             timestamp := date;
             duration := duration |}
  end.

(** How far an asynchronous call has come when its events are used up. *)
Inductive Completion (A : Type) : Type :=
| Fulfilled (a : A)
| Failed (e : Thrown)
| Pending.

Arguments Fulfilled {A} a.
Arguments Failed {A} e.
Arguments Pending {A}.

(** [evaluateFromDirectory(agent, directoryPath, stopOnError)].
    [loader] is [this.testCaseLoader.loadFromDirectory] in the file system of
    the call, [events] are the events of the batch, and [startTime],
    [endTime] and [date] are the readings of [performance.now()] and of
    [new Date()]. *)
Definition evaluateFromDirectory (this : EvaluationExecutor)
    (loader : string → bool → LoadResult)
    (directoryPath : string) (stopOnError : bool)
    (events : list Event) (startTime endTime date : Time)
  : Completion EvaluationReport :=
  let loadResult := loader directoryPath stopOnError in
  match executeTestCasesInParallel this (testCases loadResult)
          (maxConcurrency this) events with
  | Some (Returned results) =>
      match make_report startTime endTime date results with
      | inr report => Fulfilled report
      | inl e => Failed e
      end
  | Some (Rejected e) => Failed e
  | _ => Pending
  end.

(** ** Notions used to state the properties of the tokenizer, the parser and the loader *)

(** The token that a line gives by itself: a role token for a role line, a
    tool token for a tool line. *)
Definition line_token (line : string) : option Token :=
  match classify line with
  | RoleLine label _ => Some {| type := role_token; value := label |}
  | ToolUseLine text => Some {| type := tool_use; value := text |}
  | ToolResponseLine text => Some {| type := tool_response; value := text |}
  | InvalidRoleLine _ | TextLine _ => None
  end.

(** A label is foreign when it is neither a role label nor one of the two
    tool markers. *)
Definition foreign_label (label : string) : Prop :=
  role_of_label label = None ∧ label ≠ "tool use" ∧ label ≠ "tool response".

(** The tokens that are not content tokens. *)
Definition is_header (tok : Token) : bool :=
  match type tok with
  | content_token => false
  | _ => true
  end.


(** The test cases and the errors among the outcomes of loading files. *)
Definition load_successes (outcomes : list (LoadError + TestCase)) : list TestCase :=
  omap (λ o, match o with inr tc => Some tc | inl _ => None end) outcomes.

Definition load_failures (outcomes : list (LoadError + TestCase)) : list LoadError :=
  omap (λ o, match o with inl err => Some err | inr _ => None end) outcomes.

(** ** Notions used to state the properties of the batch and of the report *)

(** [residual p0 p]: [p] is what is left of [p0] once some of the calls it
    awaits have settled. [residual p0 (Ret a)] says that [a] is a value that
    [p0] can be fulfilled with. *)
Inductive residual {A} (p0 : Prog A) : Prog A → Prop :=
| residual_start : residual p0 p0
| residual_resume p s p' :
    residual p0 p → resume p s = Some p' → residual p0 p'.

(** Whatever its awaited calls answer, the computation returns a value that
    satisfies [P] or throws one that satisfies [Q]. *)
Inductive leaves {A} (P : A → Prop) (Q : Thrown → Prop) : Prog A → Prop :=
| leaves_Ret a : P a → leaves P Q (Ret a)
| leaves_Throw e : Q e → leaves P Q (Throw e)
| leaves_PerformanceNow k :
    (∀ t, leaves P Q (k t)) → leaves P Q (PerformanceNow k)
| leaves_SendInput input k :
    (∀ r, leaves P Q (k r)) → leaves P Q (SendInput input k)
| leaves_ScoreStrings a b k :
    (∀ r, leaves P Q (k r)) → leaves P Q (ScoreStrings a b k).

(** The computation settles after at most [n] answers. *)
Inductive settles_within {A} : nat → Prog A → Prop :=
| settles_Ret n a : settles_within n (Ret a)
| settles_Throw n e : settles_within n (Throw e)
| settles_PerformanceNow n k :
    (∀ t, settles_within n (k t)) → settles_within (S n) (PerformanceNow k)
| settles_SendInput n input k :
    (∀ r, settles_within n (k r)) → settles_within (S n) (SendInput input k)
| settles_ScoreStrings n a b k :
    (∀ r, settles_within n (k r)) → settles_within (S n) (ScoreStrings a b k).

(** The [j]-th of the consecutive chunks of [size] elements of [l]. *)
Definition nth_chunk {A} (size : nat) (l : list A) (j : nat) : list A :=
  take size (drop (j * size) l).

(** [chunks] are the consecutive chunks of [size] elements that cover [l],
    none of them empty. *)
Definition consecutive_chunks {A} (size : nat) (l : list A)
    (chunks : list (list A)) : Prop :=
  ∃ m, chunks = nth_chunk size l <$> seq 0 m
       ∧ (length l ≤ m * size)%nat
       ∧ (m = 0 ∨ ((m - 1) * size < length l)%nat).

(** [evaluation] is an evaluation that the promise made for [tc] can be
    fulfilled with. *)
Definition outcome (this : EvaluationExecutor) (tc : TestCase)
    (evaluation : TestCaseEvaluation) : Prop :=
  residual (chunk_task this tc) (Ret evaluation).

(** The chunks are processed one after the other: while the chunks are being
    cut, a prefix of them exists; afterwards the chunks split into those
    finished, whose evaluations are the results so far, in order, at most one
    chunk whose promises are pending, and those not started. *)
Definition sequential (this : EvaluationExecutor) (k : Z)
    (chunks : list (list TestCase)) (ph : Phase) : Prop :=
  match ph with
  | Chunking i cut =>
      ∃ m, i = (Z.of_nat m * k)%Z ∧ (m ≤ length chunks)%nat ∧ cut = take m chunks
  | NextChunk pending results =>
      ∃ finished,
        chunks = finished ++ pending
        ∧ Forall2 (outcome this) (concat finished) results
  | AwaitAll chunkPromises pending results =>
      ∃ finished chunk,
        chunks = finished ++ chunk :: pending
        ∧ Forall2 (outcome this) (concat finished) results
        ∧ Forall2 (λ tc p, residual (chunk_task this tc) p) chunk chunkPromises
  | Returned results => Forall2 (outcome this) (concat chunks) results
  | Rejected _ => False
  end.

(** At most [maxConcurrency] promises exist at a time. With
    [maxConcurrency ≤ 0] the chunking loop ends only for an empty input, so no
    promise is ever created. *)
Definition within_limit (tcs : list TestCase) (k : Z) (ph : Phase) : Prop :=
  match ph with
  | Chunking i chunks =>
      ((0 < k)%Z → (0 ≤ i)%Z ∧ Forall (λ c, (Z.of_nat (length c) ≤ k)%Z) chunks)
      ∧ ((k ≤ 0)%Z → (i = 0%Z ∧ chunks = []) ∨ ((i ≤ 0)%Z ∧ tcs ≠ []))
  | NextChunk pending _ =>
      Forall (λ c, (Z.of_nat (length c) ≤ Z.max 0 k)%Z) pending
  | AwaitAll chunkPromises pending _ =>
      (Z.of_nat (length chunkPromises) ≤ Z.max 0 k)%Z
      ∧ Forall (λ c, (Z.of_nat (length c) ≤ Z.max 0 k)%Z) pending
  | _ => True
  end.

(** With [maxConcurrency ≤ 0] the first loop ends only for an empty input,
    and then there is no chunk and no result. *)
Definition idle (tcs : list TestCase) (ph : Phase) : Prop :=
  match ph with
  | Chunking i chunks => (i = 0%Z ∧ chunks = []) ∨ ((i ≤ 0)%Z ∧ tcs ≠ [])
  | NextChunk pending results => tcs = [] ∧ pending = [] ∧ results = []
  | Returned results => tcs = [] ∧ results = []
  | AwaitAll _ _ _ | Rejected _ => False
  end.

(** An upper bound on the events that a phase can still take: what is left
    of the input to cut, the evaluations still to settle (at most 5 answers
    for each test case), and 2 steps of the loop around each chunk. *)
Definition cost (chunks : list (list TestCase)) : nat :=
  sum_list_with (λ c, 2 + 5 * length c)%nat chunks.

(** [fuel] bounds the number of events that the phase [ph] can still take. *)
Definition potential (tcs : list TestCase) (ph : Phase) (fuel : nat) : Prop :=
  match ph with
  | Chunking i cut =>
      (0 ≤ i)%Z
      ∧ fuel = (8 * Z.to_nat (Z.of_nat (length tcs) - i) + 2 + cost cut)%nat
  | NextChunk pending _ => fuel = (1 + cost pending)%nat
  | AwaitAll chunkPromises pending _ =>
      ∃ hs, Forall2 settles_within hs chunkPromises
            ∧ fuel = (2 + sum_list hs + cost pending)%nat
  | Returned _ | Rejected _ => fuel = 0%nat
  end.

(** The report of a run in which no test case was loaded. *)
Definition empty_report (startTime endTime date : Time) : EvaluationReport :=
  {| totalTests := 0;
     passedTests := 0;
     failedTests := 0;
     passRate := 0%Q;
     results := [];
     timestamp := date;
     duration := (inject_Z (endTime - startTime) / 1000)%Q |}.

(** ** A statement of the specification, read for every input *)

(** The reading of the claim on [executionTime] that takes it to span both
    external calls: the evaluation's [executionTime] is the clock at the end
    of the call, after the agent call and the scoring call, minus the clock at
    its start. *)
Definition executionTime_spans_both_calls {W} (env : Collaborators W)
    (this : EvaluationExecutor) (tc : TestCase) (w : W) : Prop :=
  ∀ evaluation w',
    run env (executeTestCase this tc) w = (inr evaluation, w') →
    executionTime evaluation = ((clock_now env w').1 - (clock_now env w).1)%Z.

(** ** Collaborators, test cases, transcripts and files of the examples *)

(** A string in double quotes, for the JSON texts of the examples. *)
Definition quoted (s : string) : string :=
  String DQUOTE (s +:+ String DQUOTE EmptyString).

(** Two lines separated by a line feed. *)
Definition two_lines (first second : string) : string :=
  first +:+ String LF second.

(** The transcript of the tokenizer test on partial role matches. *)
Definition partial_role_transcript : string :=
  "user: Hello"
  +:+ String LF "user123: This should not be parsed as a role"
  +:+ String LF "assistant: Hi there".

(** The transcript of the tokenizer test on tool usage. *)
Definition tool_transcript : string :=
  "assistant: Let me check that"
  +:+ String LF ("tool use: search args: {" +:+ quoted "query" +:+ ": "
                 +:+ quoted "test" +:+ "}")
  +:+ String LF "tool response: Found results".

(** The transcript of the parser test on invalid tool arguments. *)
Definition invalid_args_transcript : string :=
  "assistant: Let me check"
  +:+ String LF "tool use: search args: invalid json"
  +:+ String LF "tool response: some response".

(** A tool use line whose arguments are JSON written with spaces of its own. *)
Definition spaced_args_transcript : string :=
  "assistant: Let me check that"
  +:+ String LF ("tool use: search args: { " +:+ quoted "query" +:+ " :  "
                 +:+ quoted "test" +:+ " }").

(** A message block without tool usage. *)
Definition plain_block (r : MessageRole) (text : string) : MessageBlock :=
  {| role := r; content := text; toolUsages := []; toolResponses := [] |}.

Definition greeting_case : TestCase :=
  {| tc_id := "greeting"; tc_name := "greeting";
     messageBlocks := [plain_block USER "hi"; plain_block ASSISTANT "hello"] |}.

(** A test case without any block, as an empty file gives. *)
Definition blank_case : TestCase :=
  {| tc_id := "blank"; tc_name := "blank"; messageBlocks := [] |}.

Definition lonely_case : TestCase :=
  {| tc_id := "lonely"; tc_name := "lonely";
     messageBlocks := [plain_block USER "hi"] |}.

Definition three_cases : list TestCase := [greeting_case; lonely_case; greeting_case].

Definition busy_cases : list TestCase := [greeting_case; greeting_case; greeting_case].

(** The world is the clock. The agent answers " hello " after 10 ticks; the
    scoring service takes 5 ticks and gives 1 to equal strings, 0 to others. *)
Definition timed_env : Collaborators Z :=
  {| clock_now := λ w, (w, w);
     agent_answer := λ _ w, (inr {| agent_response := " hello " |}, (w + 10)%Z);
     scoring_answer := λ a b w,
       (inr (if String.eqb a b then 1%Q else 0%Q), (w + 5)%Z) |}.

Definition default_executor : EvaluationExecutor :=
  constructor {| config_threshold := None; config_maxConcurrency := None |}.

(** The identifiers, verdicts and times of the list a batch returned. *)
Definition summary (reached : option Phase) : option (list (string * bool * Time)) :=
  match reached with
  | Some (Returned results) =>
      Some (map (λ e, (testCaseId e, success e, executionTime e)) results)
  | _ => None
  end.

(** The files of the loader test on [stopOnError], and one more file whose
    extension is not accepted. *)
Definition cases_directory : FileSystem :=
  λ directoryPath,
    if String.eqb directoryPath "cases"
    then inr [ {| entry_name := "a_valid1.txt";
                  entry_text := inr (two_lines "user: Hello" "assistant: Hi there") |};
               {| entry_name := "b_invalid.txt";
                  entry_text := inr "invalid: content" |};
               {| entry_name := "notes.md";
                  entry_text := inr "bogus: content" |};
               {| entry_name := "c_valid2.txt";
                  entry_text := inr (two_lines "user: How are you?" "assistant: I'm good") |} ]
    else inl (ErrorObject "Error" "ENOENT: no such file or directory").

Definition is_txt (file : string) : bool :=
  match split_marker ".txt" file with
  | Some (_, EmptyString) => true
  | _ => false
  end.

Definition a_valid1 : TestCase :=
  {| tc_id := "a_valid1"; tc_name := "a_valid1";
     messageBlocks := [plain_block USER "Hello"; plain_block ASSISTANT "Hi there"] |}.

Definition c_valid2 : TestCase :=
  {| tc_id := "c_valid2"; tc_name := "c_valid2";
     messageBlocks := [plain_block USER "How are you?"; plain_block ASSISTANT "I'm good"] |}.

Definition b_invalid_error : LoadError :=
  {| filePath := "cases/b_invalid.txt";
     load_message := invalid_role EmptyString "invalid" |}.

(** The loader of the examples; the message of its tokenizer ends after
    [human agent]. *)
Definition cases_loader : string → bool → LoadResult :=
  loadFromDirectory EmptyString is_txt cases_directory.

(** Events that take the batch over the two test cases of [cases_directory]
    to its end: the first test case passes, the agent fails on the second. *)
Definition cases_events : list Event :=
  [Advance; Advance; Advance;
   Resume 1 (ClockRead 0); Resume 0 (ClockRead 1);
   Resume 1 (AgentSettled (inl (ErrorObject "Error" "agent unavailable")));
   Resume 0 (AgentSettled (inr {| agent_response := "Hi there" |}));
   Resume 0 (ClockRead 9); Resume 1 (ClockRead 10);
   Resume 0 (ScoreSettled (inr 1%Q));
   Advance; Advance].

Definition cases_report : EvaluationReport :=
  {| totalTests := 2;
     passedTests := 1;
     failedTests := 1;
     passRate := (inject_Z 1 / inject_Z 2)%Q;
     results :=
       [ {| result_testCase := {| reported_id := "a_valid1";
                                  reported_input := "Hello";
                                  reported_expected := "Hi there" |};
            result_score := 1%Q; passed := true; result_error := None;
            result_timestamp := 2000; result_response := "Hi there" |};
         {| result_testCase := {| reported_id := "c_valid2";
                                  reported_input := "How are you?";
                                  reported_expected := "I'm good" |};
            result_score := 0%Q; passed := false;
            result_error := Some "agent unavailable";
            result_timestamp := 2000; result_response := EmptyString |} ];
     timestamp := 2000;
     duration := (inject_Z (1500 - 0) / 1000)%Q |}.

(** ** RoleMapper (core/utils/role-mapper.ts) *)

(** [String.prototype.toLowerCase] on the code units below 256: the letters
    A to Z and the capital letters of Latin-1 (192 to 222, the
    multiplication sign 215 excepted) are moved up by 32. *)
Definition lower_code (n : nat) : nat :=
  if (Nat.leb 65 n && Nat.leb n 90)
     || (Nat.leb 192 n && Nat.leb n 222 && negb (Nat.eqb n 215))
  then n + 32 else n.

Definition to_lower_char (c : ascii) : ascii :=
  ascii_of_nat (lower_code (nat_of_ascii c)).

Fixpoint toLowerCase (s : string) : string :=
  match s with
  | EmptyString => EmptyString
  | String c rest => String (to_lower_char c) (toLowerCase rest)
  end.

(** [toOpenAI(role)]. The [default] branch of the switch, which warns and
    returns [user], is for a value outside the enumeration and is not
    reached by a [MessageRole]. *)
Definition toOpenAI (r : MessageRole) : string :=
  match r with
  | USER => "user"
  | ASSISTANT | HUMAN_AGENT => "assistant"
  | DEVELOPER => "developer"
  | SYSTEM => "system"
  | TOOL | FUNCTION => "function"
  end.

(** The message of [console.warn] in the [default] branch of [toRole]; the
    role is printed as it was given, not in lower case. *)
Definition unrecognized_role (given : string) : string :=
  "Unrecognized role: " +:+ given +:+ ", defaulting to USER".

(** [toRole(role)]: the role, and the warnings written to the console. *)
Definition toRole (given : string) : MessageRole * list string :=
  let name := toLowerCase given in
  if String.eqb name "user" then (USER, [])
  else if String.eqb name "assistant" then (ASSISTANT, [])
  else if String.eqb name "system" then (SYSTEM, [])
  else if String.eqb name "function" then (TOOL, [])
  else if String.eqb name "developer" then (DEVELOPER, [])
  else (USER, [unrecognized_role given]).

(** The five role names of the OpenAI format. *)
Definition openai_roles : list string :=
  ["user"; "assistant"; "system"; "function"; "developer"].

(** ** The calls that a computation makes to its collaborators *)

Inductive Call : Type :=
| ClockCall
| AgentCall (input : AgentInput)
| ScoreCall (actual expected : string).

(** The calls made, in order, when the computation runs against [env]. *)
Fixpoint calls {W A} (env : Collaborators W) (p : Prog A) (w : W) : list Call :=
  match p with
  | Ret _ | Throw _ => []
  | PerformanceNow k =>
      let '(t, w') := clock_now env w in ClockCall :: calls env (k t) w'
  | SendInput input k =>
      let '(r, w') := agent_answer env input w in
      AgentCall input :: calls env (k r) w'
  | ScoreStrings a b k =>
      let '(r, w') := scoring_answer env a b w in
      ScoreCall a b :: calls env (k r) w'
  end.

(** The message that the agent is sent for a block: its role and its
    content, without its tool usages and tool responses. *)
Definition message_of_block (block : MessageBlock) : Message :=
  {| msg_role := role block; msg_content := content block |}.

(** The world is the clock. The agent is unavailable: its call is rejected
    after 7 ticks. *)
Definition unavailable_env : Collaborators Z :=
  {| clock_now := λ w, (w, w);
     agent_answer := λ _ w,
       (inl (ErrorObject "Error" "agent unavailable"), (w + 7)%Z);
     scoring_answer := λ a b w,
       (inr (if String.eqb a b then 1%Q else 0%Q), (w + 5)%Z) |}.

(** The world is the clock. The agent answers after 10 ticks; the scoring
    call is rejected after 5 ticks with a value that is no [Error]. *)
Definition unscored_env : Collaborators Z :=
  {| clock_now := λ w, (w, w);
     agent_answer := λ _ w, (inr {| agent_response := " hello " |}, (w + 10)%Z);
     scoring_answer := λ _ _ w, (inl OtherValue, (w + 5)%Z) |}.

(** ** The logger, and the computations that call it *)

Inductive LogLevel : Type := INFO | WARN | ERROR | DEBUG.

(** A call on the logger: the method called, the message and, where the
    call passes a second argument [{ errors }], these errors. *)
Record LogEntry : Type := {
  log_level : LogLevel;
  log_text : string;
  log_errors : option (list LoadError)
}.

(** A computation that calls the logger. It starts from the calls made on
    the logger so far and ends with the calls made by then, either on the
    value it returns or on what it throws. A call on the logger returns. *)
Definition Logging (A : Type) : Type :=
  list LogEntry → Prog ((Thrown + A) * list LogEntry).

Definition log_return {A} (a : A) : Logging A := λ log, Ret (inr a, log).

Definition log_throw {A} (e : Thrown) : Logging A := λ log, Ret (inl e, log).

Definition log_bind {A B} (m : Logging A) (f : A → Logging B) : Logging B :=
  λ log,
    bind (m log)
      (λ '(r, log'),
         match r with
         | inr a => f a log'
         | inl e => Ret (inl e, log')
         end).

(** [try { m } catch (error) { handler error }] *)
Definition log_catch {A} (m : Logging A) (handler : Thrown → Logging A) : Logging A :=
  λ log,
    bind (m log)
      (λ '(r, log'),
         match r with
         | inr a => Ret (inr a, log')
         | inl e => handler e log'
         end).

(** [await p] for a computation [p] that does not call the logger. *)
Definition log_await {A} (p : Prog A) : Logging A :=
  λ log, try_catch (bind p (λ a, Ret (inr a, log))) (λ e, Ret (inl e, log)).

Definition logger_call (entry : LogEntry) : Logging unit :=
  λ log, Ret (inr (), log ++ [entry]).

Definition logger_info (text : string) : Logging unit :=
  logger_call {| log_level := INFO; log_text := text; log_errors := None |}.

Definition logger_warn (text : string) (meta : option (list LoadError)) : Logging unit :=
  logger_call {| log_level := WARN; log_text := text; log_errors := meta |}.

Definition logger_error (text : string) : Logging unit :=
  logger_call {| log_level := ERROR; log_text := text; log_errors := None |}.

(** ** EvaluationExecutor: the sequential batch *)

(** The body of [for (const testCase of testCases)] in [executeTestCases],
    from [testCases] on; [results] is the array filled so far. *)
Fixpoint executeTestCases_loop (this : EvaluationExecutor)
    (testCases : list TestCase) (results : list TestCaseEvaluation)
  : Logging (list TestCaseEvaluation) :=
  match testCases with
  | [] => log_return results
  | testCase :: rest =>
      log_bind
        (log_catch
           (log_bind (log_await (executeTestCase this testCase))
              (λ evaluation, log_return (results ++ [evaluation])))
           (λ error,
              log_bind
                (logger_error ("Error executing test case " +:+ tc_id testCase
                               +:+ ": " +:+ message_of error))
                (λ _,
                   log_return
                     (results ++
                      [{| testCaseId := tc_id testCase;
                          success := false;
                          error := Some (message_of error);
                          score := 0%Q;
                          executionTime := 0%Z;
                          response := EmptyString;
                          testCase := testCase |}]))))
        (executeTestCases_loop this rest)
  end.

(** [executeTestCases(agent, testCases)] *)
Definition executeTestCases (this : EvaluationExecutor) (testCases : list TestCase)
  : Logging (list TestCaseEvaluation) :=
  log_catch (executeTestCases_loop this testCases [])
    (λ error,
       log_bind
         (logger_error ("Fatal error in executeTestCases: " +:+ message_of error))
         (λ _, log_throw error)).

(** [executeTestCasesFromDirectory(agent, directoryPath, stopOnError)];
    [loader] is [this.testCaseLoader.loadFromDirectory] in the file system
    of the call. *)
Definition executeTestCasesFromDirectory (this : EvaluationExecutor)
    (loader : string → bool → LoadResult)
    (directoryPath : string) (stopOnError : bool)
  : Logging (list TestCaseEvaluation) :=
  log_bind (logger_info ("Loading test cases from directory: " +:+ directoryPath))
    (λ _,
       let loadResult := loader directoryPath stopOnError in
       log_bind
         (if (0 <? length (errors loadResult))%nat
          then logger_warn
                 ("Encountered " +:+ pretty (length (errors loadResult))
                  +:+ " errors while loading test cases:")
                 (Some (errors loadResult))
          else log_return ())
         (λ _,
            if (length (testCases loadResult) =? 0)%nat
            then log_bind (logger_warn "No test cases were loaded successfully" None)
                   (λ _, log_return [])
            else
              log_bind
                (logger_info ("Successfully loaded "
                              +:+ pretty (length (testCases loadResult))
                              +:+ " test cases"))
                (λ _, executeTestCases this (testCases loadResult)))).

(** ** Notions used to state the properties of the sequential batch *)

(** [evaluations] are what [executeTestCase] returns for the test cases of
    the list, taken in order from the world [w], each in the world that
    the one before has left; [w'] is the world that the last one leaves. *)
Inductive runs_each {W} (env : Collaborators W) (this : EvaluationExecutor)
  : list TestCase → W → list TestCaseEvaluation → W → Prop :=
| runs_each_nil w : runs_each env this [] w [] w
| runs_each_cons tc tcs w evaluation w1 evaluations w2 :
    run env (executeTestCase this tc) w = (inr evaluation, w1) →
    runs_each env this tcs w1 evaluations w2 →
    runs_each env this (tc :: tcs) w (evaluation :: evaluations) w2.

Definition agent_input (c : Call) : option AgentInput :=
  match c with
  | AgentCall input => Some input
  | _ => None
  end.

(** [testCase.messageBlocks.length < 2] is false. *)
Definition has_expected (tc : TestCase) : bool :=
  negb (length (messageBlocks tc) <? 2)%nat.

(** The input that [executeTestCase] builds for the agent. *)
Definition input_of (tc : TestCase) : AgentInput :=
  {| messages := map message_of_block (slice (messageBlocks tc) 0 (-1)) |}.

(** The calls on the logger that [executeTestCasesFromDirectory] makes
    before it returns or goes on to [executeTestCases]. *)
Definition loading_log (directoryPath : string) (loadResult : LoadResult)
  : list LogEntry :=
  {| log_level := INFO;
     log_text := "Loading test cases from directory: " +:+ directoryPath;
     log_errors := None |}
  :: match errors loadResult with
     | [] => []
     | _ :: _ =>
         [{| log_level := WARN;
             log_text := "Encountered " +:+ pretty (length (errors loadResult))
                         +:+ " errors while loading test cases:";
             log_errors := Some (errors loadResult) |}]
     end
  ++ match testCases loadResult with
     | [] => [{| log_level := WARN;
                 log_text := "No test cases were loaded successfully";
                 log_errors := None |}]
     | _ :: _ =>
         [{| log_level := INFO;
             log_text := "Successfully loaded "
                         +:+ pretty (length (testCases loadResult)) +:+ " test cases";
             log_errors := None |}]
     end.

(** The evaluations of [greeting_case] and of [lonely_case] when they are
    run one after the other against [timed_env], from time 0. *)
Definition greeting_evaluation : TestCaseEvaluation :=
  {| testCaseId := "greeting";
     success := true;
     error := None;
     score := 1%Q;
     executionTime := 10%Z;
     response := " hello ";
     testCase := greeting_case |}.

Definition lonely_evaluation : TestCaseEvaluation :=
  {| testCaseId := "lonely";
     success := false;
     error := Some too_few_blocks;
     score := 0%Q;
     executionTime := 0%Z;
     response := EmptyString;
     testCase := lonely_case |}.


(** ** The batch with one test case at a time *)

(** The answers that the collaborators give to the calls of a computation,
    in the order of the calls. *)
Fixpoint answers {W A} (env : Collaborators W) (p : Prog A) (w : W) : list Settled :=
  match p with
  | Ret _ | Throw _ => []
  | PerformanceNow k =>
      let '(t, w') := clock_now env w in ClockRead t :: answers env (k t) w'
  | SendInput input k =>
      let '(r, w') := agent_answer env input w in
      AgentSettled r :: answers env (k r) w'
  | ScoreStrings a b k =>
      let '(r, w') := scoring_answer env a b w in
      ScoreSettled r :: answers env (k r) w'
  end.

(** The events of the second loop of [executeTestCasesInParallel] when every
    chunk holds one test case: the loop maps the chunk, its one promise is
    given the answers of the collaborators in the order of its calls, and
    the loop goes on once the promise is fulfilled. No other order of these
    events exists, since a single promise is pending at a time. *)
Fixpoint one_by_one {W} (env : Collaborators W) (this : EvaluationExecutor)
    (testCases : list TestCase) (w : W) : list Event :=
  match testCases with
  | [] => [Advance]
  | testCase :: rest =>
      Advance :: (Resume 0 <$> answers env (chunk_task this testCase) w)
      ++ Advance :: one_by_one env this rest (run env (chunk_task this testCase) w).2
  end.

(** The events of [executeTestCasesInParallel] with [maxConcurrency = 1]
    against given collaborators: the iterations of the first loop, one for
    each test case and the one that ends it, then the second loop. *)
Definition serial_events {W} (env : Collaborators W) (this : EvaluationExecutor)
    (testCases : list TestCase) (w : W) : list Event :=
  replicate (S (length testCases)) Advance ++ one_by_one env this testCases w.

(** An executor that runs one test case at a time. *)
Definition serial_executor : EvaluationExecutor :=
  constructor {| config_threshold := None; config_maxConcurrency := Some 1%Z |}.

(** A loader that finds [greeting_case] and [lonely_case] and no error. *)
Definition two_cases_loader : string → bool → LoadResult :=
  λ _ _, {| testCases := [greeting_case; lonely_case]; errors := [] |}.

(** * Theorems *)

(** ** The tokenizer *)

Section TranscriptProperties.
Variable more_roles : string.

Lemma classify_invalid line label :
  classify line = InvalidRoleLine label ↔
  line_label line = Some label ∧ foreign_label label.
Proof.
  unfold classify, line_label, foreign_label.
  destruct (split_colon (trimStart line)) as [[[|c l] rest]|];
    [split; [done | by intros [? _]]| |split; [done | by intros [? _]]].
  destruct (String.eqb_spec (String c l) "tool use") as [Huse|Huse].
  { split; [done|]. intros ([= <-] & _ & ? & _). done. }
  destruct (String.eqb_spec (String c l) "tool response") as [Hres|Hres].
  { split; [done|]. intros ([= <-] & _ & _ & ?). done. }
  destruct (role_of_label (String c l)) as [r|] eqn:Hrole.
  - split; [done|]. intros ([= <-] & ? & _). congruence.
  - split; [by intros [= <-] | by intros ([= <-] & _)].
Qed.

Lemma classify_role line label rest :
  classify line = RoleLine label rest →
  line_label line = Some label ∧ is_Some (role_of_label label).
Proof.
  unfold classify, line_label.
  destruct (split_colon (trimStart line)) as [[[|c l] rest']|]; [done| |done].
  destruct (String.eqb (String c l) "tool use"); [done|].
  destruct (String.eqb (String c l) "tool response"); [done|].
  destruct (role_of_label (String c l)) as [r|] eqn:Hrole; [|done].
  intros [= <- <-]. rewrite Hrole. eauto.
Qed.

Lemma scan_lines_app st lines1 lines2 :
  scan_lines more_roles st (lines1 ++ lines2) =
    match scan_lines more_roles st lines1 with
    | inr st' => scan_lines more_roles st' lines2
    | inl e => inl e
    end.
Proof.
  revert st. induction lines1 as [|line lines1 IH]; intros st; simpl; [done|].
  destruct (scan_line more_roles st line); [done | apply IH].
Qed.

Lemma scan_line_fails st line e :
  scan_line more_roles st line = inl e →
  ∃ label, classify line = InvalidRoleLine label
           ∧ e = ErrorObject "TokenizeError" (invalid_role more_roles label).
Proof.
  unfold scan_line. destruct (classify line); try done.
  - intros [= <-]. eauto.
  - by destruct (opened st) as [[]|].
Qed.

Lemma scan_lines_succeeds st lines :
  Forall (λ line, ∀ label, classify line ≠ InvalidRoleLine label) lines →
  ∃ st', scan_lines more_roles st lines = inr st'.
Proof.
  intros Hall. revert st. induction Hall as [|line lines Hline _ IH]; intros st; simpl.
  - eauto.
  - destruct (scan_line more_roles st line) as [e|st'] eqn:Hscan; [|apply IH].
    destruct (scan_line_fails _ _ _ Hscan) as (label & Hbad & _).
    by destruct (Hline label).
Qed.

(** The tokens other than content tokens are those of the lines, in order. *)
Lemma filter_header_flush st :
  List.filter is_header (flush st)
  = List.filter is_header (closed st)
    ++ match opened st with
       | Some (_, tools) => List.filter is_header tools
       | None => []
       end.
Proof.
  unfold flush. destruct (opened st) as [[text tools]|].
  - by rewrite List.filter_app.
  - by rewrite app_nil_r.
Qed.

Lemma scan_line_headers st line st' :
  scan_line more_roles st line = inr st' →
  List.filter is_header (flush st')
  = List.filter is_header (flush st) ++ option_list (line_token line).
Proof.
  unfold scan_line, line_token. rewrite !filter_header_flush.
  destruct (classify line) as [label rest|text|text|label|text]; intros Heq;
    simplify_eq; simpl.
  - rewrite List.filter_app, filter_header_flush. simpl. by rewrite app_nil_r.
  - unfold add_tool. destruct (opened st) as [[content tools]|]; simpl;
      rewrite List.filter_app; simpl; by rewrite ?app_assoc, ?app_nil_r.
  - unfold add_tool. destruct (opened st) as [[content tools]|]; simpl;
      rewrite List.filter_app; simpl; by rewrite ?app_assoc, ?app_nil_r.
  - destruct (opened st) as [[content tools]|] eqn:Hop; simplify_eq; simpl;
      by rewrite ?Hop, ?app_nil_r.
Qed.

Lemma scan_lines_headers st lines st' :
  scan_lines more_roles st lines = inr st' →
  List.filter is_header (flush st')
  = List.filter is_header (flush st) ++ omap line_token lines.
Proof.
  revert st. induction lines as [|line lines IH]; intros st Heq; simpl in *.
  - simplify_eq. by rewrite app_nil_r.
  - destruct (scan_line more_roles st line) as [e|st1] eqn:Hline; [done|].
    rewrite (IH _ Heq), (scan_line_headers _ _ _ Hline).
    rewrite <- app_assoc. f_equal. by destruct (line_token line).
Qed.

Lemma tokenize_headers text tokens :
  tokenize more_roles text = inr tokens →
  List.filter is_header tokens = omap line_token (split_lines text).
Proof.
  unfold tokenize.
  destruct (scan_lines more_roles _ _) as [e|st] eqn:Hscan; [done|]. intros [= <-].
  by rewrite (scan_lines_headers _ _ _ Hscan).
Qed.

(** The lines before the first line with a foreign label. *)
Lemma first_foreign_line lines line label :
  line ∈ lines → line_label line = Some label → foreign_label label →
  ∃ before first after offending,
    lines = before ++ first :: after
    ∧ line_label first = Some offending ∧ foreign_label offending
    ∧ Forall (λ l, ∀ label', line_label l = Some label' → ¬ foreign_label label') before.
Proof.
  intros Hin Hlabel Hforeign.
  induction Hin as [line lines|line other lines _ IH].
  - exists [], line, lines, label. do 3 (split; [done|]). constructor.
  - destruct (classify other) as [l rest|t|t|l|t] eqn:Hother.
    5:{ destruct (IH Hlabel) as (before & first & after & offending & -> & ? & ? & Hall).
        exists (other :: before), first, after, offending.
        do 3 (split; [done|]). apply Forall_cons. split; [|done].
        intros label' Hl' Hf'.
        pose proof (proj2 (classify_invalid other label') (conj Hl' Hf')). congruence. }
    4:{ apply classify_invalid in Hother as [Hl Hf].
        exists [], other, lines, l. do 3 (split; [done|]). constructor. }
    all: destruct (IH Hlabel) as (before & first & after & offending & -> & ? & ? & Hall);
      exists (other :: before), first, after, offending;
      do 3 (split; [done|]); apply Forall_cons; (split; [|done]);
      intros label' Hl' Hf';
      pose proof (proj2 (classify_invalid other label') (conj Hl' Hf')); congruence.
Qed.

Lemma tokenize_first_foreign text before line after label :
  split_lines text = before ++ line :: after →
  line_label line = Some label → foreign_label label →
  Forall (λ l, ∀ label', line_label l = Some label' → ¬ foreign_label label') before →
  tokenize more_roles text
  = inl (ErrorObject "TokenizeError" (invalid_role more_roles label)).
Proof.
  intros Hsplit Hlabel Hforeign Hbefore.
  unfold tokenize. rewrite Hsplit, scan_lines_app.
  destruct (scan_lines_succeeds {| closed := []; opened := None |} before) as [st ->].
  { eapply Forall_impl; [exact Hbefore|]. intros l Hl label' Hbad.
    apply classify_invalid in Hbad as [Hl' Hf']. by apply (Hl label'). }
  simpl. unfold scan_line.
  by rewrite (proj2 (classify_invalid line label)).
Qed.

Lemma tokenize_succeeds text :
  (∀ line label, line ∈ split_lines text → line_label line = Some label →
                 ¬ foreign_label label) →
  ∃ tokens, tokenize more_roles text = inr tokens.
Proof.
  intros Hnone. unfold tokenize.
  destruct (scan_lines_succeeds {| closed := []; opened := None |} (split_lines text))
    as [st ->]; [|by eexists].
  apply Forall_forall. intros line Hin label Hbad.
  apply classify_invalid in Hbad as [Hl Hf]. by apply (Hnone line label).
Qed.

(** A role label that is followed by further characters is no role label. *)
Lemma role_label_extended role suffix :
  is_Some (role_of_label role) → suffix ≠ EmptyString →
  role_of_label (role +:+ suffix) = None.
Proof.
  intros [r Hrole] Hsuffix. destruct suffix as [|c suffix]; [done|].
  unfold role_of_label, role_labels in Hrole. simpl in Hrole.
  repeat match type of Hrole with
         | context [String.eqb role ?l] =>
             destruct (String.eqb_spec role l) as [->|_]; [reflexivity|]
         end.
  done.
Qed.

(** C6. The label of a line is the text before its first colon, leading
    white space trimmed, when it is not empty; a label is foreign when it is
    neither one of the role labels nor one of the tool markers [tool use]
    and [tool response]. Whenever a line of the text has a foreign label,
    [tokenize] fails with the message "Invalid role: <label>. Valid roles
    are: user, assistant, human agent..." in which <label> is, verbatim, the
    foreign label of the first such line; a text without such a line is
    tokenized. A role label followed by further characters, such as
    [user123], is no role label; and when [tokenize] succeeds, every role
    token comes from a line whose whole label is a role label. *)
Theorem tokenize_rejects_foreign_labels :
  (∀ text line label,
     line ∈ split_lines text →
     line_label line = Some label →
     foreign_label label →
     ∃ before first after offending,
       split_lines text = before ++ first :: after
       ∧ line_label first = Some offending
       ∧ foreign_label offending
       ∧ Forall (λ l, ∀ label', line_label l = Some label' → ¬ foreign_label label')
                before
       ∧ tokenize more_roles text
         = inl (ErrorObject "TokenizeError"
                  ("Invalid role: " +:+ offending
                   +:+ ". Valid roles are: user, assistant, human agent"
                   +:+ more_roles)))
  ∧ (∀ text before line after label,
       split_lines text = before ++ line :: after →
       line_label line = Some label →
       foreign_label label →
       Forall (λ l, ∀ label', line_label l = Some label' → ¬ foreign_label label')
              before →
       tokenize more_roles text
       = inl (ErrorObject "TokenizeError"
                ("Invalid role: " +:+ label
                 +:+ ". Valid roles are: user, assistant, human agent"
                 +:+ more_roles)))
  ∧ (∀ text,
       (∀ line label, line ∈ split_lines text → line_label line = Some label →
                      ¬ foreign_label label) →
       ∃ tokens, tokenize more_roles text = inr tokens)
  ∧ (∀ role suffix,
       is_Some (role_of_label role) → suffix ≠ EmptyString →
       role_of_label (role +:+ suffix) = None)
  ∧ (∀ text tokens tok,
       tokenize more_roles text = inr tokens →
       tok ∈ tokens → type tok = role_token →
       ∃ line, line ∈ split_lines text
               ∧ line_label line = Some (value tok)
               ∧ is_Some (role_of_label (value tok))).
Proof.
  repeat apply conj.
  - intros text line label Hin Hlabel Hforeign.
    destruct (first_foreign_line _ _ _ Hin Hlabel Hforeign)
      as (before & first & after & offending & Hsplit & Hfirst & Hoff & Hbefore).
    exists before, first, after, offending. do 4 (split; [done|]).
    by apply (tokenize_first_foreign text before first after).
  - intros text before line after label Hsplit Hlabel Hforeign Hbefore.
    by apply (tokenize_first_foreign text before line after).
  - apply tokenize_succeeds.
  - apply role_label_extended.
  - intros text tokens tok Htok Hin Htype.
    assert (tok ∈ omap line_token (split_lines text)) as Hheader.
    { rewrite <- (tokenize_headers _ _ Htok). apply list_elem_of_In, List.filter_In.
      split; [by apply list_elem_of_In|]. unfold is_header. by rewrite Htype. }
    apply list_elem_of_omap in Hheader as (line & Hline & Hemit).
    exists line. split; [done|]. unfold line_token in Hemit.
    destruct (classify line) as [label rest| | | |] eqn:Hclass; simplify_eq/=.
    by apply (classify_role line label rest).
Qed.

(** The tests of [tokenize] in the test suite of the parser components. *)

Example tokenize_partial_role_match :
  tokenize more_roles partial_role_transcript
  = inl (ErrorObject "TokenizeError"
           ("Invalid role: user123. Valid roles are: user, assistant, human agent"
            +:+ more_roles)).
Proof. reflexivity. Qed.

Example tokenize_simple_conversation :
  tokenize more_roles (two_lines "user: Hello" (two_lines "assistant: Hi there" "user: How are you?"))
  = inr [ {| type := role_token; value := "user" |};
          {| type := content_token; value := "Hello" |};
          {| type := role_token; value := "assistant" |};
          {| type := content_token; value := "Hi there" |};
          {| type := role_token; value := "user" |};
          {| type := content_token; value := "How are you?" |} ].
Proof. reflexivity. Qed.

Example tokenize_mixed_line_endings :
  tokenize more_roles ("user: Hello" +:+ String CR (String LF "assistant: Hi there")
            +:+ String LF "user: How are you?" +:+ String CR (String LF EmptyString))
  = inr [ {| type := role_token; value := "user" |};
          {| type := content_token; value := "Hello" |};
          {| type := role_token; value := "assistant" |};
          {| type := content_token; value := "Hi there" |};
          {| type := role_token; value := "user" |};
          {| type := content_token; value := "How are you?" |} ].
Proof. reflexivity. Qed.

Example tokenize_line_starting_with_colon :
  tokenize more_roles (two_lines "user: Hello" "assistant: :This is a line starting with colon")
  = inr [ {| type := role_token; value := "user" |};
          {| type := content_token; value := "Hello" |};
          {| type := role_token; value := "assistant" |};
          {| type := content_token; value := ":This is a line starting with colon" |} ].
Proof. reflexivity. Qed.

Example tokenize_unusual_whitespace :
  tokenize more_roles (two_lines "user: Hello"
              (two_lines (String TAB "assistant: Hi there")
                 (two_lines ("user: " +:+ String TAB "How are you?")
                    (String TAB (String TAB "assistant: I'm good")))))
  = inr [ {| type := role_token; value := "user" |};
          {| type := content_token; value := "Hello" |};
          {| type := role_token; value := "assistant" |};
          {| type := content_token; value := "Hi there" |};
          {| type := role_token; value := "user" |};
          {| type := content_token; value := "How are you?" |};
          {| type := role_token; value := "assistant" |};
          {| type := content_token; value := "I'm good" |} ].
Proof. reflexivity. Qed.

Example tokenize_empty_content_and_empty_lines :
  tokenize more_roles (two_lines "user:"
              (two_lines EmptyString
                 (two_lines EmptyString
                    (two_lines "assistant: Hi there" (two_lines EmptyString "user: ")))))
  = inr [ {| type := role_token; value := "user" |};
          {| type := content_token; value := EmptyString |};
          {| type := role_token; value := "assistant" |};
          {| type := content_token; value := "Hi there" |};
          {| type := role_token; value := "user" |};
          {| type := content_token; value := EmptyString |} ].
Proof. reflexivity. Qed.

Example tokenize_tool_usage_with_unusual_whitespace :
  tokenize more_roles (two_lines "assistant: Let me check that"
              (two_lines ("tool use: search" +:+ String TAB "args: {}")
                 (String TAB (String TAB "tool response: Found results"))))
  = inr [ {| type := role_token; value := "assistant" |};
          {| type := content_token; value := "Let me check that" |};
          {| type := tool_use; value := "search" +:+ String TAB "args: {}" |};
          {| type := tool_response; value := "Found results" |} ].
Proof. reflexivity. Qed.

(** ** The parser *)

Lemma parse_tool_use_fails text e :
  parse_tool_use text = inl e → e = ErrorObject "ParseError" invalid_tool_args.
Proof.
  unfold parse_tool_use. destruct (tool_use_parts text) as [tool args].
  destruct (is_valid_json args); [done|]. by intros [= <-].
Qed.



Lemma assemble_token_fails st tok e :
  assemble_token st tok = inl e → e = ErrorObject "ParseError" invalid_tool_args.
Proof.
  unfold assemble_token. destruct (type tok); try done.
  destruct (parse_tool_use (value tok)) as [e'|usage] eqn:Hparse; [|done].
  intros [= <-]. by apply (parse_tool_use_fails (value tok)).
Qed.

Lemma assemble_fails st tokens e :
  assemble st tokens = inl e → e = ErrorObject "ParseError" invalid_tool_args.
Proof.
  revert st. induction tokens as [|tok tokens IH]; intros st; simpl; [done|].
  destruct (assemble_token st tok) as [e'|st'] eqn:Htok; [|apply IH].
  intros [= <-]. by apply (assemble_token_fails st tok).
Qed.









(** The arguments are kept as written: the spaces inside the JSON text stay. *)
Example spaced_args_kept :
  parse more_roles spaced_args_transcript "spaced"
  = inr {| parsed_name := "spaced";
           parsed_blocks :=
             [{| role := ASSISTANT;
                 content := "Let me check that";
                 toolUsages :=
                   [{| tool_name := "search";
                       tool_args := "{ " +:+ quoted "query" +:+ " :  "
                                    +:+ quoted "test" +:+ " }" |}];
                 toolResponses := [] |}] |}.
Proof. reflexivity. Qed.

(** The parser test on invalid tool arguments. *)
Example parse_invalid_tool_args :
  parse more_roles invalid_args_transcript "test-case"
  = inl (ErrorObject "ParseError" "Tool args must be valid JSON").
Proof. reflexivity. Qed.

(** Texts that [JSON.parse] accepts, and texts that it refuses. *)

Example json_accepted :
  forallb is_valid_json
    [ "{}"; "[ ]"; " [1, 2.5e-3 , -0, true,false,null] "; "0e0"; "-12.5e-10";
      quoted "a\n\u00e9\/"; "{" +:+ quoted "a" +:+ ": {" +:+ quoted "b" +:+ ":[[],{}]}}" ]
  = true.
Proof. reflexivity. Qed.

Example json_refused :
  existsb is_valid_json
    [ "invalid json"; EmptyString; "{"; "[1,]"; "{,}"; "01"; "1."; "-"; ".5"; "1e";
      "tru"; "truee"; "[1 2]"; "{a:1}"; "[}"; "1 2"; "+1"; "'a'"; "NaN";
      "{" +:+ quoted "a" +:+ "}"; "{" +:+ quoted "a" +:+ ":1,}";
      quoted "a\x"; quoted "\u12g0"; quoted ("a" +:+ String TAB "b") ]
  = false.
Proof. reflexivity. Qed.

(** The tests of [parse] in the test suite of the parser components. *)

Example parse_tool_usage_with_args_as_string :
  parse more_roles (two_lines tool_transcript "assistant: Here's what I found") "test-case"
  = inr {| parsed_name := "test-case";
           parsed_blocks :=
             [ {| role := ASSISTANT;
                  content := "Let me check that";
                  toolUsages :=
                    [{| tool_name := "search";
                        tool_args := "{" +:+ quoted "query" +:+ ": "
                                     +:+ quoted "test" +:+ "}" |}];
                  toolResponses := [{| tool_content := "Found results" |}] |};
               plain_block ASSISTANT "Here's what I found" ] |}.
Proof. reflexivity. Qed.

Example parse_invalid_role :
  parse more_roles "invalid: Hello" "test-case"
  = inl (ErrorObject "ParseError" (invalid_role more_roles "invalid")).
Proof. reflexivity. Qed.

(** ** The loader *)

Lemma load_files_all_loaded stop dir entries good loaded :
  load_file more_roles dir <$> entries = inr <$> good →
  load_files more_roles stop dir entries loaded
    = {| testCases := testCases loaded ++ good; errors := errors loaded |}.
Proof.
  revert good loaded. induction entries as [|entry entries IH];
    intros [|tc good] loaded Heq; try done.
  - simpl. rewrite app_nil_r. by destruct loaded.
  - injection Heq as Hentry Hrest. simpl.
    rewrite Hentry, (IH good) by done. simpl. by rewrite <- app_assoc.
Qed.

Lemma load_files_stops dir entries good err rest loaded :
  load_file more_roles dir <$> entries = (inr <$> good) ++ inl err :: rest →
  load_files more_roles true dir entries loaded
    = {| testCases := testCases loaded ++ good; errors := errors loaded ++ [err] |}.
Proof.
  revert good loaded. induction entries as [|entry entries IH];
    intros [|tc good] loaded Heq; try done.
  - injection Heq as Hentry Hrest. simpl. rewrite Hentry. by rewrite app_nil_r.
  - injection Heq as Hentry Hrest. simpl.
    rewrite Hentry, (IH good) by done. simpl. by rewrite <- app_assoc.
Qed.

Lemma load_files_continues dir entries loaded :
  load_files more_roles false dir entries loaded
    = {| testCases := testCases loaded ++ load_successes (load_file more_roles dir <$> entries);
         errors := errors loaded ++ load_failures (load_file more_roles dir <$> entries) |}.
Proof.
  revert loaded. induction entries as [|entry entries IH]; intros loaded; simpl.
  - rewrite !app_nil_r. by destruct loaded.
  - unfold load_successes, load_failures. simpl.
    destruct (load_file more_roles dir entry) as [err|tc]; rewrite IH; simpl;
      by rewrite <- app_assoc.
Qed.

(** The outcomes of the files either are all test cases or have a first
    error. *)
Lemma first_failure_or_none (outcomes : list (LoadError + TestCase)) :
  (∃ good, outcomes = inr <$> good)
  ∨ (∃ good err rest, outcomes = (inr <$> good) ++ inl err :: rest).
Proof.
  induction outcomes as [|[err|tc] outcomes IH].
  - left. by exists [].
  - right. by exists [], err, outcomes.
  - destruct IH as [[good ->]|(good & err & rest & ->)].
    + left. by exists (tc :: good).
    + right. by exists (tc :: good), err, rest.
Qed.

(** C8. [loadFromDirectory] returns a [LoadResult] for every directory. When
    the directory cannot be listed the result has no test case and one error,
    with the path of the directory. Otherwise, with
    [outcomes] the results of loading the accepted files in enumeration
    order: with [stopOnError = true] and a first failing file, the test cases
    are exactly those of the files before it and the errors are exactly its
    error (and when no file fails, all test cases and no error); with
    [stopOnError = false] the test cases are those of all the files that
    parsed and the errors those of all the files that failed, in order. *)
Theorem loadFromDirectory_stopOnError accepted fs directoryPath :
  match fs directoryPath with
  | inl e =>
      ∀ stopOnError,
        loadFromDirectory more_roles accepted fs directoryPath stopOnError
        = {| testCases := [];
             errors := [{| filePath := directoryPath; load_message := message_of e |}] |}
  | inr entries =>
      let outcomes :=
        load_file more_roles directoryPath
          <$> List.filter (λ entry, accepted (entry_name entry)) entries in
      (∀ good err rest,
         outcomes = (inr <$> good) ++ inl err :: rest →
         loadFromDirectory more_roles accepted fs directoryPath true
         = {| testCases := good; errors := [err] |})
      ∧ (∀ good,
           outcomes = inr <$> good →
           loadFromDirectory more_roles accepted fs directoryPath true
           = {| testCases := good; errors := [] |})
      ∧ loadFromDirectory more_roles accepted fs directoryPath false
        = {| testCases := load_successes outcomes; errors := load_failures outcomes |}
      ∧ ((∃ good, outcomes = inr <$> good)
         ∨ (∃ good err rest, outcomes = (inr <$> good) ++ inl err :: rest))
  end.
Proof.
  unfold loadFromDirectory. destruct (fs directoryPath) as [e|entries]; [done|].
  simpl. repeat apply conj.
  - intros good err rest Heq. by rewrite (load_files_stops _ _ _ _ _ _ Heq).
  - intros good Heq. by rewrite (load_files_all_loaded _ _ _ _ _ Heq).
  - by rewrite load_files_continues.
  - apply first_failure_or_none.
Qed.

End TranscriptProperties.

(** The tokenizer tests on partial role matches, for a message that ends
    after [human agent], and on tool usage. *)
Lemma tokenize_rejects_foreign_labels_witness :
  tokenize EmptyString partial_role_transcript
  = inl (ErrorObject "TokenizeError"
           "Invalid role: user123. Valid roles are: user, assistant, human agent")
  ∧ tokenize EmptyString tool_transcript
    = inr [ {| type := role_token; value := "assistant" |};
            {| type := content_token; value := "Let me check that" |};
            {| type := tool_use;
               value := "search args: {" +:+ quoted "query" +:+ ": "
                        +:+ quoted "test" +:+ "}" |};
            {| type := tool_response; value := "Found results" |} ].
Proof.
  split; [|reflexivity].
  apply (proj1 (proj2 (tokenize_rejects_foreign_labels EmptyString))
           partial_role_transcript
           ["user: Hello"] "user123: This should not be parsed as a role"
           ["assistant: Hi there"] "user123");
    [reflexivity | reflexivity | by repeat split |].
  apply Forall_singleton. intros label' [= <-] [Hnone _]. discriminate Hnone.
Defined.


(** The loader test on [stopOnError]: one valid file, then an invalid one,
    then another valid one. *)
Lemma loadFromDirectory_stopOnError_witness :
  loadFromDirectory EmptyString is_txt cases_directory "cases" true
    = {| testCases := [a_valid1]; errors := [b_invalid_error] |}
  ∧ loadFromDirectory EmptyString is_txt cases_directory "cases" false
    = {| testCases := [a_valid1; c_valid2]; errors := [b_invalid_error] |}
  ∧ loadFromDirectory EmptyString is_txt cases_directory "nowhere" true
    = {| testCases := [];
         errors := [{| filePath := "nowhere";
                       load_message := "ENOENT: no such file or directory" |}] |}.
Proof.
  pose proof (loadFromDirectory_stopOnError EmptyString is_txt cases_directory "cases") as Hcases.
  pose proof (loadFromDirectory_stopOnError EmptyString is_txt cases_directory "nowhere") as Hnowhere.
  simpl in Hcases, Hnowhere.
  destruct Hcases as (Hstop & _ & Hgo & _).
  split; [exact (Hstop [a_valid1] b_invalid_error [inr c_valid2] eq_refl)|].
  split; [exact Hgo | exact (Hnowhere true)].
Defined.

(** ** The execution of one test case *)

Lemma run_bind {W A B} (env : Collaborators W) (p : Prog A) (f : A → Prog B) w :
  run env (bind p f) w =
    match run env p w with
    | (inr a, w') => run env (f a) w'
    | (inl e, w') => (inl e, w')
    end.
Proof.
  revert w. induction p as [a|e|k IH|input k IH|a b k IH]; intros w; simpl; try done.
  - destruct (clock_now env w) as [t w']. apply IH.
  - destruct (agent_answer env input w) as [r w']. apply IH.
  - destruct (scoring_answer env a b w) as [r w']. apply IH.
Qed.

Lemma run_try_catch {W A} (env : Collaborators W) (p : Prog A) handler w :
  run env (try_catch p handler) w =
    match run env p w with
    | (inr a, w') => (inr a, w')
    | (inl e, w') => run env (handler e) w'
    end.
Proof.
  revert w. induction p as [a|e|k IH|input k IH|a b k IH]; intros w; simpl; try done.
  - destruct (clock_now env w) as [t w']. apply IH.
  - destruct (agent_answer env input w) as [r w']. apply IH.
  - destruct (scoring_answer env a b w) as [r w']. apply IH.
Qed.

(** The last element of a list of at least two blocks is defined. *)
Lemma at_index_last {A} (l : list A) :
  l ≠ [] → at_index l (Z.of_nat (length l) - 1) = last l.
Proof.
  intros Hne. unfold at_index.
  destruct (Z.ltb_spec (Z.of_nat (length l) - 1) 0) as [Hlt|Hge].
  - destruct l; [done | simpl in Hlt; lia].
  - rewrite last_lookup. f_equal. lia.
Qed.

Section Sequential.
Context {W : Type} (env : Collaborators W).

(** C1. Whatever the agent, the scoring service and the clock do,
    [executeTestCase] returns an evaluation and does not throw; the
    evaluation is that of the test case it was given, and when the test
    case has fewer than 2 message blocks it reports [success = false],
    [score = 0] and the error "Test case must have at least 2 message
    blocks: input and expected output". *)
Theorem executeTestCase_never_throws this tc w :
  ∃ evaluation w',
    run env (executeTestCase this tc) w = (inr evaluation, w')
    ∧ testCaseId evaluation = tc_id tc
    ∧ testCase evaluation = tc
    ∧ ((length (messageBlocks tc) < 2)%nat →
         success evaluation = false
         ∧ score evaluation = 0%Q
         ∧ error evaluation = Some too_few_blocks).
Proof.
  unfold executeTestCase, mbind, Prog_bind. simpl.
  destruct (clock_now env w) as [t0 w1].
  rewrite run_try_catch, run_bind.
  destruct (Z.ltb_spec (Z.of_nat (length (messageBlocks tc))) 2) as [Hlt|Hge]; simpl.
  { destruct (clock_now env w1) as [t w2]. eexists _, _. by repeat split. }
  assert (¬ (length (messageBlocks tc) < 2)%nat) as Hlong by lia.
  destruct (agent_answer env _ w1) as [[e|resp] w2]; simpl.
  { destruct (clock_now env w2) as [t w3]. by eexists _, _. }
  destruct (clock_now env w2) as [t1 w3].
  rewrite run_bind.
  destruct (at_index _ _) as [block|]; simpl.
  2:{ destruct (clock_now env w3) as [t w4]. by eexists _, _. }
  destruct (scoring_answer env _ _ w3) as [[e|sc] w4]; simpl.
  { destruct (clock_now env w4) as [t w5]. by eexists _, _. }
  by eexists _, _.
Qed.
End Sequential.

Section SequentialScoring.
Context {W : Type} (env : Collaborators W).

(** What [executeTestCase] does once the agent call has resolved: the clock
    is read, and the trimmed response is scored against the trimmed content
    of the last block. *)
Lemma run_executeTestCase_resolved this tc w t0 w1 resp w2 t1 w3 expected :
  (2 ≤ length (messageBlocks tc))%nat →
  clock_now env w = (t0, w1) →
  agent_answer env
    {| messages :=
         map (λ b, {| msg_role := role b; msg_content := content b |})
             (slice (messageBlocks tc) 0 (-1)) |} w1 = (inr resp, w2) →
  clock_now env w2 = (t1, w3) →
  last (messageBlocks tc) = Some expected →
  run env (executeTestCase this tc) w =
    match scoring_answer env (trim (agent_response resp)) (trim (content expected)) w3 with
    | (inr sc, w4) =>
        (inr {| testCaseId := tc_id tc;
                success := Qle_bool (threshold this) sc;
                error := if Qle_bool (threshold this) sc
                         then None else Some "Response mismatch";
                score := sc;
                executionTime := (t1 - t0)%Z;
                response := agent_response resp;
                testCase := tc |}, w4)
    | (inl e, w4) =>
        let '(t2, w5) := clock_now env w4 in
        (inr {| testCaseId := tc_id tc;
                success := false;
                error := Some (message_of e);
                score := 0%Q;
                executionTime := (t2 - t0)%Z;
                response := EmptyString;
                testCase := tc |}, w5)
    end.
Proof.
  intros Hlen Hstart Hagent Hnow Hlast.
  unfold executeTestCase, mbind, Prog_bind. simpl.
  rewrite Hstart, run_try_catch, run_bind.
  destruct (Z.ltb_spec (Z.of_nat (length (messageBlocks tc))) 2) as [Hlt|_];
    [lia|]. simpl.
  rewrite Hagent. simpl. rewrite Hnow, run_bind.
  rewrite at_index_last, Hlast by (intros Hnil; rewrite Hnil in Hlen; simpl in Hlen; lia).
  simpl.
  destruct (scoring_answer env _ _ w3) as [[e|sc] w4]; simpl; [|done].
  by destruct (clock_now env w4).
Qed.

(** C3. For a test case of at least 2 message blocks whose agent call and
    scoring call both succeed, the score of the evaluation is the one the
    scoring service gave for the trimmed response and the trimmed content
    of the last block, and [success] is true exactly when that score is at
    least the configured threshold, 0.7 when the configuration has none. *)
Theorem executeTestCase_success_iff_threshold
    config tc w t0 w1 resp w2 t1 w3 expected sc w4 :
  (2 ≤ length (messageBlocks tc))%nat →
  clock_now env w = (t0, w1) →
  agent_answer env
    {| messages :=
         map (λ b, {| msg_role := role b; msg_content := content b |})
             (slice (messageBlocks tc) 0 (-1)) |} w1 = (inr resp, w2) →
  clock_now env w2 = (t1, w3) →
  last (messageBlocks tc) = Some expected →
  scoring_answer env (trim (agent_response resp)) (trim (content expected)) w3
    = (inr sc, w4) →
  ∃ evaluation,
    run env (executeTestCase (constructor config) tc) w = (inr evaluation, w4)
    ∧ score evaluation = sc
    ∧ response evaluation = agent_response resp
    ∧ (success evaluation = true
       ↔ (default (7 # 10) (config_threshold config) <= sc)%Q).
Proof.
  intros Hlen Hstart Hagent Hnow Hlast Hscore.
  rewrite (run_executeTestCase_resolved _ _ _ _ _ _ _ _ _ _ Hlen Hstart Hagent Hnow Hlast).
  rewrite Hscore. eexists. split; [done|]. simpl.
  split; [done|]. split; [done|]. apply Qle_bool_iff.
Qed.

(** C4, as the code has it. For a test case of at least 2 message blocks
    whose agent call resolves, [executionTime] is the clock read right after
    the agent call minus the clock read at the start, and the scoring call
    is made after that reading, so a scoring call that succeeds is not
    counted; when the scoring call fails the clock is read again in the
    catch clause, after it. *)
Theorem executionTime_read_before_scoring
    this tc w t0 w1 resp w2 t1 w3 expected r w4 :
  (2 ≤ length (messageBlocks tc))%nat →
  clock_now env w = (t0, w1) →
  agent_answer env
    {| messages :=
         map (λ b, {| msg_role := role b; msg_content := content b |})
             (slice (messageBlocks tc) 0 (-1)) |} w1 = (inr resp, w2) →
  clock_now env w2 = (t1, w3) →
  last (messageBlocks tc) = Some expected →
  scoring_answer env (trim (agent_response resp)) (trim (content expected)) w3
    = (r, w4) →
  ∃ evaluation w',
    run env (executeTestCase this tc) w = (inr evaluation, w')
    ∧ match r with
      | inr _ => w' = w4 ∧ executionTime evaluation = (t1 - t0)%Z
      | inl _ => w' = (clock_now env w4).2
                 ∧ executionTime evaluation = ((clock_now env w4).1 - t0)%Z
      end.
Proof.
  intros Hlen Hstart Hagent Hnow Hlast Hscore.
  rewrite (run_executeTestCase_resolved _ _ _ _ _ _ _ _ _ _ Hlen Hstart Hagent Hnow Hlast).
  rewrite Hscore. destruct r as [e|sc].
  - destruct (clock_now env w4) as [t2 w5]. by eexists _, _.
  - by eexists _, _.
Qed.
End SequentialScoring.

Lemma executeTestCase_never_throws_witness :
  (length (messageBlocks lonely_case) < 2)%nat
  ∧ ∃ evaluation w',
      run timed_env (executeTestCase (constructor {| config_threshold := None;
                                                     config_maxConcurrency := None |})
                                     lonely_case) 0%Z = (inr evaluation, w')
      ∧ success evaluation = false
      ∧ score evaluation = 0%Q
      ∧ error evaluation = Some too_few_blocks.
Proof.
  split; [simpl; lia|].
  destruct (executeTestCase_never_throws timed_env
              (constructor {| config_threshold := None; config_maxConcurrency := None |})
              lonely_case 0%Z) as (evaluation & w' & Hrun & _ & _ & Hfew).
  exists evaluation, w'. split; [exact Hrun|]. apply Hfew. simpl; lia.
Defined.

Lemma executeTestCase_success_iff_threshold_witness :
  ∃ evaluation,
    run timed_env (executeTestCase (constructor {| config_threshold := None;
                                                   config_maxConcurrency := None |})
                                   greeting_case) 0%Z = (inr evaluation, 15%Z)
    ∧ score evaluation = 1%Q
    ∧ response evaluation = " hello "
    ∧ (success evaluation = true ↔ (7 # 10 <= 1)%Q).
Proof.
  apply (executeTestCase_success_iff_threshold timed_env
           {| config_threshold := None; config_maxConcurrency := None |}
           greeting_case 0%Z 0%Z 0%Z {| agent_response := " hello " |} 10%Z 10%Z 10%Z
           (plain_block ASSISTANT "hello") 1%Q 15%Z);
    first [reflexivity | simpl; lia].
Defined.

Lemma executionTime_read_before_scoring_witness :
  ∃ evaluation w',
    run timed_env (executeTestCase (constructor {| config_threshold := None;
                                                   config_maxConcurrency := None |})
                                   greeting_case) 0%Z = (inr evaluation, w')
    ∧ w' = 15%Z ∧ executionTime evaluation = (10 - 0)%Z.
Proof.
  apply (executionTime_read_before_scoring timed_env
           (constructor {| config_threshold := None; config_maxConcurrency := None |})
           greeting_case 0%Z 0%Z 0%Z {| agent_response := " hello " |} 10%Z 10%Z 10%Z
           (plain_block ASSISTANT "hello") (inr 1%Q) 15%Z);
    first [reflexivity | simpl; lia].
Defined.

(** C4 as stated fails: with an agent that takes 10 ticks and a scoring
    service that takes 5, the call spans 15 ticks and [executionTime] is 10. *)
Lemma executionTime_spans_both_calls_counterexample :
  ¬ executionTime_spans_both_calls timed_env
      (constructor {| config_threshold := None; config_maxConcurrency := None |})
      greeting_case 0%Z.
Proof.
  intros Hspan. specialize (Hspan _ _ eq_refl). simpl in Hspan. discriminate Hspan.
Qed.

(** The transcript of two lines [user: hi] and [assistant: hello], parsed and
    executed against an agent that answers hello and a scoring service that
    gives 1 to equal strings. *)
Example greeting_end_to_end more_roles :
  parse more_roles (two_lines "user: hi" "assistant: hello") "greeting"
  = inr {| parsed_name := "greeting"; parsed_blocks := messageBlocks greeting_case |}
  ∧ run timed_env (executeTestCase default_executor greeting_case) 0%Z
    = (inr {| testCaseId := "greeting";
              success := true;
              error := None;
              score := 1%Q;
              executionTime := 10;
              response := " hello ";
              testCase := greeting_case |}, 15%Z).
Proof. split; reflexivity. Qed.

(** ** Computations: what they return and how long they take *)

Lemma leaves_mono {A} (P P' : A → Prop) (Q Q' : Thrown → Prop) p :
  (∀ a, P a → P' a) → (∀ e, Q e → Q' e) → leaves P Q p → leaves P' Q' p.
Proof. intros HP HQ. induction 1; constructor; auto. Qed.

Lemma leaves_resume {A} (P : A → Prop) Q p s p' :
  leaves P Q p → resume p s = Some p' → leaves P Q p'.
Proof. destruct 1; destruct s; simpl; intros; simplify_eq; auto. Qed.

Lemma leaves_residual {A} (P : A → Prop) Q p0 p :
  leaves P Q p0 → residual p0 p → leaves P Q p.
Proof. induction 2; eauto using leaves_resume. Qed.

Lemma settles_within_resume {A} n (p : Prog A) s p' :
  settles_within n p → resume p s = Some p' →
  ∃ n', n = S n' ∧ settles_within n' p'.
Proof. destruct 1; destruct s; simpl; intros; simplify_eq; eauto. Qed.

Ltac explore_prog :=
  repeat first
    [ progress simpl
    | constructor; intros
    | match goal with
      | |- context [if ?b then _ else _] => destruct b
      | |- context [match ?x with _ => _ end] => destruct x
      end ].

(** The promise made for a test case is fulfilled, never rejected, and its
    value is an evaluation of that test case. *)
Lemma chunk_task_leaves this tc :
  leaves (λ evaluation, testCase evaluation = tc ∧ testCaseId evaluation = tc_id tc)
         (λ _, False) (chunk_task this tc).
Proof.
  unfold chunk_task, executeTestCase, mbind, Prog_bind, performance_now,
    agent_sendInput, scoringService_scoreStrings, await.
  explore_prog; auto.
Qed.

Lemma chunk_task_settles this tc : settles_within 5 (chunk_task this tc).
Proof.
  unfold chunk_task, executeTestCase, mbind, Prog_bind, performance_now,
    agent_sendInput, scoringService_scoreStrings, await.
  explore_prog.
Qed.

Lemma outcome_testCase this tc evaluation :
  outcome this tc evaluation →
  testCase evaluation = tc ∧ testCaseId evaluation = tc_id tc.
Proof.
  intros Hout.
  pose proof (leaves_residual _ _ _ _ (chunk_task_leaves this tc) Hout) as Hl.
  by inversion Hl.
Qed.

(** ** The batch: at most [maxConcurrency] promises at a time *)

Lemma slice_forward {A} (l : list A) (i k : Z) :
  (0 ≤ i)%Z → (0 ≤ k)%Z →
  slice l i (i + k) = take (Z.to_nat k) (drop (Z.to_nat i) l).
Proof.
  intros Hi Hk. unfold slice, relative_index.
  destruct (Z.ltb_spec i 0) as [?|_]; [lia|].
  destruct (Z.ltb_spec (i + k) 0) as [?|_]; [lia|].
  destruct (decide (Z.of_nat (length l) ≤ i)%Z) as [Hout|Hin].
  - rewrite !drop_ge by lia. by rewrite !take_nil.
  - replace (Z.to_nat (i `min` Z.of_nat (length l))) with (Z.to_nat i) by lia.
    destruct (decide (i + k ≤ Z.of_nat (length l))%Z).
    + f_equal. lia.
    + rewrite !take_ge; [done | rewrite length_drop; lia ..].
Qed.

Lemma steps_app this tcs k events1 events2 ph :
  steps this tcs k (events1 ++ events2) ph =
    steps this tcs k events1 ph ≫= steps this tcs k events2.
Proof.
  revert ph. induction events1 as [|ev events1 IH]; intros ph; simpl; [done|].
  destruct (step this tcs k ev ph) as [ph'|]; simpl; [apply IH | done].
Qed.

(** A property that the initial phase has and every step keeps holds of
    every phase the batch reaches. *)
Lemma steps_invariant this tcs k (I : Phase → Prop) :
  (∀ ev ph ph', I ph → step this tcs k ev ph = Some ph' → I ph') →
  ∀ events ph ph', I ph → steps this tcs k events ph = Some ph' → I ph'.
Proof.
  intros Hkeep events. induction events as [|ev events IH]; intros ph ph' HI Hrun;
    simpl in Hrun.
  - by simplify_eq.
  - destruct (step this tcs k ev ph) as [ph1|] eqn:Hstep; [|done].
    simpl in Hrun. eauto.
Qed.

Lemma within_limit_step this tcs k ev ph ph' :
  within_limit tcs k ph → step this tcs k ev ph = Some ph' → within_limit tcs k ph'.
Proof.
  intros HI Hstep.
  destruct ph as [i chunks|[|chunk pending] results|ps pending results|results|e];
    destruct ev as [|j s|j]; simpl in Hstep; try done.
  - destruct HI as [Hpos Hneg].
    destruct (Z.ltb_spec i (Z.of_nat (length tcs))) as [Hlt|Hge]; simplify_eq; simpl.
    + split.
      * intros Hk. destruct (Hpos Hk) as [Hi Hall]. split; [lia|].
        apply Forall_app. split; [done|]. apply Forall_singleton.
        rewrite slice_forward, length_take by lia. lia.
      * intros Hk. right. destruct (Hneg Hk) as [[-> ->]|[Hi Hne]].
        -- split; [lia|]. intros ->. simpl in Hlt. lia.
        -- split; [lia | done].
    + destruct (Z.ltb_spec 0 k) as [Hk|Hk].
      * destruct (Hpos Hk) as [_ Hall]. eapply Forall_impl; [done|]. simpl. lia.
      * destruct (Hneg Hk) as [[_ ->]|[Hi Hne]]; [done|].
        destruct tcs; [done | simpl in Hge; lia].
  - by simplify_eq.
  - simplify_eq. simpl in *.
    apply Forall_cons in HI as [Hchunk Hrest]. by rewrite length_map.
  - destruct HI as [Hlen Hrest].
    destruct (mapM fulfilled ps) as [chunkResults|]; simpl in Hstep; simplify_eq.
    exact Hrest.
  - destruct HI as [Hlen Hrest].
    destruct (ps !! j) as [p|]; [|done]. simpl in Hstep.
    destruct (resume p s) as [p'|]; simpl in Hstep; simplify_eq. simpl.
    by rewrite length_insert.
  - destruct (ps !! j) as [[]|]; by simplify_eq.
Qed.

(** C9. Whatever the test cases, [maxConcurrency] and the order in which the
    awaited calls settle, no phase that [executeTestCasesInParallel] reaches
    has more than [maxConcurrency] agent invocations in flight (none at all
    when [maxConcurrency] is not positive). *)
Theorem executeTestCasesInParallel_bounds_in_flight this tcs k events ph :
  executeTestCasesInParallel this tcs k events = Some ph →
  (Z.of_nat (in_flight ph) ≤ Z.max 0 k)%Z.
Proof.
  intros Hrun.
  assert (within_limit tcs k ph) as HI.
  { eapply (steps_invariant this tcs k (within_limit tcs k)); [|..|exact Hrun].
    - intros ev ph1 ph2. apply within_limit_step.
    - simpl. split; [intros _; split; [lia | done] | intros _; by left]. }
  destruct ph as [| |ps pending results| |]; simpl; try lia.
  destruct HI as [Hlen _].
  pose proof (length_filter awaits_agent ps). lia.
Qed.

Lemma executeTestCasesInParallel_bounds_in_flight_witness :
  ∃ ph,
    executeTestCasesInParallel default_executor busy_cases 2
      [Advance; Advance; Advance; Advance;
       Resume 1 (ClockRead 0); Resume 0 (ClockRead 1)] = Some ph
    ∧ in_flight ph = 2%nat
    ∧ (Z.of_nat (in_flight ph) ≤ Z.max 0 2)%Z.
Proof.
  eexists. split; [reflexivity|]. split; [reflexivity|].
  apply (executeTestCasesInParallel_bounds_in_flight default_executor busy_cases 2
           [Advance; Advance; Advance; Advance;
            Resume 1 (ClockRead 0); Resume 0 (ClockRead 1)]).
  reflexivity.
Defined.

(** ** The chunks cut by the first loop *)

Lemma consecutive_chunks_exist {A} (size : nat) (l : list A) :
  (1 ≤ size)%nat → ∃ chunks, consecutive_chunks size l chunks.
Proof.
  intros Hsize.
  assert (∃ m, (length l ≤ m * size)%nat ∧ (m = 0 ∨ ((m - 1) * size < length l)%nat))
    as (m & Hcover & Hlast).
  { induction (length l) as [|n (m & Hcover & Hlast)].
    - exists 0. split; [lia | by left].
    - destruct (decide (S n ≤ m * size)%nat).
      + exists m. split; [done|]. destruct Hlast; [left|right]; lia.
      + exists (S m). split; [lia|]. right. simpl. rewrite Nat.sub_0_r. lia. }
  exists (nth_chunk size l <$> seq 0 m), m. done.
Qed.

Lemma consecutive_chunks_lookup {A} (size : nat) (l : list A) chunks j c :
  consecutive_chunks size l chunks → chunks !! j = Some c →
  c = take size (drop (j * size) l) ∧ (j * size < length l)%nat ∧ (1 ≤ size)%nat.
Proof.
  intros (m & -> & Hcover & Hlast) Hj.
  rewrite list_lookup_fmap in Hj.
  destruct (seq 0 m !! j) as [j'|] eqn:Hseq; [|done].
  apply lookup_seq in Hseq as [-> Hlt]. simpl in Hj. simplify_eq.
  split; [done|]. destruct Hlast as [->|Hlast]; [lia|].
  assert (j * size ≤ (m - 1) * size)%nat by (apply Nat.mul_le_mono_r; lia).
  split; [lia|]. destruct size; lia.
Qed.

Lemma concat_nth_chunks {A} (size : nat) (l : list A) m :
  concat (nth_chunk size l <$> seq 0 m) = take (m * size) l.
Proof.
  induction m as [|m IH]; [done|].
  rewrite seq_S, fmap_app, concat_app, IH. simpl. rewrite app_nil_r.
  unfold nth_chunk. rewrite take_take_drop. f_equal. lia.
Qed.

Lemma consecutive_chunks_concat {A} (size : nat) (l : list A) chunks :
  consecutive_chunks size l chunks → concat chunks = l.
Proof.
  intros (m & -> & Hcover & _). rewrite concat_nth_chunks. by apply take_ge.
Qed.

Lemma consecutive_chunks_length {A} (size : nat) (l : list A) chunks j c :
  consecutive_chunks size l chunks → chunks !! j = Some c →
  (1 ≤ length c ≤ size)%nat ∧ (S j < length chunks → length c = size)%nat.
Proof.
  intros Hchunks Hj.
  destruct (consecutive_chunks_lookup _ _ _ _ _ Hchunks Hj) as (-> & Hlt & Hsize).
  rewrite length_take, length_drop. split; [lia|].
  intros Hnext. destruct (lookup_lt_is_Some_2 chunks (S j) Hnext) as [c' Hc'].
  destruct (consecutive_chunks_lookup _ _ _ _ _ Hchunks Hc') as (_ & Hlt' & _).
  simpl in Hlt'. lia.
Qed.

Lemma consecutive_chunks_count {A} (size : nat) (l : list A) chunks :
  consecutive_chunks size l chunks → (length l ≤ length chunks * size)%nat.
Proof. intros (m & -> & Hcover & _). by rewrite length_fmap, length_seq. Qed.

Lemma chunking_cuts this tcs k chunks m :
  (1 ≤ k)%Z → consecutive_chunks (Z.to_nat k) tcs chunks →
  (m ≤ length chunks)%nat →
  steps this tcs k (replicate m Advance) (Chunking 0 [])
    = Some (Chunking (Z.of_nat m * k) (take m chunks)).
Proof.
  intros Hk Hchunks. induction m as [|m IH]; intros Hm; [done|].
  rewrite replicate_S_end, steps_app, IH by lia. simpl.
  destruct (lookup_lt_is_Some_2 chunks m) as [c Hc]; [lia|].
  destruct (consecutive_chunks_lookup _ _ _ _ _ Hchunks Hc) as (-> & Hlt & _).
  destruct (Z.ltb_spec (Z.of_nat m * k) (Z.of_nat (length tcs))) as [_|Hge]; [|nia].
  rewrite slice_forward by lia. rewrite (take_S_r _ _ _ Hc).
  simpl. replace (Z.to_nat (Z.of_nat m * k)) with (m * Z.to_nat k)%nat by nia.
  do 2 f_equal. lia.
Qed.

(** ** The chunks are processed one after the other *)

Lemma sequential_step this tcs k chunks ev ph ph' :
  (1 ≤ k)%Z → consecutive_chunks (Z.to_nat k) tcs chunks →
  sequential this k chunks ph → step this tcs k ev ph = Some ph' →
  sequential this k chunks ph'.
Proof.
  intros Hk Hchunks HI Hstep.
  destruct ph as [i cut|[|chunk pending] results|ps pending results|results|e];
    destruct ev as [|j s|j]; simpl in Hstep; try done.
  - (* cutting one more chunk, or leaving the first loop *)
    destruct HI as (m & -> & Hm & ->).
    pose proof (consecutive_chunks_count _ _ _ Hchunks) as Hcount.
    destruct (Z.ltb_spec (Z.of_nat m * k) (Z.of_nat (length tcs))) as [Hlt|Hge];
      simplify_eq; simpl.
    + assert (m < length chunks)%nat as Hm' by nia.
      destruct (lookup_lt_is_Some_2 chunks m Hm') as [c Hc].
      destruct (consecutive_chunks_lookup _ _ _ _ _ Hchunks Hc) as (-> & _ & _).
      exists (S m). split; [lia|]. split; [lia|].
      rewrite (take_S_r _ _ _ Hc), slice_forward by lia.
      by replace (Z.to_nat (Z.of_nat m * k)) with (m * Z.to_nat k)%nat by nia.
    + exists []. split; [|constructor]. simpl.
      destruct (decide (m < length chunks)%nat) as [Hm'|Hm'].
      * destruct (lookup_lt_is_Some_2 chunks m Hm') as [c Hc].
        destruct (consecutive_chunks_lookup _ _ _ _ _ Hchunks Hc) as (_ & Hin & _).
        nia.
      * symmetry. apply take_ge. lia.
  - (* no chunk left *)
    destruct HI as (finished & -> & Hres). simplify_eq. simpl.
    by rewrite app_nil_r.
  - (* the promises of the next chunk are created *)
    destruct HI as (finished & -> & Hres). simplify_eq. simpl.
    exists finished, chunk. split; [done|]. split; [done|].
    apply Forall2_fmap_r, Forall_Forall2_diag, Forall_forall.
    intros tc _. simpl. constructor.
  - (* all the promises of the chunk are fulfilled *)
    destruct HI as (finished & chunk & -> & Hres & Htasks).
    destruct (mapM fulfilled ps) as [chunkResults|] eqn:Hall; simpl in Hstep;
      simplify_eq. simpl.
    exists (finished ++ [chunk]). split; [by rewrite <- app_assoc|].
    rewrite concat_app. simpl. rewrite app_nil_r.
    apply Forall2_app; [done|].
    apply mapM_Some in Hall.
    eapply Forall2_trans; [|exact Htasks|exact Hall].
    intros tc p evaluation Hp Hfull. destruct p; simpl in Hfull; simplify_eq.
    exact Hp.
  - (* one promise of the chunk gets an answer *)
    destruct HI as (finished & chunk & -> & Hres & Htasks).
    destruct (ps !! j) as [p|] eqn:Hp; [|done]. simpl in Hstep.
    destruct (resume p s) as [p'|] eqn:Hresume; simpl in Hstep; simplify_eq. simpl.
    exists finished, chunk. split; [done|]. split; [done|].
    destruct (Forall2_lookup_r _ _ _ _ _ Htasks Hp) as (tc & Htc & Hres').
    rewrite <- (list_insert_id chunk j tc Htc).
    apply Forall2_insert; [done|]. by econstructor.
  - (* no promise of the chunk is rejected *)
    destruct HI as (finished & chunk & -> & Hres & Htasks).
    destruct (ps !! j) as [[]|] eqn:Hp; simplify_eq.
    destruct (Forall2_lookup_r _ _ _ _ _ Htasks Hp) as (tc & Htc & Hres').
    pose proof (leaves_residual _ _ _ _ (chunk_task_leaves this tc) Hres') as Hl.
    by inversion Hl.
Qed.

Lemma sequential_reached this tcs k chunks events ph :
  (1 ≤ k)%Z → consecutive_chunks (Z.to_nat k) tcs chunks →
  executeTestCasesInParallel this tcs k events = Some ph →
  sequential this k chunks ph.
Proof.
  intros Hk Hchunks.
  apply (steps_invariant this tcs k (sequential this k chunks)).
  - intros ev ph1 ph2. by apply sequential_step.
  - exists 0. split; [lia|]. split; [lia | done].
Qed.

(** ** The batch returns *)

Lemma sum_list_insert (hs : list nat) j h h' :
  hs !! j = Some h → (sum_list (<[j:=h']> hs) + h = sum_list hs + h')%nat.
Proof.
  revert j. induction hs as [|x hs IH]; intros [|j] Hj; simpl in *; simplify_eq.
  - lia.
  - specialize (IH _ Hj). lia.
Qed.

Lemma cost_app chunks1 chunks2 : cost (chunks1 ++ chunks2) = (cost chunks1 + cost chunks2)%nat.
Proof. apply sum_list_with_app. Qed.

(** Every step uses up some of the potential. *)
Lemma potential_step this tcs k ev ph ph' fuel :
  (1 ≤ k)%Z → potential tcs ph fuel → step this tcs k ev ph = Some ph' →
  ∃ fuel', potential tcs ph' fuel' ∧ (fuel' < fuel)%nat.
Proof.
  intros Hk Hpot Hstep.
  destruct ph as [i cut|[|chunk pending] results|ps pending results|results|e];
    destruct ev as [|j s|j]; simpl in Hstep; try done.
  - destruct Hpot as [Hi ->].
    destruct (Z.ltb_spec i (Z.of_nat (length tcs))) as [Hlt|Hge]; simplify_eq; simpl.
    + eexists. split; [split; [lia | reflexivity]|].
      rewrite cost_app, slice_forward by lia. unfold cost at 2. simpl.
      rewrite length_take, length_drop. lia.
    + eexists. split; [reflexivity|]. lia.
  - simplify_eq. exists 0%nat. simpl in *. split; [done | lia].
  - simplify_eq. simpl in *. subst fuel.
    exists (2 + sum_list (replicate (length chunk) 5%nat) + cost pending)%nat. split.
    + eexists. split; [|reflexivity].
      apply Forall2_replicate_l; [by rewrite length_fmap|].
      apply Forall_fmap, Forall_forall. intros tc _. apply chunk_task_settles.
    + rewrite sum_list_replicate. unfold cost. simpl. lia.
  - destruct Hpot as (hs & Hhs & ->).
    destruct (mapM fulfilled ps); simpl in Hstep; simplify_eq. simpl.
    eexists. split; [reflexivity | lia].
  - destruct Hpot as (hs & Hhs & ->).
    destruct (ps !! j) as [p|] eqn:Hp; [|done]. simpl in Hstep.
    destruct (resume p s) as [p'|] eqn:Hresume; simpl in Hstep; simplify_eq. simpl.
    destruct (Forall2_lookup_r _ _ _ _ _ Hhs Hp) as (h & Hh & Hsettles).
    destruct (settles_within_resume _ _ _ _ Hsettles Hresume) as (h' & -> & Hsettles').
    exists (2 + sum_list (<[j:=h']> hs) + cost pending)%nat. split.
    + eexists. split; [|reflexivity]. by apply Forall2_insert.
    + pose proof (sum_list_insert hs j (S h') h' Hh). lia.
  - destruct Hpot as (hs & Hhs & ->).
    destruct (ps !! j) as [[]|]; simplify_eq. simpl. exists 0%nat. split; [done | lia].
Qed.

Lemma potential_steps this tcs k events ph ph' fuel :
  (1 ≤ k)%Z → potential tcs ph fuel → steps this tcs k events ph = Some ph' →
  ∃ fuel', potential tcs ph' fuel' ∧ (length events + fuel' ≤ fuel)%nat.
Proof.
  intros Hk. revert ph fuel.
  induction events as [|ev events IH]; intros ph fuel Hpot Hrun; simpl in Hrun.
  - simplify_eq. exists fuel. split; [done | simpl; lia].
  - destruct (step this tcs k ev ph) as [ph1|] eqn:Hstep; [|done]. simpl in Hrun.
    destruct (potential_step _ _ _ _ _ _ _ Hk Hpot Hstep) as (fuel1 & Hpot1 & Hlt).
    destruct (IH _ _ Hpot1 Hrun) as (fuel' & Hpot' & Hle).
    exists fuel'. split; [done | simpl; lia].
Qed.

(** A phase that has not returned can take a step: the loops run on, and a
    promise that is not settled accepts the answer it waits for. *)
Lemma sequential_progress this tcs k chunks ph :
  sequential this k chunks ph →
  (∃ results, ph = Returned results) ∨ ∃ ev ph', step this tcs k ev ph = Some ph'.
Proof.
  intros HI.
  destruct ph as [i cut|[|chunk pending] results|ps pending results|results|e];
    simpl in HI; [| | | |by left; eexists|done].
  - right. exists Advance. simpl. destruct (_ <? _)%Z; eauto.
  - right. exists Advance. simpl. eauto.
  - right. exists Advance. simpl. eauto.
  - right. destruct HI as (finished & chunk & _ & _ & Htasks).
    destruct (decide (Forall (λ p, is_Some (fulfilled p)) ps)) as [Hall|Hsome].
    + destruct (mapM_is_Some_2 fulfilled ps Hall) as [chunkResults Heq].
      exists Advance. simpl. rewrite Heq. simpl. eauto.
    + apply not_Forall_Exists in Hsome; [|apply _].
      apply Exists_exists in Hsome as (p & Hin & Hnot).
      apply list_elem_of_lookup in Hin as [j Hj].
      destruct (Forall2_lookup_r _ _ _ _ _ Htasks Hj) as (tc & _ & Hres).
      pose proof (leaves_residual _ _ _ _ (chunk_task_leaves this tc) Hres) as Hl.
      destruct p as [a|e|cont|input cont|a b cont]; simpl in Hnot.
      * destruct Hnot. eauto.
      * by inversion Hl.
      * exists (Resume j (ClockRead 0%Z)). simpl. rewrite Hj. simpl. eauto.
      * exists (Resume j (AgentSettled (inl OtherValue))). simpl. rewrite Hj. simpl. eauto.
      * exists (Resume j (ScoreSettled (inl OtherValue))). simpl. rewrite Hj. simpl. eauto.
Qed.

Lemma batch_can_return this tcs k chunks fuel ph :
  (1 ≤ k)%Z → consecutive_chunks (Z.to_nat k) tcs chunks →
  sequential this k chunks ph → potential tcs ph fuel →
  ∃ events results, steps this tcs k events ph = Some (Returned results).
Proof.
  intros Hk Hchunks. revert ph.
  induction (lt_wf fuel) as [fuel _ IH]. intros ph HI Hpot.
  destruct (sequential_progress this tcs k chunks ph HI) as [[results ->]|(ev & ph' & Hstep)].
  - by exists [], results.
  - destruct (potential_step _ _ _ _ _ _ _ Hk Hpot Hstep) as (fuel' & Hpot' & Hlt).
    destruct (IH fuel' Hlt ph') as (events & results & Hrun);
      [by eapply sequential_step | done |].
    exists (ev :: events), results. simpl. by rewrite Hstep.
Qed.

(** C2. For [maxConcurrency ≥ 1], [executeTestCasesInParallel] cuts the input
    into the consecutive chunks of [maxConcurrency] test cases (the last one
    possibly smaller, none empty); it processes them one after the other (the
    promises of a chunk exist only once the evaluations of all earlier chunks
    are in the results and before any later chunk is started); whatever the
    order in which the awaited calls settle, it cannot be rejected, it
    returns within a bounded number of events, and the list it returns has
    the length of the input, its [i]-th element being an evaluation that the
    promise made for the [i]-th test case was fulfilled with. *)
Theorem executeTestCasesInParallel_chunks_in_order this tcs k :
  (1 ≤ k)%Z →
  ∃ chunks,
    executeTestCasesInParallel this tcs k (replicate (S (length chunks)) Advance)
      = Some (NextChunk chunks [])
    ∧ concat chunks = tcs
    ∧ (∀ j c, chunks !! j = Some c →
         c = take (Z.to_nat k) (drop (j * Z.to_nat k) tcs)
         ∧ (1 ≤ length c ≤ Z.to_nat k)%nat
         ∧ (S j < length chunks → length c = Z.to_nat k)%nat)
    ∧ (∀ events ph,
         executeTestCasesInParallel this tcs k events = Some ph →
         sequential this k chunks ph)
    ∧ (∀ events results,
         executeTestCasesInParallel this tcs k events = Some (Returned results) →
         length results = length tcs
         ∧ ∀ i tc, tcs !! i = Some tc →
             ∃ evaluation,
               results !! i = Some evaluation
               ∧ outcome this tc evaluation
               ∧ testCase evaluation = tc
               ∧ testCaseId evaluation = tc_id tc)
    ∧ (∀ events ph,
         executeTestCasesInParallel this tcs k events = Some ph →
         (length events ≤ 8 * length tcs + 2)%nat
         ∧ ∃ events' results,
             executeTestCasesInParallel this tcs k (events ++ events')
               = Some (Returned results)).
Proof.
  intros Hk.
  destruct (consecutive_chunks_exist (Z.to_nat k) tcs) as [chunks Hchunks]; [lia|].
  pose proof (consecutive_chunks_count _ _ _ Hchunks) as Hcount.
  pose proof (consecutive_chunks_concat _ _ _ Hchunks) as Hconcat.
  exists chunks. repeat apply conj.
  - unfold executeTestCasesInParallel.
    rewrite replicate_S_end, steps_app.
    rewrite (chunking_cuts this tcs k chunks (length chunks) Hk Hchunks) by done.
    simpl. rewrite take_ge by done.
    destruct (Z.ltb_spec (Z.of_nat (length chunks) * k) (Z.of_nat (length tcs)));
      [nia | done].
  - done.
  - intros j c Hc.
    destruct (consecutive_chunks_lookup _ _ _ _ _ Hchunks Hc) as (-> & _ & _).
    split; [done|]. eapply consecutive_chunks_length; [exact Hchunks|].
    by rewrite Hc.
  - intros events ph. by apply (sequential_reached this tcs k chunks events ph).
  - intros events results Hrun.
    pose proof (sequential_reached _ _ _ _ _ _ Hk Hchunks Hrun) as Hres.
    simpl in Hres. rewrite Hconcat in Hres.
    split; [symmetry; by eapply Forall2_length|].
    intros i tc Hi.
    destruct (Forall2_lookup_l _ _ _ _ _ Hres Hi) as (evaluation & Hev & Hout).
    exists evaluation. split; [done|]. split; [done|].
    by apply (outcome_testCase this).
  - intros events ph Hrun.
    assert (potential tcs (Chunking 0 []) (8 * length tcs + 2)) as Hpot.
    { split; [lia|]. unfold cost. simpl. lia. }
    destruct (potential_steps _ _ _ _ _ _ _ Hk Hpot Hrun) as (fuel' & Hpot' & Hle).
    split; [lia|].
    pose proof (sequential_reached _ _ _ _ _ _ Hk Hchunks Hrun) as HI.
    destruct (batch_can_return _ _ _ _ _ _ Hk Hchunks HI Hpot')
      as (events' & results & Hrest).
    exists events', results.
    unfold executeTestCasesInParallel in *. rewrite steps_app, Hrun. exact Hrest.
Qed.

Lemma executeTestCasesInParallel_chunks_in_order_witness :
  ∃ chunks,
    executeTestCasesInParallel default_executor three_cases 2
        (replicate (S (length chunks)) Advance)
      = Some (NextChunk chunks [])
    ∧ concat chunks = three_cases
    ∧ (∀ j c, chunks !! j = Some c →
         c = take (Z.to_nat 2) (drop (j * Z.to_nat 2) three_cases)
         ∧ (1 ≤ length c ≤ Z.to_nat 2)%nat
         ∧ (S j < length chunks → length c = Z.to_nat 2)%nat)
    ∧ (∀ events ph,
         executeTestCasesInParallel default_executor three_cases 2 events = Some ph →
         sequential default_executor 2 chunks ph)
    ∧ (∀ events results,
         executeTestCasesInParallel default_executor three_cases 2 events
           = Some (Returned results) →
         length results = length three_cases
         ∧ ∀ i tc, three_cases !! i = Some tc →
             ∃ evaluation,
               results !! i = Some evaluation
               ∧ outcome default_executor tc evaluation
               ∧ testCase evaluation = tc
               ∧ testCaseId evaluation = tc_id tc)
    ∧ (∀ events ph,
         executeTestCasesInParallel default_executor three_cases 2 events = Some ph →
         (length events ≤ 8 * length three_cases + 2)%nat
         ∧ ∃ events' results,
             executeTestCasesInParallel default_executor three_cases 2 (events ++ events')
               = Some (Returned results)).
Proof.
  apply (executeTestCasesInParallel_chunks_in_order default_executor three_cases 2).
  lia.
Defined.

(** The two chunks of the example, and a run of it in which the second
    promise of the first chunk settles before the first one. *)
Example three_cases_chunks :
  executeTestCasesInParallel default_executor three_cases 2 [Advance; Advance; Advance]
  = Some (NextChunk [[greeting_case; lonely_case]; [greeting_case]] []).
Proof. reflexivity. Qed.

Example three_cases_out_of_order :
  summary (executeTestCasesInParallel default_executor three_cases 2
             [Advance; Advance; Advance; Advance;
              Resume 1 (ClockRead 0); Resume 1 (ClockRead 1);
              Resume 0 (ClockRead 2);
              Resume 0 (AgentSettled (inr {| agent_response := "hello" |}));
              Resume 0 (ClockRead 9); Resume 0 (ScoreSettled (inr 1%Q));
              Advance; Advance;
              Resume 0 (ClockRead 10); Resume 0 (AgentSettled (inl OtherValue));
              Resume 0 (ClockRead 12); Advance; Advance])
  = Some [("greeting", true, 7%Z); ("lonely", false, 1%Z); ("greeting", false, 2%Z)].
Proof. reflexivity. Qed.

(** ** What the batch returns, for every [maxConcurrency] *)

Lemma idle_step this tcs k ev ph ph' :
  (k ≤ 0)%Z → idle tcs ph → step this tcs k ev ph = Some ph' → idle tcs ph'.
Proof.
  intros Hk HI Hstep.
  destruct ph as [i cut|[|chunk pending] results|ps pending results|results|e];
    destruct ev as [|j s|j]; simpl in Hstep; try done.
  - destruct (Z.ltb_spec i (Z.of_nat (length tcs))) as [Hlt|Hge]; simplify_eq; simpl.
    + right. destruct HI as [[-> ->]|[Hi Hne]].
      * split; [lia|]. intros ->. simpl in Hlt. lia.
      * split; [lia | done].
    + destruct HI as [[-> ->]|[Hi Hne]].
      * destruct tcs; [done | simpl in Hge; lia].
      * destruct tcs; [done | simpl in Hge; lia].
  - simplify_eq. simpl in *. by destruct HI as (-> & _ & ->).
  - by destruct HI as (_ & ? & _).
Qed.

(** Whenever the batch returns, its results are the outcomes of the test
    cases, in order. *)
Lemma returned_in_order this tcs k events results :
  executeTestCasesInParallel this tcs k events = Some (Returned results) →
  Forall2 (outcome this) tcs results.
Proof.
  intros Hrun. destruct (Z.le_gt_cases k 0) as [Hk|Hk].
  - assert (idle tcs (Returned results)) as [-> ->]; [|constructor].
    eapply (steps_invariant this tcs k (idle tcs)); [|..|exact Hrun].
    + intros ev ph1 ph2. by apply idle_step.
    + by left.
  - destruct (consecutive_chunks_exist (Z.to_nat k) tcs) as [chunks Hchunks]; [lia|].
    pose proof (sequential_reached this tcs k chunks events _ ltac:(lia) Hchunks Hrun)
      as Hres.
    simpl in Hres. by rewrite (consecutive_chunks_concat _ _ _ Hchunks) in Hres.
Qed.

(** The batch is never rejected. *)
Lemma never_rejected this tcs k events e :
  executeTestCasesInParallel this tcs k events ≠ Some (Rejected e).
Proof.
  intros Hrun. destruct (Z.le_gt_cases k 0) as [Hk|Hk].
  - assert (idle tcs (Rejected e)) as []. 
    eapply (steps_invariant this tcs k (idle tcs)); [|..|exact Hrun].
    + intros ev ph1 ph2. by apply idle_step.
    + by left.
  - destruct (consecutive_chunks_exist (Z.to_nat k) tcs) as [chunks Hchunks]; [lia|].
    exact (sequential_reached this tcs k chunks events _ ltac:(lia) Hchunks Hrun).
Qed.

(** For [maxConcurrency ≥ 1] some sequence of events makes the batch return. *)
Lemma batch_returns this tcs k :
  (1 ≤ k)%Z →
  ∃ events results,
    executeTestCasesInParallel this tcs k events = Some (Returned results).
Proof.
  intros Hk.
  destruct (consecutive_chunks_exist (Z.to_nat k) tcs) as [chunks Hchunks]; [lia|].
  apply (batch_can_return this tcs k chunks (8 * length tcs + 2)); [done..| |].
  - exists 0%nat. split; [lia|]. split; [lia | done].
  - split; [lia|]. unfold cost. simpl. lia.
Qed.

(** ** The report *)

(** A test case without blocks is evaluated, and fails its validation, but
    the report cannot be made: the projection of its evaluation reads the
    content of a last block that does not exist. *)
Example blank_case_is_not_reported :
  evaluateFromDirectory default_executor
    (λ _ _, {| testCases := [blank_case]; errors := [] |}) "cases" true
    [Advance; Advance; Advance;
     Resume 0 (ClockRead 0); Resume 0 (ClockRead 1);
     Advance; Advance] 0 1500 2000
  = Failed content_of_undefined.
Proof. reflexivity. Qed.

(** A run over the two test cases that load from the example directory. *)
Example cases_run :
  evaluateFromDirectory default_executor cases_loader "cases" false
    cases_events 0 1500 2000
  = Fulfilled cases_report.
Proof. reflexivity. Qed.

Lemma report_results_success date evaluations reported :
  report_results date evaluations = inr reported →
  Forall2 (λ evaluation r,
             passed r = success evaluation
             ∧ reported_id (result_testCase r) = testCaseId evaluation)
          evaluations reported.
Proof.
  revert reported. induction evaluations as [|evaluation evaluations IH];
    intros reported Heq; simpl in Heq.
  - simplify_eq. constructor.
  - unfold report_result in Heq.
    destruct (at_index _ _) as [expected|]; [|done].
    destruct (report_results date evaluations) as [e|rs]; [done|].
    simplify_eq. constructor; [done | by apply IH].
Qed.

Lemma report_results_defined date evaluations :
  Forall (λ evaluation, messageBlocks (testCase evaluation) ≠ []) evaluations →
  ∃ reported, report_results date evaluations = inr reported.
Proof.
  induction 1 as [|evaluation evaluations Hne _ [reported IH]]; simpl.
  - by eexists.
  - unfold report_result. rewrite at_index_last by done.
    destruct (last (messageBlocks (testCase evaluation))) as [expected|] eqn:Hlast.
    + rewrite IH. by eexists.
    + apply last_None in Hlast. done.
Qed.

Lemma count_passed evaluations reported :
  Forall2 (λ evaluation r,
             passed r = success evaluation
             ∧ reported_id (result_testCase r) = testCaseId evaluation)
          evaluations reported →
  length (List.filter passed reported) = length (List.filter success evaluations).
Proof.
  induction 1 as [|evaluation r evaluations reported [Hp _] _ IH]; [done|].
  simpl. rewrite Hp. destruct (success evaluation); simpl; by rewrite IH.
Qed.

Lemma filter_length_le {A} (f : A → bool) l :
  (length (List.filter f l) ≤ length l)%nat.
Proof. induction l as [|x l IH]; simpl; [done|]. destruct (f x); simpl; lia. Qed.

Lemma outcomes_keep_blocks this tcs evaluations :
  Forall2 (outcome this) tcs evaluations →
  Forall (λ tc, messageBlocks tc ≠ []) tcs →
  Forall (λ evaluation, messageBlocks (testCase evaluation) ≠ []) evaluations.
Proof.
  induction 1 as [|tc evaluation tcs evaluations Hev _ IH]; intros Hblocks;
    [constructor|].
  apply Forall_cons in Hblocks as [Hne Hblocks].
  constructor; [|by apply IH].
  by destruct (outcome_testCase _ _ _ Hev) as [-> _].
Qed.

Lemma make_report_total startTime endTime date evaluations report :
  make_report startTime endTime date evaluations = inr report →
  totalTests report = Z.of_nat (length evaluations)
  ∧ Forall2 (λ evaluation r,
               passed r = success evaluation
               ∧ reported_id (result_testCase r) = testCaseId evaluation)
            evaluations (results report).
Proof.
  unfold make_report. intros Heq.
  destruct (report_results date evaluations) as [e|reported] eqn:Hrep; [done|].
  injection Heq as <-. simpl. split; [done|]. by apply (report_results_success date).
Qed.

(** C5. Every report that [evaluateFromDirectory] produces has
    [totalTests] the number of results, [passedTests] the number of results
    with [success = true] (which is also the number of entries of the report
    that passed), [failedTests = totalTests - passedTests], and [passRate]
    the quotient [passedTests / totalTests] when [totalTests > 0] and 0
    otherwise. A report is produced, for some order of the events, whenever
    [maxConcurrency ≥ 1] and every loaded test case has a message block. *)
Theorem evaluateFromDirectory_report_counts
    this loader directoryPath stopOnError startTime endTime date :
  (∀ events report,
     evaluateFromDirectory this loader directoryPath stopOnError
       events startTime endTime date = Fulfilled report →
     ∃ evaluations,
       executeTestCasesInParallel this (testCases (loader directoryPath stopOnError))
         (maxConcurrency this) events = Some (Returned evaluations)
       ∧ totalTests report = Z.of_nat (length evaluations)
       ∧ totalTests report = Z.of_nat (length (results report))
       ∧ passedTests report = Z.of_nat (length (List.filter success evaluations))
       ∧ passedTests report = Z.of_nat (length (List.filter passed (results report)))
       ∧ failedTests report = (totalTests report - passedTests report)%Z
       ∧ (0 ≤ passedTests report ≤ totalTests report)%Z
       ∧ passRate report =
           if (0 <? totalTests report)%Z
           then (inject_Z (passedTests report) / inject_Z (totalTests report))%Q
           else 0%Q)
  ∧ ((1 ≤ maxConcurrency this)%Z →
     Forall (λ tc, messageBlocks tc ≠ []) (testCases (loader directoryPath stopOnError)) →
     ∃ events report,
       evaluateFromDirectory this loader directoryPath stopOnError
         events startTime endTime date = Fulfilled report).
Proof.
  split.
  - intros events report Hrun. unfold evaluateFromDirectory in Hrun.
    destruct (executeTestCasesInParallel _ _ _ _) as [[| | |evaluations|]|]; try done.
    unfold make_report in Hrun.
    destruct (report_results date evaluations) as [e|reported] eqn:Hrep; [done|].
    pose proof (report_results_success _ _ _ Hrep) as Hall.
    pose proof (Forall2_length _ _ _ Hall) as Hlen.
    pose proof (count_passed _ _ Hall) as Hcount.
    pose proof (filter_length_le success evaluations) as Hle.
    injection Hrun as <-. simpl.
    exists evaluations. rewrite Hcount, Hlen. repeat split; try done; lia.
  - intros Hk Hblocks.
    destruct (batch_returns this (testCases (loader directoryPath stopOnError))
                (maxConcurrency this) Hk) as (events & evaluations & Hrun).
    pose proof (returned_in_order _ _ _ _ _ Hrun) as Hout.
    destruct (report_results_defined date evaluations) as [reported Hrep].
    { by eapply outcomes_keep_blocks. }
    exists events. unfold evaluateFromDirectory, make_report. rewrite Hrun, Hrep.
    by eexists.
Qed.

Lemma evaluateFromDirectory_report_counts_witness :
  ∃ evaluations,
    executeTestCasesInParallel default_executor (testCases (cases_loader "cases" false))
      (maxConcurrency default_executor) cases_events = Some (Returned evaluations)
    ∧ totalTests cases_report = Z.of_nat (length evaluations)
    ∧ totalTests cases_report = Z.of_nat (length (results cases_report))
    ∧ passedTests cases_report = Z.of_nat (length (List.filter success evaluations))
    ∧ passedTests cases_report
      = Z.of_nat (length (List.filter passed (results cases_report)))
    ∧ failedTests cases_report = (totalTests cases_report - passedTests cases_report)%Z
    ∧ (0 ≤ passedTests cases_report ≤ totalTests cases_report)%Z
    ∧ passRate cases_report =
        if (0 <? totalTests cases_report)%Z
        then (inject_Z (passedTests cases_report) / inject_Z (totalTests cases_report))%Q
        else 0%Q.
Proof.
  apply (proj1 (evaluateFromDirectory_report_counts default_executor cases_loader
                  "cases" false 0 1500 2000) cases_events cases_report).
  reflexivity.
Defined.

(** C10. [evaluateFromDirectory] reads what the loader returns through its
    test cases only. For [maxConcurrency ≥ 1] and loaded test cases that
    all have a message block, a report is produced whatever errors the
    loader returned, and the same run with these errors replaced by any
    others produces the same report. Every report that is produced, for any
    order of events, has [totalTests] the number of loaded test cases and
    one entry for each of them, in their order: no count and no entry
    stands for a file that failed to load. Two loaders that return the same
    test cases give the same outcome; and when no test case was loaded, as
    for a directory that does not exist, the report is the empty one, with
    [totalTests = 0] and [passRate = 0]. *)
Theorem evaluateFromDirectory_ignores_load_errors
    this directoryPath stopOnError startTime endTime date :
  (∀ loader,
     (1 ≤ maxConcurrency this)%Z →
     Forall (λ tc, messageBlocks tc ≠ []) (testCases (loader directoryPath stopOnError)) →
     ∃ events report,
       evaluateFromDirectory this loader directoryPath stopOnError
         events startTime endTime date = Fulfilled report
       ∧ totalTests report
         = Z.of_nat (length (testCases (loader directoryPath stopOnError)))
       ∧ Forall2 (λ tc r, reported_id (result_testCase r) = tc_id tc)
                 (testCases (loader directoryPath stopOnError)) (results report)
       ∧ ∀ others,
           evaluateFromDirectory this
             (λ _ _, {| testCases := testCases (loader directoryPath stopOnError);
                        errors := others |})
             directoryPath stopOnError events startTime endTime date
           = Fulfilled report)
  ∧ (∀ loader events report,
       evaluateFromDirectory this loader directoryPath stopOnError
         events startTime endTime date = Fulfilled report →
       totalTests report
         = Z.of_nat (length (testCases (loader directoryPath stopOnError)))
       ∧ Forall2 (λ tc r, reported_id (result_testCase r) = tc_id tc)
                 (testCases (loader directoryPath stopOnError)) (results report))
  ∧ (∀ loader loader' events,
       testCases (loader directoryPath stopOnError)
         = testCases (loader' directoryPath stopOnError) →
       evaluateFromDirectory this loader directoryPath stopOnError
         events startTime endTime date
       = evaluateFromDirectory this loader' directoryPath stopOnError
           events startTime endTime date)
  ∧ (∀ loader,
       testCases (loader directoryPath stopOnError) = [] →
       evaluateFromDirectory this loader directoryPath stopOnError
         [Advance; Advance] startTime endTime date
         = Fulfilled (empty_report startTime endTime date)
       ∧ ∀ events report,
           evaluateFromDirectory this loader directoryPath stopOnError
             events startTime endTime date = Fulfilled report →
           report = empty_report startTime endTime date)
  ∧ (∀ more_roles accepted fs e,
       fs directoryPath = inl e →
       loadFromDirectory more_roles accepted fs directoryPath stopOnError
       = {| testCases := [];
            errors := [{| filePath := directoryPath;
                          load_message := message_of e |}] |}).
Proof.
  assert (∀ loader events report,
            evaluateFromDirectory this loader directoryPath stopOnError
              events startTime endTime date = Fulfilled report →
            totalTests report
              = Z.of_nat (length (testCases (loader directoryPath stopOnError)))
            ∧ Forall2 (λ tc r, reported_id (result_testCase r) = tc_id tc)
                      (testCases (loader directoryPath stopOnError)) (results report))
    as Hevery.
  { intros loader events report Hrun. unfold evaluateFromDirectory in Hrun.
    destruct (executeTestCasesInParallel _ _ _ _) as [[| | |evaluations|]|] eqn:Hbatch;
      try done.
    destruct (make_report _ _ _ _) as [e|report'] eqn:Hrep; [done|].
    injection Hrun as ->.
    destruct (make_report_total _ _ _ _ _ Hrep) as [Htotal Hreported].
    pose proof (returned_in_order _ _ _ _ _ Hbatch) as Hout.
    split; [by rewrite Htotal, (Forall2_length _ _ _ Hout)|].
    eapply Forall2_trans; [|exact Hout|exact Hreported].
    intros tc evaluation r Hev [_ ->].
    by destruct (outcome_testCase _ _ _ Hev) as [_ ->]. }
  repeat apply conj.
  - intros loader Hk Hblocks.
    destruct (batch_returns this (testCases (loader directoryPath stopOnError))
                (maxConcurrency this) Hk) as (events & evaluations & Hrun).
    pose proof (returned_in_order _ _ _ _ _ Hrun) as Hout.
    destruct (report_results_defined date evaluations) as [reported Hrep].
    { by eapply outcomes_keep_blocks. }
    assert (∃ report,
              evaluateFromDirectory this loader directoryPath stopOnError
                events startTime endTime date = Fulfilled report)
      as [report Hreport].
    { unfold evaluateFromDirectory, make_report. rewrite Hrun, Hrep. by eexists. }
    exists events, report.
    destruct (Hevery loader events report Hreport) as [Htotal Hentries].
    do 3 (split; [done|]).
    intros others. rewrite <- Hreport. by unfold evaluateFromDirectory.
  - exact Hevery.
  - intros loader loader' events Heq. unfold evaluateFromDirectory. by rewrite Heq.
  - intros loader Hnone. split.
    + unfold evaluateFromDirectory. by rewrite Hnone.
    + intros events report Hrun. unfold evaluateFromDirectory in Hrun.
      destruct (executeTestCasesInParallel _ _ _ _) as [[| | |evaluations|]|] eqn:Hbatch;
        try done.
      pose proof (returned_in_order _ _ _ _ _ Hbatch) as Hout.
      rewrite Hnone in Hout. inversion Hout; subst.
      by injection Hrun as <-.
  - intros more_roles accepted fs e Hfs. unfold loadFromDirectory. by rewrite Hfs.
Qed.

(** The directory [cases] holds two files that load and, with
    [stopOnError = false], one that fails; the directory [nowhere] does not
    exist. *)
Lemma evaluateFromDirectory_ignores_load_errors_witness :
  cases_loader "cases" false
    = {| testCases := [a_valid1; c_valid2]; errors := [b_invalid_error] |}
  ∧ evaluateFromDirectory default_executor cases_loader "cases" false
      cases_events 0 1500 2000
    = Fulfilled cases_report
  ∧ totalTests cases_report = 2%Z
  ∧ totalTests cases_report
    = Z.of_nat (length (testCases (cases_loader "cases" false)))
  ∧ Forall2 (λ tc r, reported_id (result_testCase r) = tc_id tc)
            (testCases (cases_loader "cases" false)) (results cases_report)
  ∧ loadFromDirectory EmptyString is_txt cases_directory "nowhere" true
    = {| testCases := [];
         errors := [{| filePath := "nowhere";
                       load_message := "ENOENT: no such file or directory" |}] |}
  ∧ evaluateFromDirectory default_executor
      (loadFromDirectory EmptyString is_txt cases_directory)
      "nowhere" true [Advance; Advance] 0 1500 2000
    = Fulfilled (empty_report 0 1500 2000).
Proof.
  destruct (evaluateFromDirectory_ignores_load_errors default_executor
              "cases" false 0 1500 2000) as (_ & Hevery & _).
  destruct (evaluateFromDirectory_ignores_load_errors default_executor
              "nowhere" true 0 1500 2000) as (_ & _ & _ & Hnone & Hmissing).
  assert (evaluateFromDirectory default_executor cases_loader "cases" false
            cases_events 0 1500 2000 = Fulfilled cases_report) as Hrun
    by reflexivity.
  destruct (Hevery cases_loader cases_events cases_report Hrun) as [Htotal Hentries].
  split; [reflexivity|]. split; [exact Hrun|]. split; [reflexivity|].
  split; [exact Htotal|]. split; [exact Hentries|]. split.
  - exact (Hmissing EmptyString is_txt cases_directory _ eq_refl).
  - exact (proj1 (Hnone (loadFromDirectory EmptyString is_txt cases_directory) eq_refl)).
Defined.

(** ** The role mapper *)

Lemma toLowerCase_openai_role name :
  name ∈ openai_roles → toLowerCase name = name.
Proof.
  unfold openai_roles. rewrite !elem_of_cons, elem_of_nil.
  intros [->|[->|[->|[->|[->|[]]]]]]; reflexivity.
Qed.

Lemma to_lower_char_idempotent c :
  to_lower_char (to_lower_char c) = to_lower_char c.
Proof. destruct c as [[] [] [] [] [] [] [] []]; reflexivity. Qed.

Lemma toLowerCase_idempotent s : toLowerCase (toLowerCase s) = toLowerCase s.
Proof.
  induction s as [|c s IH]; simpl; [done|].
  by rewrite to_lower_char_idempotent, IH.
Qed.

(** X1. Mapping a role to the OpenAI format and back gives the role again,
    without a warning, for every role but two: [HUMAN_AGENT] comes back as
    [ASSISTANT] and [FUNCTION] comes back as [TOOL]. A second trip changes
    nothing more. *)
Theorem toRole_toOpenAI r :
  toRole (toOpenAI r)
  = (match r with
     | HUMAN_AGENT => ASSISTANT
     | FUNCTION => TOOL
     | _ => r
     end, [])
  ∧ ((toRole (toOpenAI r)).1 = r ↔ r ≠ HUMAN_AGENT ∧ r ≠ FUNCTION)
  ∧ toOpenAI (toRole (toOpenAI r)).1 = toOpenAI r.
Proof.
  destruct r; (split; [reflexivity|]); (split; [|reflexivity]); simpl;
    split; try done; intros [? ?]; done.
Qed.

(** X2. [toRole] reads the name of a role whatever its case. When the name
    in lower case is one of the five names of the OpenAI format, no warning
    is written and mapping the role back gives that name in lower case.
    Otherwise the role is [USER] and exactly one warning is written, which
    quotes the name as it was given. In no case is the role [HUMAN_AGENT] or
    [FUNCTION]. *)
Theorem toRole_recognizes given :
  (toLowerCase given ∈ openai_roles →
     (toRole given).2 = [] ∧ toOpenAI (toRole given).1 = toLowerCase given)
  ∧ (toLowerCase given ∉ openai_roles →
       toRole given = (USER, [unrecognized_role given]))
  ∧ (toRole given).1 ≠ HUMAN_AGENT ∧ (toRole given).1 ≠ FUNCTION
  ∧ (toRole (toLowerCase given)).1 = (toRole given).1.
Proof.
  unfold toRole. rewrite toLowerCase_idempotent.
  unfold openai_roles. rewrite !elem_of_cons, elem_of_nil.
  destruct (String.eqb_spec (toLowerCase given) "user") as [->|Huser];
    [split; [intros _; by split | split; [intros Hnot; destruct Hnot; auto 10 | done]]|].
  destruct (String.eqb_spec (toLowerCase given) "assistant") as [->|Hassistant];
    [split; [intros _; by split | split; [intros Hnot; destruct Hnot; auto 10 | done]]|].
  destruct (String.eqb_spec (toLowerCase given) "system") as [->|Hsystem];
    [split; [intros _; by split | split; [intros Hnot; destruct Hnot; auto 10 | done]]|].
  destruct (String.eqb_spec (toLowerCase given) "function") as [->|Hfunction];
    [split; [intros _; by split | split; [intros Hnot; destruct Hnot; auto 10 | done]]|].
  destruct (String.eqb_spec (toLowerCase given) "developer") as [->|Hdeveloper];
    [split; [intros _; by split | split; [intros Hnot; destruct Hnot; auto 10 | done]]|].
  split; [|by split].
  intros [?|[?|[?|[?|[?|[]]]]]]; done.
Qed.

(** ** More on the execution of one test case *)

Lemma calls_bind {W A B} (env : Collaborators W) (p : Prog A) (f : A → Prog B) w :
  calls env (bind p f) w =
    calls env p w
    ++ match run env p w with
       | (inr a, w') => calls env (f a) w'
       | (inl _, _) => []
       end.
Proof.
  revert w. induction p as [a|e|k IH|input k IH|a b k IH]; intros w; simpl; try done.
  - destruct (clock_now env w) as [t w']. by rewrite IH.
  - destruct (agent_answer env input w) as [r w']. by rewrite IH.
  - destruct (scoring_answer env a b w) as [r w']. by rewrite IH.
Qed.

Lemma calls_try_catch {W A} (env : Collaborators W) (p : Prog A) handler w :
  calls env (try_catch p handler) w =
    calls env p w
    ++ match run env p w with
       | (inr _, _) => []
       | (inl e, w') => calls env (handler e) w'
       end.
Proof.
  revert w. induction p as [a|e|k IH|input k IH|a b k IH]; intros w; simpl; try done.
  - destruct (clock_now env w) as [t w']. by rewrite IH.
  - destruct (agent_answer env input w) as [r w']. by rewrite IH.
  - destruct (scoring_answer env a b w) as [r w']. by rewrite IH.
Qed.

Lemma slice_all_but_last {A} (l : list A) x :
  slice (l ++ [x]) 0 (-1) = l.
Proof.
  unfold slice, relative_index.
  change (0 <? 0)%Z with false. change (-1 <? 0)%Z with true. cbv iota.
  rewrite length_app. simpl length.
  replace (Z.to_nat (0 `min` Z.of_nat (length l + 1))) with 0%nat by lia.
  replace (Z.to_nat _) with (length l) by lia.
  rewrite drop_0. apply take_app_length.
Qed.

(** No agent call is left among clock and scoring calls. *)
Ltac find_call Hin :=
  repeat (apply elem_of_cons in Hin as [Hin|Hin]; [discriminate Hin|]);
  apply elem_of_nil in Hin.

Section SequentialPaths.
Context {W : Type} (env : Collaborators W).

(** X3. [executeTestCase] reads the clock first. With fewer than 2 message
    blocks it calls neither the agent nor the scoring service, and reads the
    clock once more. Otherwise it calls the agent exactly once; when that
    call is rejected it never calls the scoring service; when it resolves it
    reads the clock and then calls the scoring service exactly once, on the
    trimmed response and the trimmed content of the last block, and reads the
    clock again only if the scoring call is rejected. *)
Theorem executeTestCase_calls this tc w :
  let input := {| messages := map message_of_block (slice (messageBlocks tc) 0 (-1)) |} in
  let w1 := (clock_now env w).2 in
  calls env (executeTestCase this tc) w =
    if (length (messageBlocks tc) <? 2)%nat
    then [ClockCall; ClockCall]
    else
      ClockCall :: AgentCall input ::
      match agent_answer env input w1 with
      | (inl _, _) => [ClockCall]
      | (inr resp, w2) =>
          ClockCall ::
          match last (messageBlocks tc) with
          | None => [ClockCall]
          | Some expected =>
              let actual := trim (agent_response resp) in
              ScoreCall actual (trim (content expected)) ::
              match scoring_answer env actual (trim (content expected))
                      (clock_now env w2).2 with
              | (inl _, _) => [ClockCall]
              | (inr _, _) => []
              end
          end
      end.
Proof.
  unfold executeTestCase, mbind, Prog_bind. simpl.
  destruct (clock_now env w) as [t0 w1]. simpl.
  rewrite calls_try_catch, run_bind, calls_bind.
  destruct (Nat.ltb_spec (length (messageBlocks tc)) 2) as [Hlt|Hge].
  { destruct (Z.ltb_spec (Z.of_nat (length (messageBlocks tc))) 2) as [_|?]; [|lia].
    simpl. by destruct (clock_now env w1). }
  destruct (Z.ltb_spec (Z.of_nat (length (messageBlocks tc))) 2) as [?|_]; [lia|].
  simpl. destruct (agent_answer env _ w1) as [[e|resp] w2]; simpl.
  { by destruct (clock_now env w2). }
  destruct (clock_now env w2) as [t1 w3]. simpl.
  rewrite calls_bind, run_bind.
  rewrite at_index_last by (intros Hnil; rewrite Hnil in Hge; simpl in Hge; lia).
  destruct (last (messageBlocks tc)) as [expected|]; simpl.
  2:{ by destruct (clock_now env w3). }
  destruct (scoring_answer env _ _ w3) as [[e|sc] w4]; simpl; [|done].
  by destruct (clock_now env w4).
Qed.

(** X4. When the message blocks of a test case are [blocks] followed by one
    last block, and [blocks] is not empty, the agent is sent the roles and
    contents of [blocks], in order and nothing else: the last block is kept
    back as the expected answer. *)
Theorem executeTestCase_input this tc w blocks expected :
  messageBlocks tc = blocks ++ [expected] → blocks ≠ [] →
  AgentCall {| messages := map message_of_block blocks |}
    ∈ calls env (executeTestCase this tc) w
  ∧ ∀ input, AgentCall input ∈ calls env (executeTestCase this tc) w →
             messages input = map message_of_block blocks.
Proof.
  intros Hblocks Hne.
  assert (2 ≤ length (messageBlocks tc))%nat as Hlen.
  { rewrite Hblocks, length_app. simpl. destruct blocks; [done | simpl; lia]. }
  unfold executeTestCase, mbind, Prog_bind. simpl.
  destruct (clock_now env w) as [t0 w1].
  rewrite calls_try_catch, run_bind, calls_bind.
  destruct (Z.ltb_spec (Z.of_nat (length (messageBlocks tc))) 2) as [?|_]; [lia|].
  simpl. rewrite Hblocks, slice_all_but_last.
  destruct (agent_answer env _ w1) as [r w2].
  split.
  { apply elem_of_cons; right. apply elem_of_app; left.
    apply elem_of_cons; left. reflexivity. }
  intros input Hin.
  apply elem_of_cons in Hin as [?|Hin]; [done|].
  apply elem_of_cons in Hin as [[= ->]|Hin]; [done|].
  apply elem_of_app in Hin as [Hin|Hin].
  - destruct r as [e|resp]; simpl in Hin; [by find_call Hin|].
    destruct (clock_now env w2) as [t1 w3].
    destruct (at_index _ _); simpl in Hin; [|by find_call Hin].
    destruct (scoring_answer env _ _ w3) as [[e|sc] w4]; by find_call Hin.
  - destruct r as [e|resp]; simpl in Hin.
    { destruct (clock_now env w2). by find_call Hin. }
    destruct (clock_now env w2) as [t1 w3].
    destruct (at_index _ _); simpl in Hin.
    2:{ destruct (clock_now env w3). by find_call Hin. }
    destruct (scoring_answer env _ _ w3) as [[e|sc] w4]; simpl in Hin;
      [|by find_call Hin].
    destruct (clock_now env w4). by find_call Hin.
Qed.

(** X5. When the agent call of a test case of at least 2 blocks is rejected,
    the rejection is not passed on: the evaluation has [success = false],
    [score = 0], an empty [response], the message of the error (or
    "Unknown error" when what was thrown is no [Error]) and, as
    [executionTime], the time from the start to the catch clause. *)
Theorem executeTestCase_agent_failure this tc w t0 w1 e w2 t w3 :
  (2 ≤ length (messageBlocks tc))%nat →
  clock_now env w = (t0, w1) →
  agent_answer env
    {| messages := map message_of_block (slice (messageBlocks tc) 0 (-1)) |} w1
    = (inl e, w2) →
  clock_now env w2 = (t, w3) →
  run env (executeTestCase this tc) w
  = (inr {| testCaseId := tc_id tc;
            success := false;
            error := Some (message_of e);
            score := 0%Q;
            executionTime := (t - t0)%Z;
            response := EmptyString;
            testCase := tc |}, w3).
Proof.
  intros Hlen Hstart Hagent Hcatch.
  unfold executeTestCase, mbind, Prog_bind. simpl.
  rewrite Hstart, run_try_catch, run_bind.
  destruct (Z.ltb_spec (Z.of_nat (length (messageBlocks tc))) 2) as [?|_]; [lia|].
  simpl. unfold message_of_block in Hagent. rewrite Hagent. simpl.
  by rewrite Hcatch.
Qed.

(** X6. When the agent call resolves and the scoring call is rejected, the
    evaluation is a failed one with [score = 0] and the message of the
    scoring error, and its [response] is empty: the answer of the agent is
    not kept. Its [executionTime] is read in the catch clause, after the
    scoring call. *)
Theorem executeTestCase_scoring_failure
    this tc w t0 w1 resp w2 t1 w3 expected e w4 t2 w5 :
  (2 ≤ length (messageBlocks tc))%nat →
  clock_now env w = (t0, w1) →
  agent_answer env
    {| messages := map message_of_block (slice (messageBlocks tc) 0 (-1)) |} w1
    = (inr resp, w2) →
  clock_now env w2 = (t1, w3) →
  last (messageBlocks tc) = Some expected →
  scoring_answer env (trim (agent_response resp)) (trim (content expected)) w3
    = (inl e, w4) →
  clock_now env w4 = (t2, w5) →
  run env (executeTestCase this tc) w
  = (inr {| testCaseId := tc_id tc;
            success := false;
            error := Some (message_of e);
            score := 0%Q;
            executionTime := (t2 - t0)%Z;
            response := EmptyString;
            testCase := tc |}, w5).
Proof.
  intros Hlen Hstart Hagent Hnow Hlast Hscore Hcatch.
  rewrite (run_executeTestCase_resolved env _ _ _ _ _ _ _ _ _ _ Hlen Hstart Hagent Hnow Hlast).
  by rewrite Hscore, Hcatch.
Qed.

(** X7. Whatever the collaborators do, the evaluation that [executeTestCase]
    returns has [success = true] exactly when it has no [error]; a
    successful one has a score of at least the threshold and the test case
    then has at least 2 blocks; a failed one either failed on the score
    alone, with the error "Response mismatch" and a score below the
    threshold, or has [score = 0] and an empty [response]. *)
Theorem executeTestCase_success_iff_no_error this tc w :
  ∃ evaluation w',
    run env (executeTestCase this tc) w = (inr evaluation, w')
    ∧ (success evaluation = true ↔ error evaluation = None)
    ∧ (success evaluation = true →
         (threshold this <= score evaluation)%Q
         ∧ (2 ≤ length (messageBlocks tc))%nat)
    ∧ (success evaluation = false →
         (error evaluation = Some "Response mismatch"
          ∧ ¬ (threshold this <= score evaluation)%Q)
         ∨ (score evaluation = 0%Q ∧ response evaluation = EmptyString)).
Proof.
  unfold executeTestCase, mbind, Prog_bind. simpl.
  destruct (clock_now env w) as [t0 w1].
  rewrite run_try_catch, run_bind.
  destruct (Z.ltb_spec (Z.of_nat (length (messageBlocks tc))) 2) as [Hlt|Hge]; simpl.
  { destruct (clock_now env w1) as [t w2]. eexists _, _.
    split; [done|]. simpl. repeat split; try done. by right. }
  destruct (agent_answer env _ w1) as [[e|resp] w2]; simpl.
  { destruct (clock_now env w2) as [t w3]. eexists _, _.
    split; [done|]. simpl. repeat split; try done. by right. }
  destruct (clock_now env w2) as [t1 w3].
  rewrite run_bind.
  destruct (at_index _ _) as [block|]; simpl.
  2:{ destruct (clock_now env w3) as [t w4]. eexists _, _.
      split; [done|]. simpl. repeat split; try done. by right. }
  destruct (scoring_answer env _ _ w3) as [[e|sc] w4]; simpl.
  { destruct (clock_now env w4) as [t w5]. eexists _, _.
    split; [done|]. simpl. repeat split; try done. by right. }
  eexists _, _. split; [done|]. simpl.
  destruct (Qle_bool (threshold this) sc) eqn:Hle.
  - apply Qle_bool_iff in Hle. repeat split; try done. lia.
  - repeat split; try done. intros _. left. split; [done|].
    intros Hle'. apply Qle_bool_iff in Hle'. congruence.
Qed.
End SequentialPaths.

Lemma executeTestCase_input_witness :
  AgentCall {| messages := [{| msg_role := USER; msg_content := "hi" |}] |}
    ∈ calls timed_env (executeTestCase default_executor greeting_case) 0%Z
  ∧ ∀ input,
      AgentCall input ∈ calls timed_env (executeTestCase default_executor greeting_case) 0%Z →
      messages input = [{| msg_role := USER; msg_content := "hi" |}].
Proof.
  apply (executeTestCase_input timed_env default_executor greeting_case 0%Z
           [plain_block USER "hi"] (plain_block ASSISTANT "hello"));
    [reflexivity | discriminate].
Defined.

Lemma executeTestCase_agent_failure_witness :
  run unavailable_env (executeTestCase default_executor greeting_case) 0%Z
  = (inr {| testCaseId := "greeting";
            success := false;
            error := Some "agent unavailable";
            score := 0%Q;
            executionTime := (7 - 0)%Z;
            response := EmptyString;
            testCase := greeting_case |}, 7%Z).
Proof.
  apply (executeTestCase_agent_failure unavailable_env default_executor greeting_case
           0%Z 0%Z 0%Z (ErrorObject "Error" "agent unavailable") 7%Z 7%Z 7%Z);
    first [reflexivity | simpl; lia].
Defined.

Lemma executeTestCase_scoring_failure_witness :
  run unscored_env (executeTestCase default_executor greeting_case) 0%Z
  = (inr {| testCaseId := "greeting";
            success := false;
            error := Some "Unknown error";
            score := 0%Q;
            executionTime := (15 - 0)%Z;
            response := EmptyString;
            testCase := greeting_case |}, 15%Z).
Proof.
  apply (executeTestCase_scoring_failure unscored_env default_executor greeting_case
           0%Z 0%Z 0%Z {| agent_response := " hello " |} 10%Z 10%Z 10%Z
           (plain_block ASSISTANT "hello") OtherValue 15%Z 15%Z 15%Z);
    first [reflexivity | simpl; lia].
Defined.

(** ** The sequential batch *)

Lemma run_log_await {W A} (env : Collaborators W) (p : Prog A) log w :
  run env (log_await p log) w =
    match run env p w with
    | (inr a, w') => (inr (inr a, log), w')
    | (inl e, w') => (inr (inl e, log), w')
    end.
Proof.
  unfold log_await. rewrite run_try_catch, run_bind.
  by destruct (run env p w) as [[e|a] w'].
Qed.

Lemma calls_log_await {W A} (env : Collaborators W) (p : Prog A) log w :
  calls env (log_await p log) w = calls env p w.
Proof.
  unfold log_await. rewrite calls_try_catch, calls_bind, run_bind.
  destruct (run env p w) as [[e|a] w']; simpl; by rewrite !app_nil_r.
Qed.

Lemma run_log_return {W A} (env : Collaborators W) (a : A) log w :
  run env (log_return a log) w = (inr (inr a, log), w).
Proof. done. Qed.

Lemma run_log_bind {W A B} (env : Collaborators W) (m : Logging A)
    (f : A → Logging B) log w :
  run env (log_bind m f log) w =
    match run env (m log) w with
    | (inr (inr a, log'), w') => run env (f a log') w'
    | (inr (inl e, log'), w') => (inr (inl e, log'), w')
    | (inl e, w') => (inl e, w')
    end.
Proof.
  unfold log_bind. rewrite run_bind.
  by destruct (run env (m log) w) as [[e|[[e|a] log']] w'].
Qed.

Lemma run_log_catch {W A} (env : Collaborators W) (m : Logging A) handler log w :
  run env (log_catch m handler log) w =
    match run env (m log) w with
    | (inr (inr a, log'), w') => (inr (inr a, log'), w')
    | (inr (inl e, log'), w') => run env (handler e log') w'
    | (inl e, w') => (inl e, w')
    end.
Proof.
  unfold log_catch. rewrite run_bind.
  by destruct (run env (m log) w) as [[e|[[e|a] log']] w'].
Qed.

Lemma calls_log_bind {W A B} (env : Collaborators W) (m : Logging A)
    (f : A → Logging B) log w :
  calls env (log_bind m f log) w =
    calls env (m log) w
    ++ match run env (m log) w with
       | (inr (inr a, log'), w') => calls env (f a log') w'
       | _ => []
       end.
Proof.
  unfold log_bind. rewrite calls_bind.
  by destruct (run env (m log) w) as [[e|[[e|a] log']] w'].
Qed.

Lemma calls_log_catch {W A} (env : Collaborators W) (m : Logging A) handler log w :
  calls env (log_catch m handler log) w =
    calls env (m log) w
    ++ match run env (m log) w with
       | (inr (inl e, log'), w') => calls env (handler e log') w'
       | _ => []
       end.
Proof.
  unfold log_catch. rewrite calls_bind.
  by destruct (run env (m log) w) as [[e|[[e|a] log']] w'].
Qed.

Section SequentialBatch.
Context {W : Type} (env : Collaborators W).

Lemma executeTestCase_returns this tc w :
  ∃ evaluation w', run env (executeTestCase this tc) w = (inr evaluation, w').
Proof.
  unfold executeTestCase, mbind, Prog_bind. simpl.
  destruct (clock_now env w) as [t0 w1].
  rewrite run_try_catch, run_bind.
  destruct (Z.ltb_spec (Z.of_nat (length (messageBlocks tc))) 2) as [Hlt|Hge]; simpl.
  { destruct (clock_now env w1) as [t w2]. by eexists _, _. }
  destruct (agent_answer env _ w1) as [[e|resp] w2]; simpl.
  { destruct (clock_now env w2) as [t w3]. by eexists _, _. }
  destruct (clock_now env w2) as [t1 w3].
  rewrite run_bind.
  destruct (at_index _ _) as [block|]; simpl.
  2:{ destruct (clock_now env w3) as [t w4]. by eexists _, _. }
  destruct (scoring_answer env _ _ w3) as [[e|sc] w4]; simpl.
  { destruct (clock_now env w4) as [t w5]. by eexists _, _. }
  by eexists _, _.
Qed.

Lemma runs_each_exists this tcs w :
  ∃ evaluations w', runs_each env this tcs w evaluations w'.
Proof.
  revert w. induction tcs as [|tc tcs IH]; intros w.
  - eexists _, _. constructor.
  - destruct (executeTestCase_returns this tc w) as (evaluation & w1 & Hrun).
    destruct (IH w1) as (evaluations & w2 & Hrest).
    eexists _, _. by econstructor.
Qed.

Lemma runs_each_app this tcs1 tcs2 w evs1 w1 evs2 w2 :
  runs_each env this tcs1 w evs1 w1 →
  runs_each env this tcs2 w1 evs2 w2 →
  runs_each env this (tcs1 ++ tcs2) w (evs1 ++ evs2) w2.
Proof.
  induction 1 as [|tc tcs w evaluation w' evaluations w'' Hrun Hrest IH]; intros H2.
  - done.
  - simpl. econstructor; [done | by apply IH].
Qed.

Lemma runs_each_unique this tcs w evs1 w1 evs2 w2 :
  runs_each env this tcs w evs1 w1 →
  runs_each env this tcs w evs2 w2 →
  evs1 = evs2 ∧ w1 = w2.
Proof.
  intros H1. revert evs2 w2.
  induction H1 as [|tc tcs w evaluation w' evaluations w'' Hrun Hrest IH];
    intros evs2 w2 H2; inversion H2; subst.
  - done.
  - match goal with
    | Hrun' : run env _ w = _ |- _ => rewrite Hrun in Hrun'; injection Hrun' as <- <-
    end.
    match goal with
    | Hrest' : runs_each _ _ tcs _ _ _ |- _ => destruct (IH _ _ Hrest') as [-> ->]
    end.
    done.
Qed.

Lemma runs_each_testCase this tcs w evaluations w' :
  runs_each env this tcs w evaluations w' →
  Forall2 (λ tc evaluation,
             testCase evaluation = tc ∧ testCaseId evaluation = tc_id tc)
          tcs evaluations.
Proof.
  induction 1 as [|tc tcs w evaluation w' evaluations w'' Hrun Hrest IH];
    constructor; [|done].
  clear Hrest IH. revert Hrun.
  unfold executeTestCase, mbind, Prog_bind. simpl.
  destruct (clock_now env w) as [t0 w1].
  rewrite run_try_catch, run_bind.
  destruct (Z.ltb_spec (Z.of_nat (length (messageBlocks tc))) 2) as [Hlt|Hge]; simpl.
  { destruct (clock_now env w1) as [t w2]. by intros [= <- _]. }
  destruct (agent_answer env _ w1) as [[e|resp] w2]; simpl.
  { destruct (clock_now env w2) as [t w3]. by intros [= <- _]. }
  destruct (clock_now env w2) as [t1 w3].
  rewrite run_bind.
  destruct (at_index _ _) as [block|]; simpl.
  2:{ destruct (clock_now env w3) as [t w4]. by intros [= <- _]. }
  destruct (scoring_answer env _ _ w3) as [[e|sc] w4]; simpl.
  { destruct (clock_now env w4) as [t w5]. by intros [= <- _]. }
  by intros [= <- _].
Qed.

(** The loop over the test cases, from any point of it. *)
Lemma run_executeTestCases_loop this tcs results log w evaluations w' :
  runs_each env this tcs w evaluations w' →
  run env (executeTestCases_loop this tcs results log) w
  = (inr (inr (results ++ evaluations), log), w').
Proof.
  intros Heach. revert results.
  induction Heach as [|tc tcs w evaluation w1 evaluations w2 Hrun Hrest IH];
    intros results; cbn [executeTestCases_loop].
  - by rewrite app_nil_r.
  - rewrite run_log_bind, run_log_catch, run_log_bind, run_log_await, Hrun. simpl.
    rewrite IH. by rewrite <- app_assoc.
Qed.

Lemma run_executeTestCases this tcs log w evaluations w' :
  runs_each env this tcs w evaluations w' →
  run env (executeTestCases this tcs log) w = (inr (inr evaluations, log), w').
Proof.
  intros Heach. unfold executeTestCases.
  rewrite run_log_catch, (run_executeTestCases_loop _ _ _ _ _ _ _ Heach). done.
Qed.

(** X8. [executeTestCases] never throws and never calls the logger: it
    returns one evaluation for each test case, in the order of the test
    cases, and each is the evaluation that [executeTestCase] returns for
    that test case in the world left by the test cases before it. Neither
    of its two [catch] clauses runs, so no evaluation is the substitute
    with [executionTime = 0] and no error is logged. *)
Theorem executeTestCases_in_order this tcs log w :
  ∃ evaluations w',
    run env (executeTestCases this tcs log) w = (inr (inr evaluations, log), w')
    ∧ runs_each env this tcs w evaluations w'
    ∧ map testCase evaluations = tcs
    ∧ map testCaseId evaluations = map tc_id tcs.
Proof.
  destruct (runs_each_exists this tcs w) as (evaluations & w' & Heach).
  exists evaluations, w'. split; [by apply run_executeTestCases|].
  split; [done|].
  apply runs_each_testCase in Heach.
  induction Heach as [|tc evaluation tcs evaluations [Htc Hid] _ [IH1 IH2]]; [done|].
  simpl. by rewrite Htc, Hid, IH1, IH2.
Qed.

(** X9. Running [executeTestCases] on a list is running it on a first part
    of the list and then, in the world and with the log that this leaves,
    on the rest: the evaluations are those of the two runs, one after the
    other. *)
Theorem executeTestCases_app this tcs1 tcs2 log w evs1 log1 w1 evs2 log2 w2 :
  run env (executeTestCases this tcs1 log) w = (inr (inr evs1, log1), w1) →
  run env (executeTestCases this tcs2 log1) w1 = (inr (inr evs2, log2), w2) →
  run env (executeTestCases this (tcs1 ++ tcs2) log) w
  = (inr (inr (evs1 ++ evs2), log2), w2).
Proof.
  intros H1 H2.
  destruct (runs_each_exists this tcs1 w) as (evs1' & w1' & Heach1).
  rewrite (run_executeTestCases _ _ _ _ _ _ Heach1) in H1.
  injection H1 as -> -> ->.
  destruct (runs_each_exists this tcs2 w1) as (evs2' & w2' & Heach2).
  rewrite (run_executeTestCases _ _ _ _ _ _ Heach2) in H2.
  injection H2 as -> -> ->.
  apply run_executeTestCases. by eapply runs_each_app.
Qed.

Lemma agent_calls_executeTestCase this tc w :
  omap agent_input (calls env (executeTestCase this tc) w)
  = if has_expected tc then [input_of tc] else [].
Proof.
  unfold has_expected, input_of, executeTestCase, mbind, Prog_bind. simpl.
  destruct (clock_now env w) as [t0 w1]. simpl.
  rewrite calls_try_catch, calls_bind, run_bind.
  destruct (Nat.ltb_spec (length (messageBlocks tc)) 2) as [Hlt|Hge].
  { replace (Z.of_nat (length (messageBlocks tc)) <? 2)%Z with true
      by (symmetry; apply Z.ltb_lt; lia).
    simpl. by destruct (clock_now env w1) as [t w2]. }
  replace (Z.of_nat (length (messageBlocks tc)) <? 2)%Z with false
    by (symmetry; apply Z.ltb_ge; lia).
  simpl.
  destruct (agent_answer env _ w1) as [[e|resp] w2]; simpl.
  { by destruct (clock_now env w2) as [t w3]. }
  destruct (clock_now env w2) as [t1 w3]. simpl.
  rewrite calls_bind, run_bind.
  destruct (at_index _ _) as [block|]; simpl.
  2:{ by destruct (clock_now env w3) as [t w4]. }
  destruct (scoring_answer env _ _ w3) as [[e|sc] w4]; simpl.
  { by destruct (clock_now env w4) as [t w5]. }
  done.
Qed.

Lemma calls_executeTestCases_loop this tcs results log w :
  omap agent_input (calls env (executeTestCases_loop this tcs results log) w)
  = map input_of (filter (λ tc, has_expected tc = true) tcs).
Proof.
  revert results w.
  induction tcs as [|tc tcs IH]; intros results w; cbn [executeTestCases_loop].
  - done.
  - destruct (executeTestCase_returns this tc w) as (evaluation & w1 & Hrun).
    rewrite calls_log_bind, run_log_catch, calls_log_catch, !run_log_bind,
      calls_log_bind, run_log_await, calls_log_await, Hrun.
    cbn beta iota. rewrite !app_nil_r, run_log_return. cbn beta iota.
    rewrite omap_app, IH, agent_calls_executeTestCase.
    destruct (has_expected tc) eqn:Hex.
    + by rewrite filter_cons_True.
    + rewrite filter_cons_False; [done | by rewrite Hex].
Qed.

(** X10. [executeTestCases] calls the agent once for each test case that has
    at least 2 message blocks, in the order of the test cases and with the
    input built from all blocks but the last, and never for a test case with
    fewer blocks. *)
Theorem executeTestCases_agent_calls this tcs log w :
  omap agent_input (calls env (executeTestCases this tcs log) w)
  = map input_of (filter (λ tc, has_expected tc = true) tcs).
Proof.
  unfold executeTestCases. rewrite calls_log_catch.
  destruct (runs_each_exists this tcs w) as (evaluations & w' & Heach).
  rewrite (run_executeTestCases_loop _ _ _ _ _ _ _ Heach). simpl.
  rewrite app_nil_r. apply calls_executeTestCases_loop.
Qed.

(** X11. When no test case was loaded, [executeTestCasesFromDirectory]
    returns the empty list without reading the clock or calling the agent
    or the scoring service. It has logged that it loads the directory, the
    load errors in a warning when there are any, and the warning that no
    test case was loaded. *)
Theorem executeTestCasesFromDirectory_nothing_loaded
    this loader directoryPath stopOnError log w :
  testCases (loader directoryPath stopOnError) = [] →
  run env (executeTestCasesFromDirectory this loader directoryPath stopOnError log) w
  = (inr (inr [], log ++ loading_log directoryPath (loader directoryPath stopOnError)), w)
  ∧ calls env (executeTestCasesFromDirectory this loader directoryPath stopOnError log) w
    = [].
Proof.
  intros Hnone. unfold executeTestCasesFromDirectory, loading_log.
  rewrite Hnone.
  destruct (errors (loader directoryPath stopOnError)) as [|e es]; simpl;
    rewrite <- ?app_assoc; done.
Qed.

(** X12. When a test case was loaded, [executeTestCasesFromDirectory] never
    throws. It returns what [executeTestCases] returns for the loaded test
    cases: one evaluation for each, in their order. The load errors change
    nothing in the evaluations; they are logged in one warning, which is
    made exactly when there are load errors, and no error is logged. *)
Theorem executeTestCasesFromDirectory_loaded
    this loader directoryPath stopOnError log w :
  testCases (loader directoryPath stopOnError) ≠ [] →
  ∃ evaluations w',
    run env (executeTestCasesFromDirectory this loader directoryPath stopOnError log) w
    = (inr (inr evaluations,
            log ++ loading_log directoryPath (loader directoryPath stopOnError)), w')
    ∧ runs_each env this (testCases (loader directoryPath stopOnError)) w evaluations w'
    ∧ (∀ entry, entry ∈ loading_log directoryPath (loader directoryPath stopOnError) →
         log_level entry ≠ ERROR
         ∧ (log_level entry = WARN →
            log_errors entry = Some (errors (loader directoryPath stopOnError))
            ∧ errors (loader directoryPath stopOnError) ≠ [])).
Proof.
  intros Hsome.
  destruct (runs_each_exists this (testCases (loader directoryPath stopOnError)) w)
    as (evaluations & w' & Heach).
  exists evaluations, w'. split; [|split; [done|]].
  - unfold executeTestCasesFromDirectory, loading_log.
    destruct (testCases (loader directoryPath stopOnError)) as [|tc tcs] eqn:Htcs; [done|].
    destruct (errors (loader directoryPath stopOnError)) as [|e es];
      rewrite !run_log_bind; cbn -[executeTestCases pretty String.app app];
      rewrite (run_executeTestCases _ _ _ _ _ _ Heach);
      rewrite <- ?app_assoc; done.
  - intros entry Hin. unfold loading_log in Hin.
    destruct (testCases (loader directoryPath stopOnError)) as [|tc tcs]; [done|].
    destruct (errors (loader directoryPath stopOnError)) as [|e es]; simpl in Hin.
    + apply elem_of_cons in Hin as [->|Hin]; [done|].
      apply elem_of_cons in Hin as [->|Hin]; [done|].
      by apply elem_of_nil in Hin.
    + apply elem_of_cons in Hin as [->|Hin]; [done|].
      apply elem_of_cons in Hin as [->|Hin]; [done|].
      apply elem_of_cons in Hin as [->|Hin]; [done|].
      by apply elem_of_nil in Hin.
Qed.

End SequentialBatch.

Lemma executeTestCases_app_witness :
  run timed_env (executeTestCases default_executor ([greeting_case] ++ [lonely_case]) []) 0%Z
  = (inr (inr ([greeting_evaluation] ++ [lonely_evaluation]), []), 15%Z).
Proof.
  apply (executeTestCases_app timed_env default_executor [greeting_case] [lonely_case]
           [] 0%Z [greeting_evaluation] [] 15%Z [lonely_evaluation] [] 15%Z);
    reflexivity.
Defined.

Lemma executeTestCasesFromDirectory_nothing_loaded_witness :
  run timed_env
    (executeTestCasesFromDirectory default_executor
       (loadFromDirectory EmptyString is_txt cases_directory) "nowhere" true []) 0%Z
  = (inr (inr [],
          [] ++ loading_log "nowhere"
                  (loadFromDirectory EmptyString is_txt cases_directory "nowhere" true)), 0%Z)
  ∧ calls timed_env
      (executeTestCasesFromDirectory default_executor
         (loadFromDirectory EmptyString is_txt cases_directory) "nowhere" true []) 0%Z
    = [].
Proof.
  apply (executeTestCasesFromDirectory_nothing_loaded timed_env default_executor
           (loadFromDirectory EmptyString is_txt cases_directory) "nowhere" true [] 0%Z).
  reflexivity.
Defined.

Lemma executeTestCasesFromDirectory_loaded_witness :
  ∃ evaluations w',
    run timed_env
      (executeTestCasesFromDirectory default_executor cases_loader "cases" false []) 0%Z
    = (inr (inr evaluations,
            [] ++ loading_log "cases" (cases_loader "cases" false)), w')
    ∧ runs_each timed_env default_executor
        (testCases (cases_loader "cases" false)) 0%Z evaluations w'
    ∧ (∀ entry, entry ∈ loading_log "cases" (cases_loader "cases" false) →
         log_level entry ≠ ERROR
         ∧ (log_level entry = WARN →
            log_errors entry = Some (errors (cases_loader "cases" false))
            ∧ errors (cases_loader "cases" false) ≠ [])).
Proof.
  apply (executeTestCasesFromDirectory_loaded timed_env default_executor
           cases_loader "cases" false [] 0%Z).
  vm_compute. discriminate.
Defined.

Example cases_loading_log :
  map (λ entry, (log_level entry, log_text entry))
      (loading_log "cases" (cases_loader "cases" false))
  = [(INFO, "Loading test cases from directory: cases");
     (WARN, "Encountered 1 errors while loading test cases:");
     (INFO, "Successfully loaded 2 test cases")].
Proof. reflexivity. Qed.

(** ** The promises of a chunk and [executeTestCase] *)

Lemma executeTestCase_leaves this tc :
  leaves (λ _, True) (λ _, False) (executeTestCase this tc).
Proof.
  unfold executeTestCase, mbind, Prog_bind, performance_now,
    agent_sendInput, scoringService_scoreStrings, await.
  explore_prog; auto.
Qed.

Lemma resume_try_catch {A} (p : Prog A) handler s p' :
  resume p s = Some p' →
  resume (try_catch p handler) s = Some (try_catch p' handler).
Proof. destruct p, s; simpl; intros; by simplify_eq. Qed.

Lemma residual_try_catch {A} (p0 p : Prog A) handler :
  residual p0 p → residual (try_catch p0 handler) (try_catch p handler).
Proof.
  induction 1 as [|p s p' _ IH Hres]; [constructor|].
  eapply residual_resume; [exact IH | by apply resume_try_catch].
Qed.

Lemma residual_try_catch_inv {A} (p0 q : Prog A) handler :
  leaves (λ _, True) (λ _, False) p0 →
  residual (try_catch p0 handler) q →
  ∃ p, residual p0 p ∧ q = try_catch p handler.
Proof.
  intros Hleaves. induction 1 as [|q s q' _ IH Hres].
  - exists p0. split; [constructor | done].
  - destruct IH as (p & Hp & ->).
    pose proof (leaves_residual _ _ _ _ Hleaves Hp) as Hl.
    destruct Hl as [a _|e []|k _|input k _|a b k _]; destruct s as [t|r|r];
      simpl in Hres; simplify_eq.
    + exists (k t). split; [|done].
      by eapply (residual_resume _ _ (ClockRead t)); [exact Hp|].
    + exists (k r). split; [|done].
      by eapply (residual_resume _ _ (AgentSettled r)); [exact Hp|].
    + exists (k r). split; [|done].
      by eapply (residual_resume _ _ (ScoreSettled r)); [exact Hp|].
Qed.

(** X13. The [catch] clause of the function that [executeTestCasesInParallel]
    maps over a chunk never runs. Whatever the clock, the agent and the
    scoring service answer, the promise made for a test case is fulfilled
    with an evaluation exactly when [executeTestCase] returns this
    evaluation under the same answers; run against any collaborators, the
    two give the same result and leave the same world. *)
Theorem chunk_task_catch_never_runs this tc :
  (∀ evaluation,
     outcome this tc evaluation ↔ residual (executeTestCase this tc) (Ret evaluation))
  ∧ (∀ W (env : Collaborators W) w,
       run env (chunk_task this tc) w = run env (executeTestCase this tc) w
       ∧ calls env (chunk_task this tc) w = calls env (executeTestCase this tc) w).
Proof.
  split.
  - intros evaluation. unfold outcome, chunk_task. split.
    + intros Hout.
      apply residual_try_catch_inv in Hout as (p & Hp & Heq);
        [|apply executeTestCase_leaves].
      pose proof (leaves_residual _ _ _ _ (executeTestCase_leaves this tc) Hp) as Hl.
      destruct Hl as [a _|e []|k _|input k _|a b k _]; simpl in Heq; by simplify_eq.
    + intros Hres. by apply (residual_try_catch _ _ _ Hres).
  - intros W env w. unfold chunk_task.
    rewrite run_try_catch, calls_try_catch.
    destruct (executeTestCase_returns env this tc w) as (evaluation & w' & ->).
    by rewrite app_nil_r.
Qed.

(** ** The batch with [maxConcurrency ≤ 0] *)

Lemma chunking_goes_on this tcs k n i chunks :
  (k ≤ 0)%Z → tcs ≠ [] → (i ≤ 0)%Z →
  ∃ chunks',
    steps this tcs k (replicate n Advance) (Chunking i chunks)
      = Some (Chunking (i + Z.of_nat n * k) chunks')
    ∧ length chunks' = (length chunks + n)%nat.
Proof.
  intros Hk Hne. revert i chunks.
  induction n as [|n IH]; intros i chunks Hi.
  - exists chunks. split; [simpl; f_equal; f_equal; lia | lia].
  - simpl replicate. cbn [steps step].
    destruct (Z.ltb_spec i (Z.of_nat (length tcs))) as [_|Hge];
      [|destruct tcs; [done | simpl in Hge; lia]].
    simpl. destruct (IH (i + k)%Z (chunks ++ [slice tcs i (i + k)])) as (chunks' & -> & Hlen);
      [lia|].
    exists chunks'. split; [f_equal; f_equal; lia|].
    rewrite Hlen, length_app. simpl. lia.
Qed.

Lemma chunking_only this tcs k events i chunks ph :
  (k ≤ 0)%Z → tcs ≠ [] → (i ≤ 0)%Z →
  steps this tcs k events (Chunking i chunks) = Some ph →
  events = replicate (length events) Advance
  ∧ ∃ chunks',
      ph = Chunking (i + Z.of_nat (length events) * k) chunks'
      ∧ length chunks' = (length chunks + length events)%nat.
Proof.
  intros Hk Hne. revert i chunks.
  induction events as [|ev events IH]; intros i chunks Hi Hrun.
  - simpl in Hrun. simplify_eq. split; [done|].
    exists chunks. split; [f_equal; simpl; lia | simpl; lia].
  - cbn [steps] in Hrun.
    destruct ev as [|j s|j]; simpl in Hrun; try done.
    destruct (Z.ltb_spec i (Z.of_nat (length tcs))) as [_|Hge];
      [|destruct tcs; [done | simpl in Hge; lia]].
    simpl in Hrun. apply IH in Hrun as (Hevents & chunks' & -> & Hlen); [|lia].
    split; [simpl; by f_equal|].
    exists chunks'. split; [f_equal; simpl length; lia|].
    rewrite Hlen, length_app. simpl. lia.
Qed.

(** X14. With [maxConcurrency ≤ 0] and at least one test case, the first
    loop of [executeTestCasesInParallel] never ends: after [n] iterations
    it is again at the test of the loop, with [i = n * maxConcurrency ≤ 0]
    and [n] chunks pushed, and no other event is possible. No promise is
    created, no test case is executed and the batch neither returns nor is
    rejected; [evaluateFromDirectory] of an executor configured with such a
    [maxConcurrency], which the constructor keeps as it is given, never
    settles when a test case was loaded. *)
Theorem executeTestCasesInParallel_never_starts this tcs k :
  (k ≤ 0)%Z → tcs ≠ [] →
  (∀ n, ∃ chunks,
     executeTestCasesInParallel this tcs k (replicate n Advance)
       = Some (Chunking (Z.of_nat n * k) chunks)
     ∧ length chunks = n)
  ∧ (∀ events ph,
       executeTestCasesInParallel this tcs k events = Some ph →
       events = replicate (length events) Advance
       ∧ ∃ chunks,
           ph = Chunking (Z.of_nat (length events) * k) chunks
           ∧ length chunks = length events)
  ∧ (∀ config loader directoryPath stopOnError events startTime endTime date,
       config_maxConcurrency config = Some k →
       testCases (loader directoryPath stopOnError) = tcs →
       evaluateFromDirectory (constructor config) loader directoryPath stopOnError
         events startTime endTime date = Pending).
Proof.
  intros Hk Hne. split; [|split].
  - intros n.
    destruct (chunking_goes_on this tcs k n 0 [] Hk Hne ltac:(lia)) as (chunks & Hrun & Hlen).
    exists chunks. by split.
  - intros events ph Hrun.
    by apply (chunking_only this tcs k events 0 [] ph Hk Hne ltac:(lia)) in Hrun.
  - intros config loader directoryPath stopOnError events startTime endTime date Hconfig Htcs.
    unfold evaluateFromDirectory. rewrite Htcs.
    replace (maxConcurrency (constructor config)) with k
      by (unfold constructor; simpl; by rewrite Hconfig).
    destruct (executeTestCasesInParallel (constructor config) tcs k events) as [ph|] eqn:Hrun;
      [|done].
    apply (chunking_only _ tcs k events 0 [] ph Hk Hne ltac:(lia)) in Hrun
      as (_ & chunks & -> & _).
    done.
Qed.

Lemma executeTestCasesInParallel_never_starts_witness :
  ∃ chunks,
    executeTestCasesInParallel default_executor three_cases 0 (replicate 3 Advance)
      = Some (Chunking (Z.of_nat 3 * 0) chunks)
    ∧ length chunks = 3%nat.
Proof.
  refine (proj1 (executeTestCasesInParallel_never_starts
                   default_executor three_cases 0 _ _) 3%nat);
    [lia | discriminate].
Defined.

(** ** The batch with one test case at a time *)

Section OneAtATime.
Context {W : Type} (env : Collaborators W).

(** The answers of the collaborators take promise [j] to its value. *)
Lemma promise_answers this tcs k (p : Prog TestCaseEvaluation) w evaluation w' :
  run env p w = (inr evaluation, w') →
  ∀ ps j pending results,
    ps !! j = Some p →
    steps this tcs k (Resume j <$> answers env p w) (AwaitAll ps pending results)
    = Some (AwaitAll (<[j := Ret evaluation]> ps) pending results).
Proof.
  revert w. induction p as [a|e|c IH|input c IH|a b c IH];
    intros w Hrun ps j pending results Hj; simpl in Hrun; simpl answers.
  - simplify_eq. simpl. by rewrite list_insert_id.
  - done.
  - destruct (clock_now env w) as [t w1]. cbn [fmap list_fmap steps step].
    rewrite Hj. simpl.
    rewrite (IH t w1 Hrun (<[j := c t]> ps) j pending results)
      by (apply list_lookup_insert_eq; by eapply lookup_lt_Some).
    by rewrite list_insert_insert_eq.
  - destruct (agent_answer env input w) as [r w1]. cbn [fmap list_fmap steps step].
    rewrite Hj. simpl.
    rewrite (IH r w1 Hrun (<[j := c r]> ps) j pending results)
      by (apply list_lookup_insert_eq; by eapply lookup_lt_Some).
    by rewrite list_insert_insert_eq.
  - destruct (scoring_answer env a b w) as [r w1]. cbn [fmap list_fmap steps step].
    rewrite Hj. simpl.
    rewrite (IH r w1 Hrun (<[j := c r]> ps) j pending results)
      by (apply list_lookup_insert_eq; by eapply lookup_lt_Some).
    by rewrite list_insert_insert_eq.
Qed.

(** The second loop over chunks of one test case. *)
Lemma one_by_one_returns this tcs0 tcs w evaluations w' :
  runs_each env this tcs w evaluations w' →
  ∀ results,
    steps this tcs0 1 (one_by_one env this tcs w)
      (NextChunk ((λ tc, [tc]) <$> tcs) results)
    = Some (Returned (results ++ evaluations)).
Proof.
  induction 1 as [w|tc tcs w evaluation w1 evaluations w2 Hrun Hrest IH];
    intros results.
  - simpl. by rewrite app_nil_r.
  - assert (run env (chunk_task this tc) w = (inr evaluation, w1)) as Htask.
    { unfold chunk_task. by rewrite run_try_catch, Hrun. }
    cbn [one_by_one fmap list_fmap steps step]. rewrite Htask.
    cbn [mbind option_bind map snd].
    rewrite steps_app.
    rewrite (promise_answers this tcs0 1 _ _ _ _ Htask [chunk_task this tc] 0)
      by done.
    cbn [mbind option_bind steps step]. simpl.
    change (map (λ tc0 : TestCase, [tc0]) tcs) with ((λ tc0, [tc0]) <$> tcs).
    by rewrite IH, <- app_assoc.
Qed.

(** The first loop with [maxConcurrency = 1]: one chunk for each test case. *)
Lemma chunking_one this done rest cut :
  steps this (done ++ rest) 1 (replicate (S (length rest)) Advance)
    (Chunking (Z.of_nat (length done)) cut)
  = Some (NextChunk (cut ++ ((λ tc, [tc]) <$> rest)) []).
Proof.
  revert done cut. induction rest as [|tc rest IH]; intros done cut.
  - simpl. rewrite app_nil_r.
    destruct (Z.ltb_spec (Z.of_nat (length done)) (Z.of_nat (length done))); [lia|].
    by rewrite app_nil_r.
  - change (replicate (S (length (tc :: rest))) Advance)
      with (Advance :: replicate (S (length rest)) Advance).
    cbn [steps step].
    destruct (Z.ltb_spec (Z.of_nat (length done))
                (Z.of_nat (length (done ++ tc :: rest)))) as [_|Hge];
      [|rewrite length_app in Hge; simpl in Hge; lia].
    cbn [mbind option_bind].
    rewrite slice_forward by lia.
    replace (Z.to_nat (Z.of_nat (length done))) with (length done) by lia.
    rewrite drop_app_length. simpl take.
    replace (Z.of_nat (length done) + 1)%Z with (Z.of_nat (length (done ++ [tc])))
      by (rewrite length_app; simpl; lia).
    replace (done ++ tc :: rest) with ((done ++ [tc]) ++ rest)
      by (by rewrite <- app_assoc).
    rewrite IH. by rewrite <- app_assoc.
Qed.

Lemma serial_events_return this tcs w evaluations w' :
  runs_each env this tcs w evaluations w' →
  executeTestCasesInParallel this tcs 1 (serial_events env this tcs w)
  = Some (Returned evaluations).
Proof.
  intros Heach. unfold executeTestCasesInParallel, serial_events.
  rewrite steps_app.
  rewrite (chunking_one this [] tcs []
           : steps this tcs 1 (replicate (S (length tcs)) Advance) (Chunking 0 [])
             = Some (NextChunk ((λ tc, [tc]) <$> tcs) [])).
  cbn [mbind option_bind].
  apply (one_by_one_returns this tcs tcs w evaluations w' Heach []).
Qed.

(** X15. With [maxConcurrency = 1], [executeTestCasesInParallel] returns
    the list that [executeTestCases] returns. Every chunk holds one test
    case, so a single promise is pending at a time and its calls reach the
    clock, the agent and the scoring service in the order in which the
    sequential loop makes them; given the answers of the same
    collaborators, the batch returns the evaluations of the sequential
    loop, which calls the logger for none of them. *)
Theorem executeTestCasesInParallel_one_at_a_time this tcs log w :
  ∃ evaluations w',
    run env (executeTestCases this tcs log) w = (inr (inr evaluations, log), w')
    ∧ executeTestCasesInParallel this tcs 1 (serial_events env this tcs w)
      = Some (Returned evaluations)
    ∧ ∀ events ps pending results,
        executeTestCasesInParallel this tcs 1 events
          = Some (AwaitAll ps pending results) →
        (length ps ≤ 1)%nat.
Proof.
  destruct (runs_each_exists env this tcs w) as (evaluations & w' & Heach).
  exists evaluations, w'.
  split; [by apply run_executeTestCases|].
  split; [by eapply serial_events_return|].
  intros events ps pending results Hrun.
  assert (within_limit tcs 1 (AwaitAll ps pending results)) as [Hlen _]; [|lia].
  eapply (steps_invariant this tcs 1 (within_limit tcs 1)); [|..|exact Hrun].
  - intros ev ph1 ph2. apply within_limit_step.
  - simpl. split; [intros _; split; [lia | done] | intros _; by left].
Qed.

End OneAtATime.

(** [greeting_case] and then [lonely_case], one at a time, against
    [timed_env] from time 0. *)
Example two_cases_one_at_a_time :
  serial_events timed_env default_executor [greeting_case; lonely_case] 0%Z
  = [Advance; Advance; Advance;
     Advance;
     Resume 0 (ClockRead 0); Resume 0 (AgentSettled (inr {| agent_response := " hello " |}));
     Resume 0 (ClockRead 10); Resume 0 (ScoreSettled (inr 1%Q));
     Advance;
     Advance;
     Resume 0 (ClockRead 15); Resume 0 (ClockRead 15);
     Advance;
     Advance]
  ∧ executeTestCasesInParallel default_executor [greeting_case; lonely_case] 1
      (serial_events timed_env default_executor [greeting_case; lonely_case] 0%Z)
    = Some (Returned [greeting_evaluation; lonely_evaluation]).
Proof. split; reflexivity. Qed.

(** ** More on the report *)

Lemma report_result_blank date result :
  messageBlocks (testCase result) = [] →
  report_result date result = inl content_of_undefined.
Proof. unfold report_result. by intros ->. Qed.

Lemma report_result_entry date result blocks expected :
  messageBlocks (testCase result) = blocks ++ [expected] →
  report_result date result
  = inr {| result_testCase :=
             {| reported_id := testCaseId result;
                reported_input := join (String LF EmptyString) (map content blocks);
                reported_expected := content expected |};
           result_score := score result;
           passed := success result;
           result_error := error result;
           result_timestamp := date;
           result_response := response result |}.
Proof.
  intros Hblocks. unfold report_result. rewrite Hblocks.
  rewrite at_index_last by (by destruct blocks).
  by rewrite last_snoc, slice_all_but_last.
Qed.

Lemma report_result_fails date result e :
  report_result date result = inl e →
  e = content_of_undefined ∧ messageBlocks (testCase result) = [].
Proof.
  destruct (messageBlocks (testCase result)) as [|b bs] eqn:Hblocks.
  - rewrite report_result_blank by done. by intros [= <-].
  - destruct (exists_last (l := b :: bs) ltac:(done)) as (blocks & expected & Hsnoc).
    rewrite Hsnoc in Hblocks. by rewrite (report_result_entry _ _ _ _ Hblocks).
Qed.

Lemma report_results_fails date evaluations e :
  report_results date evaluations = inl e →
  e = content_of_undefined
  ∧ Exists (λ evaluation, messageBlocks (testCase evaluation) = []) evaluations.
Proof.
  induction evaluations as [|evaluation evaluations IH]; simpl; [done|].
  destruct (report_result date evaluation) as [e'|r] eqn:Hr.
  - intros [= <-]. apply report_result_fails in Hr as [-> Hblank].
    split; [done | by left].
  - destruct (report_results date evaluations) as [e'|rs]; [|done].
    intros [= <-]. destruct (IH eq_refl) as [-> Hex]. split; [done | by right].
Qed.

Lemma report_results_blank date evaluations :
  Exists (λ evaluation, messageBlocks (testCase evaluation) = []) evaluations →
  report_results date evaluations = inl content_of_undefined.
Proof.
  induction 1 as [evaluation evaluations Hblank|evaluation evaluations _ IH]; simpl.
  - by rewrite report_result_blank.
  - destruct (report_result date evaluation) as [e|r] eqn:Hr.
    + by apply report_result_fails in Hr as [-> _].
    + by rewrite IH.
Qed.

Lemma outcomes_blank this tcs evaluations :
  Forall2 (outcome this) tcs evaluations →
  Exists (λ evaluation, messageBlocks (testCase evaluation) = []) evaluations
  ↔ Exists (λ tc, messageBlocks tc = []) tcs.
Proof.
  induction 1 as [|tc evaluation tcs evaluations Hout _ IH].
  - split; inversion 1.
  - apply outcome_testCase in Hout as [Htc _].
    rewrite !Exists_cons, IH, Htc. done.
Qed.

(** X16. [evaluateFromDirectory] is rejected in one case only: the batch
    has returned and one of the loaded test cases has no message block.
    The reason is then the [TypeError] of reading [content] of [undefined]
    while the report is built, although [executeTestCase] has turned that
    test case into a failed evaluation; and whenever the batch has
    returned and a loaded test case has no block, the call is rejected and
    no report is produced, whatever the other evaluations are. *)
Theorem evaluateFromDirectory_rejected_iff_blank
    this loader directoryPath stopOnError events startTime endTime date :
  (∀ e,
     evaluateFromDirectory this loader directoryPath stopOnError
       events startTime endTime date = Failed e →
     e = content_of_undefined
     ∧ (∃ evaluations,
          executeTestCasesInParallel this (testCases (loader directoryPath stopOnError))
            (maxConcurrency this) events = Some (Returned evaluations))
     ∧ ∃ tc, tc ∈ testCases (loader directoryPath stopOnError) ∧ messageBlocks tc = [])
  ∧ (∀ evaluations tc,
       executeTestCasesInParallel this (testCases (loader directoryPath stopOnError))
         (maxConcurrency this) events = Some (Returned evaluations) →
       tc ∈ testCases (loader directoryPath stopOnError) →
       messageBlocks tc = [] →
       evaluateFromDirectory this loader directoryPath stopOnError
         events startTime endTime date = Failed content_of_undefined).
Proof.
  unfold evaluateFromDirectory. split.
  - intros e.
    destruct (executeTestCasesInParallel _ _ _ _) as [[| | |evaluations|e']|] eqn:Hrun;
      try done.
    + unfold make_report.
      destruct (report_results date evaluations) as [e'|reported] eqn:Hrep; [|done].
      intros [= <-]. apply report_results_fails in Hrep as [-> Hex].
      split; [done|]. split; [by eexists|].
      apply (outcomes_blank this _ _ (returned_in_order _ _ _ _ _ Hrun)) in Hex.
      by apply Exists_exists in Hex.
    + by apply never_rejected in Hrun.
  - intros evaluations tc Hrun Hin Hblank. rewrite Hrun. unfold make_report.
    rewrite report_results_blank; [done|].
    apply (outcomes_blank this _ _ (returned_in_order _ _ _ _ _ Hrun)).
    apply Exists_exists. by exists tc.
Qed.

Lemma chunk_task_leaves_short this tc :
  (length (messageBlocks tc) < 2)%nat →
  leaves (λ evaluation,
            success evaluation = false
            ∧ error evaluation = Some too_few_blocks
            ∧ score evaluation = 0%Q
            ∧ response evaluation = EmptyString)
         (λ _, False) (chunk_task this tc).
Proof.
  intros Hshort.
  unfold chunk_task, executeTestCase, mbind, Prog_bind, performance_now,
    agent_sendInput, scoringService_scoreStrings, await.
  replace (Z.of_nat (length (messageBlocks tc)) <? 2)%Z with true
    by (symmetry; apply Z.ltb_lt; lia).
  explore_prog; auto.
Qed.

(** X17. In a report of [evaluateFromDirectory] the entries are those of the
    loaded test cases, in order. Each test case has a last block: the
    entry's [expected] is the content of that block and its [input] the
    contents of the blocks before it, joined by line feeds. The entry of a
    test case with a single block has that block as [expected], an empty
    [input], and is a failure with the error on the number of blocks, score
    0 and an empty response. *)
Theorem evaluateFromDirectory_entries
    this loader directoryPath stopOnError events startTime endTime date report :
  evaluateFromDirectory this loader directoryPath stopOnError
    events startTime endTime date = Fulfilled report →
  Forall2
    (λ tc r,
       ∃ blocks expected,
         messageBlocks tc = blocks ++ [expected]
         ∧ reported_id (result_testCase r) = tc_id tc
         ∧ reported_input (result_testCase r)
           = join (String LF EmptyString) (map content blocks)
         ∧ reported_expected (result_testCase r) = content expected
         ∧ (blocks = [] →
            reported_input (result_testCase r) = EmptyString
            ∧ passed r = false
            ∧ result_error r = Some too_few_blocks
            ∧ result_score r = 0%Q
            ∧ result_response r = EmptyString))
    (testCases (loader directoryPath stopOnError)) (results report).
Proof.
  unfold evaluateFromDirectory.
  destruct (executeTestCasesInParallel _ _ _ _) as [[| | |evaluations|e']|] eqn:Hrun;
    try done.
  apply returned_in_order in Hrun. unfold make_report.
  destruct (report_results date evaluations) as [e'|reported] eqn:Hrep; [done|].
  intros [= <-]. simpl. clear startTime endTime.
  revert reported Hrep.
  induction Hrun as [|tc evaluation tcs evaluations Hout _ IH]; intros reported Hrep;
    simpl in Hrep.
  - simplify_eq. constructor.
  - destruct (report_result date evaluation) as [e'|r] eqn:Hr; [done|].
    destruct (report_results date evaluations) as [e'|rs]; [done|].
    simplify_eq. constructor; [|by apply IH].
    pose proof (outcome_testCase _ _ _ Hout) as [Htc Hid].
    destruct (messageBlocks tc) as [|b bs] eqn:Hblocks.
    { rewrite report_result_blank in Hr by (by rewrite Htc). done. }
    destruct (exists_last (l := b :: bs) ltac:(done)) as (blocks & expected & Hsnoc).
    rewrite Hsnoc in Hblocks. exists blocks, expected.
    rewrite (report_result_entry date evaluation blocks expected) in Hr
      by (by rewrite Htc).
    injection Hr as <-. simpl. do 4 (split; [done|]).
    intros ->. split; [done|].
    assert (length (messageBlocks tc) < 2)%nat as Hshort by (rewrite Hblocks; simpl; lia).
    pose proof (leaves_residual _ _ _ _ (chunk_task_leaves_short this tc Hshort) Hout) as Hl.
    by inversion Hl.
Qed.

Lemma evaluateFromDirectory_entries_witness :
  Forall2
    (λ tc r,
       ∃ blocks expected,
         messageBlocks tc = blocks ++ [expected]
         ∧ reported_id (result_testCase r) = tc_id tc
         ∧ reported_input (result_testCase r)
           = join (String LF EmptyString) (map content blocks)
         ∧ reported_expected (result_testCase r) = content expected
         ∧ (blocks = [] →
            reported_input (result_testCase r) = EmptyString
            ∧ passed r = false
            ∧ result_error r = Some too_few_blocks
            ∧ result_score r = 0%Q
            ∧ result_response r = EmptyString))
    (testCases (cases_loader "cases" false)) (results cases_report).
Proof.
  apply (evaluateFromDirectory_entries default_executor cases_loader "cases" false
           cases_events 0%Z 1500%Z 2000%Z cases_report).
  reflexivity.
Defined.

Lemma passRate_bounds (p n : nat) :
  (p ≤ n)%nat →
  let rate := if (0 <? Z.of_nat n)%Z
              then (inject_Z (Z.of_nat p) / inject_Z (Z.of_nat n))%Q else 0%Q in
  (0 <= rate)%Q ∧ (rate <= 1)%Q
  ∧ (rate == 1 ↔ (0 < n)%nat ∧ p = n)%Q
  ∧ (rate == 0 ↔ p = 0%nat)%Q.
Proof.
  intros Hle. destruct n as [|n].
  { simpl. assert (p = 0%nat) as -> by lia. repeat split; try done; lia. }
  replace (0 <? Z.of_nat (S n))%Z with true by (symmetry; apply Z.ltb_lt; lia).
  cbv zeta.
  assert (∃ d, Z.of_nat (S n) = Z.pos d) as [d Hd].
  { destruct (Z.of_nat (S n)) eqn:Hz; try lia. by eexists. }
  rewrite Hd. unfold Qdiv, Qinv, Qmult, Qle, Qeq, inject_Z. simpl.
  assert (Z.of_nat p ≤ Z.pos d)%Z by lia.
  repeat split; intros; try lia.
Qed.

(** X18. The [passRate] of a report of [evaluateFromDirectory] lies between
    0 and 1. It is 1 exactly when there is at least one test and none
    failed, and 0 exactly when no test passed: a run in which no test case
    was loaded is reported with the rate 0, like a run in which every test
    failed. *)
Theorem evaluateFromDirectory_passRate
    this loader directoryPath stopOnError events startTime endTime date report :
  evaluateFromDirectory this loader directoryPath stopOnError
    events startTime endTime date = Fulfilled report →
  (0 <= passRate report)%Q ∧ (passRate report <= 1)%Q
  ∧ (passRate report == 1 ↔ (0 < totalTests report)%Z ∧ failedTests report = 0%Z)%Q
  ∧ (passRate report == 0 ↔ passedTests report = 0%Z)%Q.
Proof.
  unfold evaluateFromDirectory.
  destruct (executeTestCasesInParallel _ _ _ _) as [[| | |evaluations|e']|]; try done.
  unfold make_report.
  destruct (report_results date evaluations) as [e'|reported]; [done|].
  intros [= <-]. simpl.
  pose proof (passRate_bounds (length (List.filter success evaluations))
                (length evaluations) (filter_length_le _ _)) as (H0 & H1 & Hone & Hzero).
  cbv zeta in H0, H1, Hone, Hzero.
  split; [done|]. split; [done|]. split.
  - rewrite Hone. lia.
  - rewrite Hzero. lia.
Qed.

Lemma evaluateFromDirectory_passRate_witness :
  (0 <= passRate cases_report)%Q ∧ (passRate cases_report <= 1)%Q
  ∧ (passRate cases_report == 1
     ↔ (0 < totalTests cases_report)%Z ∧ failedTests cases_report = 0%Z)%Q
  ∧ (passRate cases_report == 0 ↔ passedTests cases_report = 0%Z)%Q.
Proof.
  apply (evaluateFromDirectory_passRate default_executor cases_loader "cases" false
           cases_events 0%Z 1500%Z 2000%Z cases_report).
  reflexivity.
Defined.

(** ** What the configuration changes in an evaluation *)

Section Configuration.
Context {W : Type} (env : Collaborators W).

(** X19. The configuration of the executor reaches [executeTestCase] only
    through the verdict. Two executors, run on the same test case against
    the same collaborators, make the same calls, leave the same world and
    return evaluations with the same identifier, score, execution time and
    response; the evaluations are equal as soon as they agree on [success],
    and a test case that passes under a threshold passes under every lower
    one. [maxConcurrency] plays no part. *)
Theorem executeTestCase_threshold_only this this' tc w :
  ∃ evaluation evaluation' w',
    run env (executeTestCase this tc) w = (inr evaluation, w')
    ∧ run env (executeTestCase this' tc) w = (inr evaluation', w')
    ∧ calls env (executeTestCase this tc) w = calls env (executeTestCase this' tc) w
    ∧ testCaseId evaluation = testCaseId evaluation'
    ∧ score evaluation = score evaluation'
    ∧ executionTime evaluation = executionTime evaluation'
    ∧ response evaluation = response evaluation'
    ∧ (success evaluation = success evaluation' → evaluation = evaluation')
    ∧ ((threshold this <= threshold this')%Q →
       success evaluation' = true → success evaluation = true).
Proof.
  unfold executeTestCase, mbind, Prog_bind. simpl.
  destruct (clock_now env w) as [t0 w1].
  rewrite !run_try_catch, !run_bind, !calls_try_catch, !calls_bind, !run_bind.
  destruct (Z.ltb_spec (Z.of_nat (length (messageBlocks tc))) 2) as [Hlt|Hge]; simpl.
  { destruct (clock_now env w1) as [t w2]. eexists _, _, _. by repeat split. }
  destruct (agent_answer env _ w1) as [[e|resp] w2]; simpl.
  { destruct (clock_now env w2) as [t w3]. eexists _, _, _. by repeat split. }
  destruct (clock_now env w2) as [t1 w3].
  rewrite !run_bind, !calls_bind.
  destruct (at_index _ _) as [block|]; simpl.
  2:{ destruct (clock_now env w3) as [t w4]. eexists _, _, _. by repeat split. }
  destruct (scoring_answer env _ _ w3) as [[e|sc] w4]; simpl.
  { destruct (clock_now env w4) as [t w5]. eexists _, _, _. by repeat split. }
  eexists _, _, _. do 7 (split; [done|]). simpl. split.
  - by intros ->.
  - intros Hle Hpass. apply Qle_bool_iff. apply Qle_bool_iff in Hpass.
    by eapply Qle_trans.
Qed.

End Configuration.

(** ** The two ways to evaluate a directory *)

Section TwoEntryPoints.
Context {W : Type} (env : Collaborators W).

Lemma run_executeTestCasesFromDirectory
    this loader directoryPath stopOnError log w evaluations w' :
  runs_each env this (testCases (loader directoryPath stopOnError)) w evaluations w' →
  run env (executeTestCasesFromDirectory this loader directoryPath stopOnError log) w
  = (inr (inr evaluations,
          log ++ loading_log directoryPath (loader directoryPath stopOnError)), w').
Proof.
  intros Heach. unfold executeTestCasesFromDirectory, loading_log.
  destruct (testCases (loader directoryPath stopOnError)) as [|tc tcs] eqn:Htcs.
  - inversion Heach; subst.
    destruct (errors (loader directoryPath stopOnError)) as [|e es]; simpl;
      rewrite <- ?app_assoc; done.
  - destruct (errors (loader directoryPath stopOnError)) as [|e es];
      rewrite !run_log_bind; cbn -[executeTestCases pretty String.app app];
      rewrite (run_executeTestCases _ _ _ _ _ _ _ Heach);
      rewrite <- ?app_assoc; done.
Qed.

(** X20. With [maxConcurrency = 1], [evaluateFromDirectory] reports the
    evaluations that [executeTestCasesFromDirectory] returns for the same
    directory. [evaluateFromDirectory] reads the clock, runs the batch one
    test case at a time and reads the clock again; against the same
    collaborators, [executeTestCasesFromDirectory] started after the first
    of these readings returns the evaluations of that batch.
    [evaluateFromDirectory] is then fulfilled with the report made of
    them, or rejected when no report can be made of them. *)
Theorem evaluateFromDirectory_one_at_a_time
    this loader directoryPath stopOnError log w date :
  maxConcurrency this = 1%Z →
  ∃ evaluations log' w',
    run env (executeTestCasesFromDirectory this loader directoryPath stopOnError log)
        (clock_now env w).2
    = (inr (inr evaluations, log'), w')
    ∧ evaluateFromDirectory this loader directoryPath stopOnError
        (serial_events env this (testCases (loader directoryPath stopOnError))
           (clock_now env w).2)
        (clock_now env w).1 (clock_now env w').1 date
      = match make_report (clock_now env w).1 (clock_now env w').1 date evaluations with
        | inr report => Fulfilled report
        | inl e => Failed e
        end.
Proof.
  intros Hk.
  destruct (runs_each_exists env this (testCases (loader directoryPath stopOnError))
              (clock_now env w).2) as (evaluations & w' & Heach).
  exists evaluations,
    (log ++ loading_log directoryPath (loader directoryPath stopOnError)), w'.
  split; [by apply run_executeTestCasesFromDirectory|].
  unfold evaluateFromDirectory.
  by rewrite Hk, (serial_events_return env _ _ _ _ _ Heach).
Qed.

End TwoEntryPoints.

Lemma evaluateFromDirectory_one_at_a_time_witness :
  ∃ evaluations log' w',
    run timed_env
      (executeTestCasesFromDirectory serial_executor two_cases_loader "cases" true [])
      (clock_now timed_env 0%Z).2
    = (inr (inr evaluations, log'), w')
    ∧ evaluateFromDirectory serial_executor two_cases_loader "cases" true
        (serial_events timed_env serial_executor
           (testCases (two_cases_loader "cases" true)) (clock_now timed_env 0%Z).2)
        (clock_now timed_env 0%Z).1 (clock_now timed_env w').1 2000%Z
      = match make_report (clock_now timed_env 0%Z).1 (clock_now timed_env w').1
                2000%Z evaluations with
        | inr report => Fulfilled report
        | inl e => Failed e
        end.
Proof.
  apply (evaluateFromDirectory_one_at_a_time timed_env serial_executor
           two_cases_loader "cases" true [] 0%Z 2000%Z).
  reflexivity.
Defined.

(** The report of that run: the first test case passes, the second has a
    single block. *)
Example two_cases_report :
  evaluateFromDirectory serial_executor two_cases_loader "cases" true
    (serial_events timed_env serial_executor [greeting_case; lonely_case] 0%Z)
    0%Z 15%Z 2000%Z
  = match make_report 0%Z 15%Z 2000%Z [greeting_evaluation; lonely_evaluation] with
    | inr report => Fulfilled report
    | inl e => Failed e
    end
  ∧ run timed_env
      (executeTestCasesFromDirectory serial_executor two_cases_loader "cases" true [])
      0%Z
    = (inr (inr [greeting_evaluation; lonely_evaluation],
            loading_log "cases" (two_cases_loader "cases" true)), 15%Z).
Proof. split; reflexivity. Qed.
